(** * EDAversi: the Reversi model and its search engines

    A shallow embedding of [model.cpp] (board, legal moves, move
    application) and of the three engines found in the repository: plain
    minimax, alpha-beta with a node budget, and alpha-beta with move
    ordering, adaptive depth and a larger node budget.

    Conventions.
    - C++ [int] is [Z]; every quantity computed here is bounded by a few
      thousand in absolute value (see [evaluate_range]), far inside 32 bits.
    - C++ [double] is a binary64 primitive float.
    - A function that mutates an object passed by reference returns the new
      value of that object.  The section [Store] at the end of the model
      gives the same functions over an explicit store of objects. *)

From Stdlib Require Import ZArith Lia List Bool Permutation Sorted.
From Stdlib Require Import PrimFloat.
From stdpp Require Import base list sorting.
Import ListNotations.
Open Scope Z_scope.

(** ** model.h *)

(** Modelled from the spec: [model.h] is not part of the sources.  The spec
    fixes an 8x8 board, cells that are empty, black or white, two players,
    and a game state made of the board, the player to move, a terminal
    flag, the per-player elapsed time and the turn-start timestamp. *)
Definition BOARD_SIZE : Z := 8.

Inductive Player := PLAYER_BLACK | PLAYER_WHITE.

Inductive Piece := PIECE_EMPTY | PIECE_BLACK | PIECE_WHITE.

Record Square := mkSquare { x : Z; y : Z }.

Abbreviation Moves := (list Square).

Abbreviation Board := (list (list Piece)).

Record GameModel := mkGameModel {
  gameOver : bool;
  currentPlayer : Player;
  playerTime : float * float;
  turnTimer : float;
  board : Board
}.

#[global] Instance Player_eq_dec : EqDecision Player.
Proof. solve_decision. Defined.

#[global] Instance Piece_eq_dec : EqDecision Piece.
Proof. solve_decision. Defined.

#[global] Instance Square_eq_dec : EqDecision Square.
Proof. solve_decision. Defined.

Definition Player_eqb (a b : Player) : bool := bool_decide (a = b).

Definition Piece_eqb (a b : Piece) : bool := bool_decide (a = b).

(** Field assignments. *)
Definition set_gameOver (model : GameModel) (v : bool) : GameModel :=
  mkGameModel v (currentPlayer model) (playerTime model) (turnTimer model) (board model).

Definition set_currentPlayer (model : GameModel) (v : Player) : GameModel :=
  mkGameModel (gameOver model) v (playerTime model) (turnTimer model) (board model).

Definition set_playerTime (model : GameModel) (v : float * float) : GameModel :=
  mkGameModel (gameOver model) (currentPlayer model) v (turnTimer model) (board model).

Definition set_turnTimer (model : GameModel) (v : float) : GameModel :=
  mkGameModel (gameOver model) (currentPlayer model) (playerTime model) v (board model).

Definition set_board (model : GameModel) (v : Board) : GameModel :=
  mkGameModel (gameOver model) (currentPlayer model) (playerTime model) (turnTimer model) v.

(** [playerTime[player]] and [playerTime[player] += d]. *)
Definition timeOf (t : float * float) (player : Player) : float :=
  match player with PLAYER_BLACK => fst t | PLAYER_WHITE => snd t end.

Definition addTime (t : float * float) (player : Player) (d : float) : float * float :=
  match player with
  | PLAYER_BLACK => ((fst t + d)%float, snd t)
  | PLAYER_WHITE => (fst t, (snd t + d)%float)
  end.

(** [(player == PLAYER_WHITE) ? PLAYER_BLACK : PLAYER_WHITE] *)
Definition otherPlayer (player : Player) : Player :=
  if Player_eqb player PLAYER_WHITE then PLAYER_BLACK else PLAYER_WHITE.

(** [(player == PLAYER_WHITE) ? PIECE_WHITE : PIECE_BLACK] *)
Definition pieceOf (player : Player) : Piece :=
  if Player_eqb player PLAYER_WHITE then PIECE_WHITE else PIECE_BLACK.

(** [(player == PLAYER_WHITE) ? PIECE_BLACK : PIECE_WHITE] *)
Definition opponentPieceOf (player : Player) : Piece :=
  if Player_eqb player PLAYER_WHITE then PIECE_BLACK else PIECE_WHITE.

(** ** model.cpp *)

Definition emptyBoard : Board :=
  replicate (Z.to_nat BOARD_SIZE) (replicate (Z.to_nat BOARD_SIZE) PIECE_EMPTY).

Definition isSquareValid (square : Square) : bool :=
  (0 <=? x square) && (x square <? BOARD_SIZE) &&
  (0 <=? y square) && (y square <? BOARD_SIZE).

(** [board[y][x]].  The sources read the array only at squares inside the
    board; outside it (undefined in C++) the model reads [PIECE_EMPTY]. *)
Definition cellAt (b : Board) (square : Square) : Piece :=
  if isSquareValid square then
    default PIECE_EMPTY
      (row ← b !! Z.to_nat (y square); row !! Z.to_nat (x square))
  else PIECE_EMPTY.

(** [board[y][x] = piece].  A write outside the array (undefined in C++)
    leaves the model's board as it is. *)
Definition setCell (b : Board) (square : Square) (piece : Piece) : Board :=
  if isSquareValid square then
    match b !! Z.to_nat (y square) with
    | Some row => <[Z.to_nat (y square) := <[Z.to_nat (x square) := piece]> row]> b
    | None => b
    end
  else b.

Definition getCurrentPlayer (model : GameModel) : Player := currentPlayer model.

Definition getBoardPiece (model : GameModel) (square : Square) : Piece :=
  cellAt (board model) square.

Definition setBoardPiece (model : GameModel) (square : Square) (piece : Piece) : GameModel :=
  set_board model (setCell (board model) square piece).

(** The squares in the order of the nested loops
    [for y in 0..BOARD_SIZE) for x in 0..BOARD_SIZE)]. *)
Definition boardSquares : list Square :=
  y ← seqZ 0 BOARD_SIZE; x ← seqZ 0 BOARD_SIZE; [mkSquare x y].

(** A counting loop over the board: [if (test) count++]. *)
Definition countSquares (test : Square -> bool) : Z :=
  fold_left (fun count square => if test square then count + 1 else count) boardSquares 0.

(** An accumulating loop over the board: [acc += term]. *)
Definition sumSquares (term : Square -> Z) : Z :=
  fold_left (fun acc square => acc + term square) boardSquares 0.

Definition initModel (model : GameModel) : GameModel :=
  let model := set_gameOver model true in
  let model := set_playerTime model (0%float, 0%float) in
  set_board model emptyBoard.

(** [GetTime] is raylib's clock; the value it returns is an input. *)
Definition startModel (GetTime : float) (model : GameModel) : GameModel :=
  let model := set_gameOver model false in
  let model := set_currentPlayer model PLAYER_BLACK in
  let model := set_playerTime model (0%float, 0%float) in
  let model := set_turnTimer model GetTime in
  let model := set_board model emptyBoard in
  let model := setBoardPiece model (mkSquare (BOARD_SIZE / 2 - 1) (BOARD_SIZE / 2 - 1)) PIECE_WHITE in
  let model := setBoardPiece model (mkSquare (BOARD_SIZE / 2) (BOARD_SIZE / 2 - 1)) PIECE_BLACK in
  let model := setBoardPiece model (mkSquare (BOARD_SIZE / 2) (BOARD_SIZE / 2)) PIECE_WHITE in
  setBoardPiece model (mkSquare (BOARD_SIZE / 2 - 1) (BOARD_SIZE / 2)) PIECE_BLACK.

Definition getScore (model : GameModel) (player : Player) : Z :=
  countSquares (fun square =>
    (Piece_eqb (getBoardPiece model square) PIECE_WHITE && Player_eqb player PLAYER_WHITE) ||
    (Piece_eqb (getBoardPiece model square) PIECE_BLACK && Player_eqb player PLAYER_BLACK)).

(** The eight directions, as [getValidMoves] lists them ([dx], [dy]). *)
Definition directions : list (Z * Z) :=
  [(-1, -1); (-1, 0); (-1, 1); (0, -1); (0, 1); (1, -1); (1, 0); (1, 1)].

Definition stepSquare (square : Square) (d : Z * Z) : Square :=
  mkSquare (x square + fst d) (y square + snd d).

(** The [while (isSquareValid(current))] loop of [getValidMoves] for one
    direction; the result is whether it sets [isValid].  Each iteration
    moves [current] one step, so it leaves the board after at most
    [BOARD_SIZE] iterations ([scanDirection_fuel]). *)
Fixpoint scanDirection (fuel : nat) (model : GameModel) (currentPiece opponentPiece : Piece)
    (d : Z * Z) (current : Square) (foundOpponent : bool) : bool :=
  match fuel with
  | O => false
  | S fuel =>
      if isSquareValid current then
        let piece := getBoardPiece model current in
        if Piece_eqb piece PIECE_EMPTY then false
        else if Piece_eqb piece opponentPiece then
          scanDirection fuel model currentPiece opponentPiece d (stepSquare current d) true
        else if Piece_eqb piece currentPiece then foundOpponent
        else false
      else false
  end.

Definition isValidMove (model : GameModel) (move : Square) : bool :=
  let currentPiece := pieceOf (currentPlayer model) in
  let opponentPiece := opponentPieceOf (currentPlayer model) in
  if negb (Piece_eqb (getBoardPiece model move) PIECE_EMPTY) then false
  else
    existsb (fun d =>
      scanDirection (Z.to_nat BOARD_SIZE) model currentPiece opponentPiece d
        (stepSquare move d) false) directions.

(** [getValidMoves(model, validMoves)] called on an empty [validMoves], as
    at every call site: the squares pushed, in the order of the scan. *)
Definition getValidMoves (model : GameModel) : Moves :=
  List.filter (isValidMove model) boardSquares.

(** The eight directions, as [playMove] lists them ([dx], [dy]). *)
Definition playDirections : list (Z * Z) :=
  [(-1, -1); (0, -1); (1, -1); (-1, 0); (1, 0); (-1, 1); (0, 1); (1, 1)].

(** The flipping loop of [playMove] for one direction. *)
Fixpoint flipDirection (fuel : nat) (model : GameModel) (piece enemyPiece : Piece)
    (d : Z * Z) (current : Square) (toFlip : list Square) : GameModel :=
  match fuel with
  | O => model
  | S fuel =>
      if isSquareValid current then
        let currentPiece := getBoardPiece model current in
        if Piece_eqb currentPiece PIECE_EMPTY then model
        else
          let toFlip :=
            if Piece_eqb currentPiece enemyPiece then toFlip ++ [current] else toFlip in
          if Piece_eqb currentPiece piece then
            if 0 <? Z.of_nat (length toFlip) then
              fold_left (fun model square => setBoardPiece model square piece) toFlip model
            else model
          else flipDirection fuel model piece enemyPiece d (stepSquare current d) toFlip
      else model
  end.

(** The [for (int dir = 0; dir < 8; dir++)] loop of [playMove]. *)
Definition flipAll (model : GameModel) (move : Square) (piece enemyPiece : Piece) : GameModel :=
  fold_left (fun model d =>
    flipDirection (Z.to_nat BOARD_SIZE) model piece enemyPiece d (stepSquare move d) [])
    playDirections model.

(** [// Update timer] *)
Definition updateTimer (GetTime : float) (model : GameModel) : GameModel :=
  let currentTime := GetTime in
  let model :=
    set_playerTime model
      (addTime (playerTime model) (currentPlayer model) (currentTime - turnTimer model)%float) in
  set_turnTimer model currentTime.

(** [// Swap player] *)
Definition swapPlayer (model : GameModel) : GameModel :=
  set_currentPlayer model (otherPlayer (currentPlayer model)).

(** [// Game over?], after the player was swapped. *)
Definition checkGameOver (model : GameModel) : GameModel :=
  let validMoves := getValidMoves model in
  if (length validMoves =? 0)%nat then
    let model := swapPlayer model in
    let validMoves := getValidMoves model in
    if (length validMoves =? 0)%nat then set_gameOver model true else model
  else model.

Definition playMove (GetTime : float) (model : GameModel) (move : Square) : bool * GameModel :=
  let piece := if Player_eqb (getCurrentPlayer model) PLAYER_WHITE then PIECE_WHITE else PIECE_BLACK in
  let model := setBoardPiece model move piece in
  let enemyPiece := if Piece_eqb piece PIECE_WHITE then PIECE_BLACK else PIECE_WHITE in
  let model := flipAll model move piece enemyPiece in
  let model := updateTimer GetTime model in
  let model := swapPlayer model in
  let model := checkGameOver model in
  (true, model).

(** [playMove] as the starter code has it (model.cpp, second part): the
    piece is placed and nothing is flipped. *)
Definition playMove_starter (GetTime : float) (model : GameModel) (move : Square)
    : bool * GameModel :=
  let piece := if Player_eqb (getCurrentPlayer model) PLAYER_WHITE then PIECE_WHITE else PIECE_BLACK in
  let model := setBoardPiece model move piece in
  let model := updateTimer GetTime model in
  let model := swapPlayer model in
  let model := checkGameOver model in
  (true, model).

(** ** ai.cpp: what the three engines share *)

Definition INT_MIN : Z := -2147483648.

Definition INT_MAX : Z := 2147483647.

Definition copyBoard (source dest : GameModel) : GameModel :=
  let dest := set_board dest (board source) in
  let dest := set_currentPlayer dest (currentPlayer source) in
  set_gameOver dest (gameOver source).

(** [copyBoard(model, newModel); playMove(newModel, move);] the result is
    the new value of [newModel]. *)
Definition simulateMove (GetTime : float) (model : GameModel) (move : Square)
    (newModel : GameModel) : GameModel :=
  let newModel := copyBoard model newModel in
  snd (playMove GetTime newModel move).

(** [ScoredMove] and its [operator<] (descending score). *)
Record ScoredMove := mkScoredMove { move : Square; score : Z }.

Definition ScoredMove_lt (a b : ScoredMove) : bool := score b <? score a.

(** [POSITION_WEIGHTS] *)
Definition POSITION_WEIGHTS : list (list Z) :=
  [ [100; -20;  10;   5;   5;  10; -20; 100];
    [-20; -50;  -2;  -2;  -2;  -2; -50; -20];
    [ 10;  -2;   5;   1;   1;   5;  -2;  10];
    [  5;  -2;   1;   0;   0;   1;  -2;   5];
    [  5;  -2;   1;   0;   0;   1;  -2;   5];
    [ 10;  -2;   5;   1;   1;   5;  -2;  10];
    [-20; -50;  -2;  -2;  -2;  -2; -50; -20];
    [100; -20;  10;   5;   5;  10; -20; 100] ].

(** [POSITION_WEIGHTS[y][x]], read inside the table only. *)
Definition weightAt (square : Square) : Z :=
  default 0 (row ← POSITION_WEIGHTS !! Z.to_nat (y square); row !! Z.to_nat (x square)).

Definition EARLY_GAME_DEPTH : Z := 7.

Definition MID_GAME_DEPTH : Z := 8.

Definition END_GAME_DEPTH : Z := 12.

(** The loop that counts the non-empty cells, in [getSearchDepth] and in
    [evaluate]. *)
Definition totalPiecesOf (model : GameModel) : Z :=
  countSquares (fun square => negb (Piece_eqb (getBoardPiece model square) PIECE_EMPTY)).

Definition getSearchDepth (model : GameModel) : Z :=
  let totalPieces := totalPiecesOf model in
  if totalPieces <=? 20 then EARLY_GAME_DEPTH
  else if 45 <=? totalPieces then END_GAME_DEPTH
  else MID_GAME_DEPTH.

Section Engine.

(** The search works on local [GameModel] objects that are declared without
    an initialiser and filled by [copyBoard], which leaves the two timer
    fields as they were; [playMove] then steps those fields with the clock.
    [uninit] is the content of such an object before it is filled and
    [GetTime] the clock's reading.  Nothing in the search reads a timer
    field. *)
Variable GetTime : float.
Variable uninit : GameModel.

(** *** The evaluation of the plain minimax engine (ai.cpp, second part) *)

Definition evaluate_minimax (model : GameModel) (player : Player) : Z :=
  let opponent := otherPlayer player in
  getScore model player - getScore model opponent.

(** The [tempModel] of [evaluate], with [player] to move. *)
Definition tempModelFor (model : GameModel) (player : Player) : GameModel :=
  let tempModel := uninit in
  let tempModel := set_board tempModel (board model) in
  let tempModel := set_gameOver tempModel false in
  set_currentPlayer tempModel player.

(** *** The evaluation of the first alpha-beta engine (ai.cpp, first part) *)

Definition evaluate_basic (model : GameModel) (player : Player) : Z :=
  let opponent := otherPlayer player in
  let scoreDiff := getScore model player - getScore model opponent in
  let corners :=
    [mkSquare 0 0; mkSquare 0 (BOARD_SIZE - 1); mkSquare (BOARD_SIZE - 1) 0;
     mkSquare (BOARD_SIZE - 1) (BOARD_SIZE - 1)] in
  let playerPiece := pieceOf player in
  let opponentPiece := opponentPieceOf player in
  let cornerValue :=
    fold_left (fun cornerValue corner =>
      let piece := getBoardPiece model corner in
      if Piece_eqb piece playerPiece then cornerValue + 25
      else if Piece_eqb piece opponentPiece then cornerValue - 25
      else cornerValue) corners 0 in
  let playerMoves := getValidMoves (tempModelFor model player) in
  let opponentMoves := getValidMoves (tempModelFor model opponent) in
  let mobilityValue := Z.of_nat (length playerMoves) - Z.of_nat (length opponentMoves) in
  scoreDiff + cornerValue + mobilityValue * 2.

(** *** The evaluation of the final engine *)

Definition positionalValue (model : GameModel) (player : Player) : Z :=
  let playerPiece := pieceOf player in
  let opponentPiece := opponentPieceOf player in
  sumSquares (fun square =>
    if Piece_eqb (getBoardPiece model square) playerPiece then weightAt square
    else if Piece_eqb (getBoardPiece model square) opponentPiece then - weightAt square
    else 0).

(** The mobility term, from the count of pieces and the two move lists. *)
Definition mobilityOf (totalPieces : Z) (playerMoves opponentMoves : Moves) : Z :=
  if totalPieces <? 50 then
    let mobilityValue := (Z.of_nat (length playerMoves) - Z.of_nat (length opponentMoves)) * 3 in
    let mobilityValue :=
      if (length opponentMoves =? 0)%nat && (0 <? length playerMoves)%nat
      then mobilityValue + 50 else mobilityValue in
    if (length opponentMoves * 2 <? length playerMoves)%nat
    then mobilityValue + 20 else mobilityValue
  else 0.

Definition mobilityValue (model : GameModel) (player : Player) : Z :=
  let opponent := otherPlayer player in
  let totalPieces := totalPiecesOf model in
  let playerMoves := getValidMoves (tempModelFor model player) in
  let opponentMoves := getValidMoves (tempModelFor model opponent) in
  mobilityOf totalPieces playerMoves opponentMoves.

Definition stabilityValue (model : GameModel) (player : Player) : Z :=
  let playerPiece := pieceOf player in
  let opponentPiece := opponentPieceOf player in
  sumSquares (fun square =>
    let isEdge :=
      (x square =? 0) || (x square =? BOARD_SIZE - 1) ||
      (y square =? 0) || (y square =? BOARD_SIZE - 1) in
    if isEdge then
      if Piece_eqb (getBoardPiece model square) playerPiece then 5
      else if Piece_eqb (getBoardPiece model square) opponentPiece then -5
      else 0
    else 0).

Definition parityValue (model : GameModel) (player : Player) : Z :=
  let totalPieces := totalPiecesOf model in
  if 50 <=? totalPieces then
    let emptySquares := 64 - totalPieces in
    if Z.rem emptySquares 2 =? 1 then
      if Player_eqb (currentPlayer model) player then 10 else -10
    else 0
  else 0.

Definition pieceValue (model : GameModel) (player : Player) : Z :=
  let opponent := otherPlayer player in
  let totalPieces := totalPiecesOf model in
  let scoreDiff := getScore model player - getScore model opponent in
  if 50 <=? totalPieces then scoreDiff * 5
  else if 40 <=? totalPieces then scoreDiff * 2
  else Z.quot scoreDiff 2.

Definition evaluate (model : GameModel) (player : Player) : Z :=
  positionalValue model player + mobilityValue model player + stabilityValue model player
  + parityValue model player + pieceValue model player.

(** *** Move ordering *)

(** [std::sort] over [ScoredMove]s.  The C++ standard fixes its result up
    to the order of equivalent elements: a permutation of the input in
    which no element is less (by [operator<]) than an earlier one. *)
Variable std_sort : list ScoredMove -> list ScoredMove.
Hypothesis std_sort_permutation : forall l, Permutation (std_sort l) l.
Hypothesis std_sort_sorted :
  forall l, StronglySorted (fun a b => ScoredMove_lt b a = false) (std_sort l).

(** The first loop of [orderMoves]. *)
Definition scoreMoves (model : GameModel) (moves : Moves) (aiPlayer : Player)
    (maximizing : bool) : list ScoredMove :=
  map (fun m =>
    let newModel := simulateMove GetTime model m uninit in
    let s := evaluate newModel aiPlayer in
    let s := if negb maximizing then - s else s in
    mkScoredMove m s) moves.

(** The result is the new content of [moves]. *)
Definition orderMoves (model : GameModel) (moves : Moves) (aiPlayer : Player)
    (maximizing : bool) : Moves :=
  let scoredMoves := scoreMoves model moves aiPlayer maximizing in
  let scoredMoves := std_sort scoredMoves in
  map move scoredMoves.

(** *** Search *)

Section Search.

(** The engines differ in their evaluation, their node budget, and in
    whether a node's moves are reordered before they are tried. *)
Variable evaluate_fn : GameModel -> Player -> Z.
Variable MAX_NODES_of : Z.
Variable reorder : GameModel -> Moves -> Player -> bool -> Moves.

(** The [for (auto move : validMoves)] loop of a maximizing node.
    [child] is the recursive call on a simulated position; every function
    of the search takes the value of [nodesExplored] and returns the new
    one beside its result. *)
Fixpoint maxLoop (child : GameModel -> Z -> Z -> Z -> Z * Z) (model : GameModel)
    (validMoves : Moves) (alpha beta maxEval nodesExplored : Z) : Z * Z :=
  match validMoves with
  | [] => (maxEval, nodesExplored)
  | m :: validMoves =>
      let newModel := simulateMove GetTime model m uninit in
      let '(eval, nodesExplored) := child newModel alpha beta nodesExplored in
      let maxEval := if maxEval <? eval then eval else maxEval in
      let alpha := if alpha <? eval then eval else alpha in
      if beta <=? alpha then (maxEval, nodesExplored)
      else maxLoop child model validMoves alpha beta maxEval nodesExplored
  end.

(** The loop of a minimizing node. *)
Fixpoint minLoop (child : GameModel -> Z -> Z -> Z -> Z * Z) (model : GameModel)
    (validMoves : Moves) (alpha beta minEval nodesExplored : Z) : Z * Z :=
  match validMoves with
  | [] => (minEval, nodesExplored)
  | m :: validMoves =>
      let newModel := simulateMove GetTime model m uninit in
      let '(eval, nodesExplored) := child newModel alpha beta nodesExplored in
      let minEval := if eval <? minEval then eval else minEval in
      let beta := if eval <? beta then eval else beta in
      if beta <=? alpha then (minEval, nodesExplored)
      else minLoop child model validMoves alpha beta minEval nodesExplored
  end.

(** [newModel] of the pass branch: a copy with the other player to move. *)
Definition passModel (model : GameModel) : GameModel :=
  let newModel := copyBoard model uninit in
  set_currentPlayer newModel (otherPlayer (currentPlayer newModel)).

(** [alphabeta].  [depth] is a natural number: [getBestMove] starts the
    search at [searchDepth - 1 >= 6] and every recursive call passes
    [depth - 1] after the test [depth == 0]. *)
Fixpoint alphabeta_with (depth : nat) (model : GameModel) (alpha beta : Z)
    (maximizingPlayer : bool) (aiPlayer : Player) (nodesExplored : Z) : Z * Z :=
  let nodesExplored := nodesExplored + 1 in
  if MAX_NODES_of <=? nodesExplored then (evaluate_fn model aiPlayer, nodesExplored)
  else
    match depth with
    | O => (evaluate_fn model aiPlayer, nodesExplored)
    | S depth' =>
        if gameOver model then (evaluate_fn model aiPlayer, nodesExplored)
        else
          let validMoves := getValidMoves model in
          if (length validMoves =? 0)%nat then
            let newModel := passModel model in
            let opponentMoves := getValidMoves newModel in
            if (length opponentMoves =? 0)%nat then
              let newModel := set_gameOver newModel true in
              (evaluate_fn newModel aiPlayer, nodesExplored)
            else
              alphabeta_with depth' newModel alpha beta (negb maximizingPlayer) aiPlayer
                nodesExplored
          else
            let validMoves := reorder model validMoves aiPlayer maximizingPlayer in
            if maximizingPlayer then
              maxLoop (fun newModel alpha beta nodesExplored =>
                         alphabeta_with depth' newModel alpha beta false aiPlayer nodesExplored)
                model validMoves alpha beta INT_MIN nodesExplored
            else
              minLoop (fun newModel alpha beta nodesExplored =>
                         alphabeta_with depth' newModel alpha beta true aiPlayer nodesExplored)
                model validMoves alpha beta INT_MAX nodesExplored
    end.

(** [minimax] (ai.cpp, second part), over the evaluation [evaluate_fn]. *)
Fixpoint minimax_with (depth : nat) (model : GameModel) (maximizingPlayer : bool)
    (aiPlayer : Player) : Z :=
  match depth with
  | O => evaluate_fn model aiPlayer
  | S depth' =>
      if gameOver model then evaluate_fn model aiPlayer
      else
        let validMoves := getValidMoves model in
        if (length validMoves =? 0)%nat then
          let newModel := passModel model in
          let opponentMoves := getValidMoves newModel in
          if (length opponentMoves =? 0)%nat then
            let newModel := set_gameOver newModel true in
            evaluate_fn newModel aiPlayer
          else minimax_with depth' newModel (negb maximizingPlayer) aiPlayer
        else if maximizingPlayer then
          fold_left (fun maxEval m =>
            let newModel := simulateMove GetTime model m uninit in
            let eval := minimax_with depth' newModel false aiPlayer in
            if maxEval <? eval then eval else maxEval) validMoves INT_MIN
        else
          fold_left (fun minEval m =>
            let newModel := simulateMove GetTime model m uninit in
            let eval := minimax_with depth' newModel true aiPlayer in
            if eval <? minEval then eval else minEval) validMoves INT_MAX
  end.

End Search.

(** The plain minimax engine: [MAX_DEPTH 5], piece difference. *)
Definition minimax := minimax_with evaluate_minimax.

(** The first alpha-beta engine: [MAX_NODES 100000], no reordering. *)
Definition MAX_NODES_basic : Z := 100000.

Definition alphabeta_basic :=
  alphabeta_with evaluate_basic MAX_NODES_basic (fun _ validMoves _ _ => validMoves).

(** The final engine: [MAX_NODES 500000], moves reordered when a node has
    more than one. *)
Definition MAX_NODES : Z := 500000.

Definition orderIfSeveral (model : GameModel) (validMoves : Moves) (aiPlayer : Player)
    (maximizingPlayer : bool) : Moves :=
  if (1 <? length validMoves)%nat then orderMoves model validMoves aiPlayer maximizingPlayer
  else validMoves.

Definition alphabeta := alphabeta_with evaluate MAX_NODES orderIfSeveral.

(** Modelled from the spec: the invalid-move sentinel [GAME_INVALID_SQUARE]
    is defined in [model.h]; it is a square outside the board. *)
Variable GAME_INVALID_SQUARE : Square.
Hypothesis GAME_INVALID_SQUARE_invalid : isSquareValid GAME_INVALID_SQUARE = false.

(** The loop over the root moves of [getBestMove]: no cut-off, the first
    move with the highest value is kept. *)
Fixpoint rootLoop (model : GameModel) (validMoves : Moves) (searchDepth : Z) (aiPlayer : Player)
    (alpha beta : Z) (bestMove : Square) (bestValue nodesExplored : Z) : Square * Z :=
  match validMoves with
  | [] => (bestMove, nodesExplored)
  | m :: validMoves =>
      let newModel := simulateMove GetTime model m uninit in
      let '(moveValue, nodesExplored) :=
        alphabeta (Z.to_nat (searchDepth - 1)) newModel alpha beta false aiPlayer nodesExplored in
      let '(bestValue, bestMove) :=
        if bestValue <? moveValue then (moveValue, m) else (bestValue, bestMove) in
      let alpha := if alpha <? moveValue then moveValue else alpha in
      rootLoop model validMoves searchDepth aiPlayer alpha beta bestMove bestValue nodesExplored
  end.

(** [getBestMove] of the final engine, with [nodesExplored] before and
    after the call. *)
Definition getBestMove (model : GameModel) (nodesExplored : Z) : Square * Z :=
  let validMoves := getValidMoves model in
  if (length validMoves =? 0)%nat then (GAME_INVALID_SQUARE, nodesExplored)
  else if (length validMoves =? 1)%nat then (nth 0 validMoves GAME_INVALID_SQUARE, nodesExplored)
  else
    let nodesExplored := 0 in
    let searchDepth := getSearchDepth model in
    let bestMove := nth 0 validMoves GAME_INVALID_SQUARE in
    let bestValue := INT_MIN in
    let aiPlayer := currentPlayer model in
    let alpha := INT_MIN in
    let beta := INT_MAX in
    let validMoves := orderMoves model validMoves aiPlayer true in
    rootLoop model validMoves searchDepth aiPlayer alpha beta bestMove bestValue nodesExplored.

End Engine.

(** ** The engine over a store of objects

    The C++ functions take their [GameModel] by reference.  Here the
    objects live in a store, a reference is an address, and a write through
    a reference changes the store at that address, whatever other name the
    object has.  A function's locals take the addresses from [sp] up, above
    every object of its callers. *)

Definition Store := nat -> GameModel.

Definition write (s : Store) (r : nat) (v : GameModel) : Store :=
  fun r' => if (r' =? r)%nat then v else s r'.

Definition copyBoard_at (source dest : nat) (s : Store) : Store :=
  let s := write s dest (set_board (s dest) (board (s source))) in
  let s := write s dest (set_currentPlayer (s dest) (currentPlayer (s source))) in
  write s dest (set_gameOver (s dest) (gameOver (s source))).

Definition playMove_at (GetTime : float) (model : nat) (m : Square) (s : Store) : bool * Store :=
  let '(ok, new) := playMove GetTime (s model) m in
  (ok, write s model new).

Definition simulateMove_at (GetTime : float) (model : nat) (m : Square) (newModel : nat)
    (s : Store) : Store :=
  let s := copyBoard_at model newModel s in
  snd (playMove_at GetTime newModel m s).

Section StoreEngine.

Variable GetTime : float.
Variable uninit : GameModel.
Variable std_sort : list ScoredMove -> list ScoredMove.

(** [GameModel newModel;] at address [r]. *)
Definition declare (r : nat) (s : Store) : Store := write s r uninit.

Definition evaluate_at (sp : nat) (model : nat) (player : Player) (s : Store) : Z * Store :=
  let opponent := otherPlayer player in
  let totalPieces := totalPiecesOf (s model) in
  let positional := positionalValue (s model) player in
  let tempModel := sp in
  let s := declare tempModel s in
  let s := write s tempModel (set_board (s tempModel) (board (s model))) in
  let s := write s tempModel (set_gameOver (s tempModel) false) in
  let s := write s tempModel (set_currentPlayer (s tempModel) player) in
  let playerMoves := getValidMoves (s tempModel) in
  let s := write s tempModel (set_currentPlayer (s tempModel) opponent) in
  let opponentMoves := getValidMoves (s tempModel) in
  let mobility := mobilityOf totalPieces playerMoves opponentMoves in
  (positional + mobility + stabilityValue (s model) player + parityValue (s model) player
   + pieceValue (s model) player, s).

Fixpoint scoreMoves_at (sp : nat) (model : nat) (moves : Moves) (aiPlayer : Player)
    (maximizing : bool) (s : Store) : list ScoredMove * Store :=
  match moves with
  | [] => ([], s)
  | m :: moves =>
      let newModel := sp in
      let s := declare newModel s in
      let s := simulateMove_at GetTime model m newModel s in
      let '(v, s) := evaluate_at (S sp) newModel aiPlayer s in
      let v := if negb maximizing then - v else v in
      let '(scoredMoves, s) := scoreMoves_at sp model moves aiPlayer maximizing s in
      (mkScoredMove m v :: scoredMoves, s)
  end.

Definition orderMoves_at (sp : nat) (model : nat) (moves : Moves) (aiPlayer : Player)
    (maximizing : bool) (s : Store) : Moves * Store :=
  let '(scoredMoves, s) := scoreMoves_at sp model moves aiPlayer maximizing s in
  let scoredMoves := std_sort scoredMoves in
  (map move scoredMoves, s).

Fixpoint maxLoop_at (child : nat -> nat -> Z -> Z -> Z * Store -> Z * (Z * Store))
    (sp : nat) (model : nat) (validMoves : Moves) (alpha beta maxEval : Z)
    (st : Z * Store) : Z * (Z * Store) :=
  match validMoves with
  | [] => (maxEval, st)
  | m :: validMoves =>
      let newModel := sp in
      let s := declare newModel (snd st) in
      let s := simulateMove_at GetTime model m newModel s in
      let '(eval, st) := child (S sp) newModel alpha beta (fst st, s) in
      let maxEval := if maxEval <? eval then eval else maxEval in
      let alpha := if alpha <? eval then eval else alpha in
      if beta <=? alpha then (maxEval, st)
      else maxLoop_at child sp model validMoves alpha beta maxEval st
  end.

Fixpoint minLoop_at (child : nat -> nat -> Z -> Z -> Z * Store -> Z * (Z * Store))
    (sp : nat) (model : nat) (validMoves : Moves) (alpha beta minEval : Z)
    (st : Z * Store) : Z * (Z * Store) :=
  match validMoves with
  | [] => (minEval, st)
  | m :: validMoves =>
      let newModel := sp in
      let s := declare newModel (snd st) in
      let s := simulateMove_at GetTime model m newModel s in
      let '(eval, st) := child (S sp) newModel alpha beta (fst st, s) in
      let minEval := if eval <? minEval then eval else minEval in
      let beta := if eval <? beta then eval else beta in
      if beta <=? alpha then (minEval, st)
      else minLoop_at child sp model validMoves alpha beta minEval st
  end.

(** [alphabeta] of the final engine; the state is [nodesExplored] and the
    store. *)
Fixpoint alphabeta_at (depth : nat) (sp : nat) (model : nat) (alpha beta : Z)
    (maximizingPlayer : bool) (aiPlayer : Player) (st : Z * Store) : Z * (Z * Store) :=
  let nodesExplored := fst st + 1 in
  let s := snd st in
  if MAX_NODES <=? nodesExplored then
    let '(v, s) := evaluate_at sp model aiPlayer s in (v, (nodesExplored, s))
  else
    match depth with
    | O => let '(v, s) := evaluate_at sp model aiPlayer s in (v, (nodesExplored, s))
    | S depth' =>
        if gameOver (s model) then
          let '(v, s) := evaluate_at sp model aiPlayer s in (v, (nodesExplored, s))
        else
          let validMoves := getValidMoves (s model) in
          if (length validMoves =? 0)%nat then
            let newModel := sp in
            let s := declare newModel s in
            let s := copyBoard_at model newModel s in
            let s := write s newModel
                       (set_currentPlayer (s newModel) (otherPlayer (currentPlayer (s newModel)))) in
            let opponentMoves := getValidMoves (s newModel) in
            if (length opponentMoves =? 0)%nat then
              let s := write s newModel (set_gameOver (s newModel) true) in
              let '(v, s) := evaluate_at (S sp) newModel aiPlayer s in (v, (nodesExplored, s))
            else
              alphabeta_at depth' (S sp) newModel alpha beta (negb maximizingPlayer) aiPlayer
                (nodesExplored, s)
          else
            let '(validMoves, s) :=
              if (1 <? length validMoves)%nat
              then orderMoves_at sp model validMoves aiPlayer maximizingPlayer s
              else (validMoves, s) in
            if maximizingPlayer then
              maxLoop_at (fun sp newModel alpha beta st =>
                            alphabeta_at depth' sp newModel alpha beta false aiPlayer st)
                sp model validMoves alpha beta INT_MIN (nodesExplored, s)
            else
              minLoop_at (fun sp newModel alpha beta st =>
                            alphabeta_at depth' sp newModel alpha beta true aiPlayer st)
                sp model validMoves alpha beta INT_MAX (nodesExplored, s)
    end.

Variable GAME_INVALID_SQUARE : Square.

Fixpoint rootLoop_at (sp : nat) (model : nat) (validMoves : Moves) (searchDepth : Z)
    (aiPlayer : Player) (alpha beta : Z) (bestMove : Square) (bestValue : Z)
    (st : Z * Store) : Square * (Z * Store) :=
  match validMoves with
  | [] => (bestMove, st)
  | m :: validMoves =>
      let newModel := sp in
      let s := declare newModel (snd st) in
      let s := simulateMove_at GetTime model m newModel s in
      let '(moveValue, st) :=
        alphabeta_at (Z.to_nat (searchDepth - 1)) (S sp) newModel alpha beta false aiPlayer
          (fst st, s) in
      let '(bestValue, bestMove) :=
        if bestValue <? moveValue then (moveValue, m) else (bestValue, bestMove) in
      let alpha := if alpha <? moveValue then moveValue else alpha in
      rootLoop_at sp model validMoves searchDepth aiPlayer alpha beta bestMove bestValue st
  end.

Definition getBestMove_at (sp : nat) (model : nat) (st : Z * Store) : Square * (Z * Store) :=
  let s := snd st in
  let validMoves := getValidMoves (s model) in
  if (length validMoves =? 0)%nat then (GAME_INVALID_SQUARE, st)
  else if (length validMoves =? 1)%nat then (nth 0 validMoves GAME_INVALID_SQUARE, st)
  else
    let nodesExplored := 0 in
    let searchDepth := getSearchDepth (s model) in
    let bestMove := nth 0 validMoves GAME_INVALID_SQUARE in
    let bestValue := INT_MIN in
    let aiPlayer := currentPlayer (s model) in
    let alpha := INT_MIN in
    let beta := INT_MAX in
    let '(validMoves, s) := orderMoves_at sp model validMoves aiPlayer true s in
    rootLoop_at sp model validMoves searchDepth aiPlayer alpha beta bestMove bestValue
      (nodesExplored, s).

End StoreEngine.

(** ** getBestMove of the two earlier engines (ai.cpp) *)

Section EarlierEngines.

Variable GetTime : float.
Variable uninit : GameModel.
Variable GAME_INVALID_SQUARE : Square.

(** The loop over the root moves, for an alpha-beta search [search] of the
    simulated position. *)
Fixpoint rootLoop_with (search : GameModel -> Z -> Z -> Z -> Z * Z) (model : GameModel)
    (validMoves : Moves) (alpha beta : Z) (bestMove : Square) (bestValue nodesExplored : Z)
    : Square * Z :=
  match validMoves with
  | [] => (bestMove, nodesExplored)
  | m :: validMoves =>
      let newModel := simulateMove GetTime model m uninit in
      let '(moveValue, nodesExplored) := search newModel alpha beta nodesExplored in
      let '(bestValue, bestMove) :=
        if bestValue <? moveValue then (moveValue, m) else (bestValue, bestMove) in
      let alpha := if alpha <? moveValue then moveValue else alpha in
      rootLoop_with search model validMoves alpha beta bestMove bestValue nodesExplored
  end.

(** The first alpha-beta engine: [MAX_DEPTH 6], root moves in the order of
    [getValidMoves]. *)
Definition MAX_DEPTH_basic : Z := 6.

Definition getBestMove_basic (model : GameModel) (nodesExplored : Z) : Square * Z :=
  let validMoves := getValidMoves model in
  if (length validMoves =? 0)%nat then (GAME_INVALID_SQUARE, nodesExplored)
  else if (length validMoves =? 1)%nat then (nth 0 validMoves GAME_INVALID_SQUARE, nodesExplored)
  else
    let nodesExplored := 0 in
    let bestMove := nth 0 validMoves GAME_INVALID_SQUARE in
    let bestValue := INT_MIN in
    let aiPlayer := currentPlayer model in
    let alpha := INT_MIN in
    let beta := INT_MAX in
    rootLoop_with
      (fun newModel alpha beta nodesExplored =>
         alphabeta_basic GetTime uninit (Z.to_nat (MAX_DEPTH_basic - 1)) newModel alpha beta false
           aiPlayer nodesExplored)
      model validMoves alpha beta bestMove bestValue nodesExplored.

(** The root loop of the plain minimax engine; [value] is the minimax value
    of a simulated position. *)
Fixpoint rootLoop_minimax (value : GameModel -> Z) (model : GameModel) (validMoves : Moves)
    (bestMove : Square) (bestValue : Z) : Square :=
  match validMoves with
  | [] => bestMove
  | m :: validMoves =>
      let newModel := simulateMove GetTime model m uninit in
      let moveValue := value newModel in
      let '(bestValue, bestMove) :=
        if bestValue <? moveValue then (moveValue, m) else (bestValue, bestMove) in
      rootLoop_minimax value model validMoves bestMove bestValue
  end.

(** [getBestMove] of the plain minimax engine, over an evaluation and a
    depth. *)
Definition getBestMove_minimax_with (evaluate_fn : GameModel -> Player -> Z) (MAX_DEPTH : Z)
    (model : GameModel) : Square :=
  let validMoves := getValidMoves model in
  if (length validMoves =? 0)%nat then GAME_INVALID_SQUARE
  else if (length validMoves =? 1)%nat then nth 0 validMoves GAME_INVALID_SQUARE
  else
    let bestMove := nth 0 validMoves GAME_INVALID_SQUARE in
    let bestValue := INT_MIN in
    let aiPlayer := currentPlayer model in
    rootLoop_minimax
      (fun newModel =>
         minimax_with GetTime uninit evaluate_fn (Z.to_nat (MAX_DEPTH - 1)) newModel false aiPlayer)
      model validMoves bestMove bestValue.

(** The plain minimax engine: [MAX_DEPTH 5], piece difference. *)
Definition MAX_DEPTH_minimax : Z := 5.

Definition getBestMove_minimax : GameModel -> Square :=
  getBestMove_minimax_with evaluate_minimax MAX_DEPTH_minimax.

End EarlierEngines.

(** [getTimer] (model.cpp); [GetTime] is the clock's reading. *)
Definition getTimer (GetTime : float) (model : GameModel) (player : Player) : float :=
  let turnTime :=
    if negb (gameOver model) && Player_eqb player (currentPlayer model)
    then (GetTime - turnTimer model)%float else 0%float in
  (timeOf (playerTime model) player + turnTime)%float.

(** ** std::sort as the C++ library implements it

    [orderMoves] calls [std::sort], whose code belongs to the C++ library
    and not to the repository.  The C++ standard fixes its result up to the
    order of equivalent elements.  This part follows libstdc++ (GCC 12,
    [bits/stl_algo.h] and [bits/stl_heap.h]) at the instance the engine
    uses: a [std::vector<ScoredMove>] and [operator<].  The vector is a
    list, an iterator is an index into it.  A read outside the vector
    (undefined in C++) gives a default element, a write outside it does
    nothing; the loops the library leaves unguarded take the length of the
    vector as fuel. *)

Module libstdcxx.

#[global] Instance ScoredMove_inhabited : Inhabited ScoredMove :=
  populate (mkScoredMove (mkSquare 0 0) 0).

(** [*a < *b] on two iterators. *)
Definition iter_less_iter (v : list ScoredMove) (a b : nat) : bool :=
  ScoredMove_lt (v !!! a) (v !!! b).

Definition iter_swap (v : list ScoredMove) (a b : nat) : list ScoredMove :=
  let tmp := v !!! a in
  let v := <[a := v !!! b]> v in
  <[b := tmp]> v.

Definition move_median_to_first (v : list ScoredMove) (result a b c : nat) : list ScoredMove :=
  if iter_less_iter v a b then
    if iter_less_iter v b c then iter_swap v result b
    else if iter_less_iter v a c then iter_swap v result c
    else iter_swap v result a
  else if iter_less_iter v a c then iter_swap v result a
  else if iter_less_iter v b c then iter_swap v result c
  else iter_swap v result b.

(** The loop of [__unguarded_linear_insert]; [next] is [last - 1]. *)
Fixpoint linear_insert_loop (val : ScoredMove) (v : list ScoredMove) (last : nat)
    : list ScoredMove :=
  match last with
  | O => <[last := val]> v
  | S next =>
      if ScoredMove_lt val (v !!! next)
      then linear_insert_loop val (<[last := v !!! next]> v) next
      else <[last := val]> v
  end.

Definition unguarded_linear_insert (v : list ScoredMove) (last : nat) : list ScoredMove :=
  let val := v !!! last in
  linear_insert_loop val v last.

(** [std::move_backward(first, first + n, result)]. *)
Fixpoint move_backward (n : nat) (v : list ScoredMove) (first result : nat) : list ScoredMove :=
  match n with
  | O => v
  | S n =>
      let result := (result - 1)%nat in
      move_backward n (<[result := v !!! (first + n)%nat]> v) first result
  end.

(** The [for] loop of [__insertion_sort], from [i], [n] times. *)
Fixpoint insertion_sort_loop (n : nat) (v : list ScoredMove) (first i : nat)
    : list ScoredMove :=
  match n with
  | O => v
  | S n =>
      let v :=
        if iter_less_iter v i first then
          let val := v !!! i in
          let v := move_backward (i - first) v first (i + 1) in
          <[first := val]> v
        else unguarded_linear_insert v i in
      insertion_sort_loop n v first (i + 1)
  end.

Definition insertion_sort (v : list ScoredMove) (first last : nat) : list ScoredMove :=
  if (first =? last)%nat then v
  else insertion_sort_loop (last - (first + 1)) v first (first + 1).

Fixpoint unguarded_insertion_sort_loop (n : nat) (v : list ScoredMove) (i : nat)
    : list ScoredMove :=
  match n with
  | O => v
  | S n => unguarded_insertion_sort_loop n (unguarded_linear_insert v i) (i + 1)
  end.

Definition unguarded_insertion_sort (v : list ScoredMove) (first last : nat)
    : list ScoredMove :=
  unguarded_insertion_sort_loop (last - first) v first.

Definition S_threshold : nat := 16.

Definition final_insertion_sort (v : list ScoredMove) (first last : nat) : list ScoredMove :=
  if (S_threshold <? last - first)%nat then
    let v := insertion_sort v first (first + S_threshold) in
    unguarded_insertion_sort v (first + S_threshold) last
  else insertion_sort v first last.

(** [while (__comp(__first, __pivot)) ++__first;] *)
Fixpoint scan_up (fuel : nat) (v : list ScoredMove) (first pivot : nat) : nat :=
  match fuel with
  | O => first
  | S fuel =>
      if iter_less_iter v first pivot then scan_up fuel v (first + 1) pivot else first
  end.

(** [while (__comp(__pivot, __last)) --__last;] *)
Fixpoint scan_down (v : list ScoredMove) (pivot last : nat) : nat :=
  match last with
  | O => last
  | S last' => if iter_less_iter v pivot last then scan_down v pivot last' else last
  end.

Fixpoint unguarded_partition (fuel : nat) (v : list ScoredMove) (first last pivot : nat)
    : list ScoredMove * nat :=
  match fuel with
  | O => (v, first)
  | S fuel =>
      let first := scan_up (length v) v first pivot in
      let last := (last - 1)%nat in
      let last := scan_down v pivot last in
      if negb (first <? last)%nat then (v, first)
      else
        let v := iter_swap v first last in
        unguarded_partition fuel v (first + 1) last pivot
  end.

Definition unguarded_partition_pivot (v : list ScoredMove) (first last : nat)
    : list ScoredMove * nat :=
  let mid := (first + (last - first) / 2)%nat in
  let v := move_median_to_first v first (first + 1) mid (last - 1) in
  unguarded_partition (length v) v (first + 1) last first.

(** [bits/stl_heap.h]; [first] is the start of the heap, the other indices
    are distances from it. *)
Fixpoint push_heap_loop (fuel : nat) (v : list ScoredMove) (first holeIndex topIndex : nat)
    (value : ScoredMove) : list ScoredMove :=
  match fuel with
  | O => <[(first + holeIndex)%nat := value]> v
  | S fuel =>
      let parent := ((holeIndex - 1) / 2)%nat in
      if (topIndex <? holeIndex)%nat && ScoredMove_lt (v !!! (first + parent)%nat) value then
        let v := <[(first + holeIndex)%nat := v !!! (first + parent)%nat]> v in
        push_heap_loop fuel v first parent topIndex value
      else <[(first + holeIndex)%nat := value]> v
  end.

Definition push_heap (v : list ScoredMove) (first holeIndex topIndex : nat)
    (value : ScoredMove) : list ScoredMove :=
  push_heap_loop (S holeIndex) v first holeIndex topIndex value.

(** The first loop of [__adjust_heap]; the result holds the vector,
    [__holeIndex] and [__secondChild]. *)
Fixpoint adjust_heap_loop (fuel : nat) (v : list ScoredMove) (first holeIndex secondChild len : nat)
    : list ScoredMove * nat * nat :=
  match fuel with
  | O => (v, holeIndex, secondChild)
  | S fuel =>
      if (secondChild <? (len - 1) / 2)%nat then
        let secondChild := (2 * (secondChild + 1))%nat in
        let secondChild :=
          if iter_less_iter v (first + secondChild) (first + (secondChild - 1))
          then (secondChild - 1)%nat else secondChild in
        let v := <[(first + holeIndex)%nat := v !!! (first + secondChild)%nat]> v in
        adjust_heap_loop fuel v first secondChild secondChild len
      else (v, holeIndex, secondChild)
  end.

Definition adjust_heap (v : list ScoredMove) (first holeIndex len : nat) (value : ScoredMove)
    : list ScoredMove :=
  let topIndex := holeIndex in
  let secondChild := holeIndex in
  let '(v, holeIndex, secondChild) := adjust_heap_loop len v first holeIndex secondChild len in
  let '(v, holeIndex) :=
    if Nat.even len && (secondChild =? (len - 2) / 2)%nat then
      let secondChild := (2 * (secondChild + 1))%nat in
      let v := <[(first + holeIndex)%nat := v !!! (first + (secondChild - 1))%nat]> v in
      (v, (secondChild - 1)%nat)
    else (v, holeIndex) in
  push_heap v first holeIndex topIndex value.

Definition pop_heap (v : list ScoredMove) (first last result : nat) : list ScoredMove :=
  let value := v !!! result in
  let v := <[result := v !!! first]> v in
  adjust_heap v first 0 (last - first) value.

(** The loop of [__make_heap], from [parent] down to 0. *)
Fixpoint make_heap_loop (v : list ScoredMove) (first len parent : nat) : list ScoredMove :=
  let value := v !!! (first + parent)%nat in
  let v := adjust_heap v first parent len value in
  match parent with
  | O => v
  | S parent => make_heap_loop v first len parent
  end.

Definition make_heap (v : list ScoredMove) (first last : nat) : list ScoredMove :=
  if (last - first <? 2)%nat then v
  else
    let len := (last - first)%nat in
    let parent := ((len - 2) / 2)%nat in
    make_heap_loop v first len parent.

Fixpoint sort_heap_loop (fuel : nat) (v : list ScoredMove) (first last : nat)
    : list ScoredMove :=
  match fuel with
  | O => v
  | S fuel =>
      if (1 <? last - first)%nat then
        let last := (last - 1)%nat in
        sort_heap_loop fuel (pop_heap v first last last) first last
      else v
  end.

Definition sort_heap (v : list ScoredMove) (first last : nat) : list ScoredMove :=
  sort_heap_loop (last - first) v first last.

(** The [for] loop of [__heap_select], from [i], [n] times. *)
Fixpoint heap_select_loop (n : nat) (v : list ScoredMove) (first middle i : nat)
    : list ScoredMove :=
  match n with
  | O => v
  | S n =>
      let v := if iter_less_iter v i first then pop_heap v first middle i else v in
      heap_select_loop n v first middle (i + 1)
  end.

Definition heap_select (v : list ScoredMove) (first middle last : nat) : list ScoredMove :=
  let v := make_heap v first middle in
  heap_select_loop (last - middle) v first middle middle.

Definition partial_sort (v : list ScoredMove) (first middle last : nat) : list ScoredMove :=
  let v := heap_select v first middle last in
  sort_heap v first middle.

(** [__introsort_loop]: every turn of its [while] loop lowers
    [__depth_limit], which the recursion is on. *)
Fixpoint introsort_loop (depth_limit : nat) (v : list ScoredMove) (first last : nat)
    : list ScoredMove :=
  if (S_threshold <? last - first)%nat then
    match depth_limit with
    | O => partial_sort v first last last
    | S depth_limit =>
        let '(v, cut) := unguarded_partition_pivot v first last in
        let v := introsort_loop depth_limit v cut last in
        introsort_loop depth_limit v first cut
    end
  else v.

(** [std::sort(v.begin(), v.end())]. *)
Definition sort (v : list ScoredMove) : list ScoredMove :=
  let first := 0%nat in
  let last := length v in
  if (first =? last)%nat then v
  else
    let v := introsort_loop (Nat.log2 (last - first) * 2) v first last in
    final_insertion_sort v first last.

End libstdcxx.

Definition model0 : GameModel :=
  mkGameModel true PLAYER_BLACK (0%float, 0%float) 0%float emptyBoard.

(** ** Vocabulary of the statements *)

Definition rowMajor_lt (a b : Square) : Prop :=
  y a < y b \/ (y a = y b /\ x a < x b).

#[global] Instance rowMajor_lt_dec : RelDecision rowMajor_lt.
Proof. intros a b. unfold rowMajor_lt. apply _. Defined.

Definition walk (square : Square) (d : Z * Z) (i : nat) : Square :=
  mkSquare (x square + Z.of_nat i * fst d) (y square + Z.of_nat i * snd d).

Definition brackets (model : GameModel) (player : Player) (square : Square) (d : Z * Z) : Prop :=
  exists n : nat, (0 < n)%nat /\
    (forall i, (1 <= i <= n)%nat ->
       isSquareValid (walk square d i) = true /\
       getBoardPiece model (walk square d i) = opponentPieceOf player) /\
    isSquareValid (walk square d (S n)) = true /\
    getBoardPiece model (walk square d (S n)) = pieceOf player.

Definition wf_board (b : Board) : Prop :=
  length b = Z.to_nat BOARD_SIZE /\ Forall (fun row => length row = Z.to_nat BOARD_SIZE) b.

(** The part of a model that a board write leaves alone. *)
Definition sameTurn (m m' : GameModel) : Prop :=
  gameOver m' = gameOver m /\ currentPlayer m' = currentPlayer m /\
  playerTime m' = playerTime m /\ turnTimer m' = turnTimer m.

(** The states of a game: the seeded position, and what [playMove] makes of
    a state and one of its legal moves, at any reading of the clock. *)
Inductive reachable : GameModel -> Prop :=
| reachable_start GetTime model : reachable (startModel GetTime model)
| reachable_play GetTime model move :
    reachable model -> In move (getValidMoves model) ->
    reachable (snd (playMove GetTime model move)).

(** Neither player has a legal move on the board of [model]. *)
Definition noLegalMove (model : GameModel) : Prop :=
  forall player, getValidMoves (set_currentPlayer model player) = [].

(** The number of empty squares of the board, counted cell by cell. *)
Definition emptySquaresOf (model : GameModel) : Z :=
  countSquares (fun square => Piece_eqb (getBoardPiece model square) PIECE_EMPTY).

(** How the value [r] of a fail-soft alpha-beta call on the window
    [(alpha, beta)] relates to the minimax value [v] of its node. *)
Definition failSoft (alpha beta v r : Z) : Prop :=
  (v <= alpha -> v <= r <= alpha) /\
  (alpha < v < beta -> r = v) /\
  (beta <= v -> beta <= r <= v).

(** The loops of [minimax] over the values of the children. *)
Definition maxOver (GetTime : float) (uninit : GameModel) (value : GameModel -> Z)
    (model : GameModel) (validMoves : Moves) (maxEval : Z) : Z :=
  fold_left (fun maxEval m =>
    let eval := value (simulateMove GetTime model m uninit) in
    if maxEval <? eval then eval else maxEval) validMoves maxEval.

Definition minOver (GetTime : float) (uninit : GameModel) (value : GameModel -> Z)
    (model : GameModel) (validMoves : Moves) (minEval : Z) : Z :=
  fold_left (fun minEval m =>
    let eval := value (simulateMove GetTime model m uninit) in
    if eval <? minEval then eval else minEval) validMoves minEval.

(** A sort that meets the contract of [std::sort] on [ScoredMove]s: a
    merge sort. *)
Definition descending (a b : ScoredMove) : Prop := score b <= score a.

#[global] Instance descending_dec : RelDecision descending.
Proof. intros a b. unfold descending. apply _. Defined.

Definition mergeSort (l : list ScoredMove) : list ScoredMove := merge_sort descending l.

(** The key [orderMoves] sorts by: the evaluation of the position the
    move leads to, negated at a minimizing node. *)
Definition orderKey (GetTime : float) (uninit : GameModel) (model : GameModel)
    (aiPlayer : Player) (maximizing : bool) (m : Square) : Z :=
  let s := evaluate uninit (simulateMove GetTime model m uninit) aiPlayer in
  if maximizing then s else - s.

(** Moves with equal keys come out in the order they went in. *)
Definition tiesKeepOrder (key : Square -> Z) (input output : Moves) : Prop :=
  forall i j a b, (i < j)%nat -> input !! i = Some a -> input !! j = Some b ->
    key a = key b ->
    exists i' j', (i' < j')%nat /\ output !! i' = Some a /\ output !! j' = Some b.

Definition start0 : GameModel := startModel 0%float model0.

Definition Square_eqb (a b : Square) : bool := (x a =? x b) && (y a =? y b).

(** The state after the moves of a game, played in turn from [model];
    [None] when one of them is not legal where it is played. *)
Fixpoint playLine (model : GameModel) (moves : list Square) : option GameModel :=
  match moves with
  | [] => Some model
  | m :: moves =>
      if existsb (Square_eqb m) (getValidMoves model)
      then playLine (snd (playMove 0%float model m)) moves
      else None
  end.

(** Eleven moves from the initial position, after which White is to move
    and has 17 legal moves, three of them, (3, 1), (4, 6) and (5, 6), of
    the same score. *)
Definition tieLine : list Square :=
  [mkSquare 4 5; mkSquare 5 3; mkSquare 4 2; mkSquare 5 1; mkSquare 6 3; mkSquare 3 5;
   mkSquare 2 4; mkSquare 6 2; mkSquare 2 5; mkSquare 3 6; mkSquare 6 0].

Definition tiePosition : GameModel :=
  fold_left (fun model m => snd (playMove 0%float model m)) tieLine start0.

(** A position with a white piece in the corner and a black piece beside
    it: Black cannot move, White can, at (2, 0) only. *)
Definition cornerModel (player : Player) : GameModel :=
  let model := set_currentPlayer (set_gameOver (initModel model0) false) player in
  let model := setBoardPiece model (mkSquare 0 0) PIECE_WHITE in
  setBoardPiece model (mkSquare 1 0) PIECE_BLACK.

(** The sentinel of the witnesses. *)
Definition invalidSquare : Square := mkSquare (-1) (-1).

(** The calls of [alphabeta] in flight during a search [depth] plies deep
    are at most [depth + 1]: the call itself and one per ply below it,
    since every nested call is made with [depth - 1]. *)
Definition callsInFlight (depth : nat) : Z := Z.of_nat depth + 1.

(** The store [s'] holds what [s] held at every address below [sp]. *)
Definition agrees (sp : nat) (s s' : Store) : Prop :=
  forall r, (r < sp)%nat -> s' r = s r.

(** A run over the store gives the result and the counter of the run over
    values, and leaves the objects below [sp] as they were. *)
Definition refines {X} (sp : nat) (s : Store) (at_store : X * (Z * Store)) (at_value : X * Z)
    : Prop :=
  fst at_store = fst at_value /\ fst (snd at_store) = snd at_value /\
  agrees sp s (snd (snd at_store)).

(** From [move], direction [d] holds [n] opponent pieces and then a piece
    of [player], all on the board. *)
Definition run (model : GameModel) (player : Player) (move : Square) (d : Z * Z) (n : nat)
    : Prop :=
  (forall i, (1 <= i <= n)%nat ->
     isSquareValid (walk move d i) = true /\
     getBoardPiece model (walk move d i) = opponentPieceOf player) /\
  isSquareValid (walk move d (S n)) = true /\
  getBoardPiece model (walk move d (S n)) = pieceOf player.

(** [square] lies on a run that [player] brackets by playing [move]. *)
Definition captured (model : GameModel) (player : Player) (move square : Square) : Prop :=
  exists d n i, In d directions /\ run model player move d n /\
    (1 <= i <= n)%nat /\ square = walk move d i.

(** The squares [walk move d 1 .. walk move d n]. *)
Definition ray (move : Square) (d : Z * Z) (n : nat) : list Square :=
  map (walk move d) (seq 1 n).

Definition flipList (model : GameModel) (piece : Piece) (toFlip : list Square) : GameModel :=
  fold_left (fun model square => setBoardPiece model square piece) toFlip model.

(** [square] lies on the run that direction [d] holds from [move]. *)
Definition capturedIn (model : GameModel) (player : Player) (move : Square) (d : Z * Z)
    (square : Square) : Prop :=
  exists n i, run model player move d n /\ (1 <= i <= n)%nat /\ square = walk move d i.

(** The cell is as it was, or it held [enemyPiece] and now holds [piece]. *)
Definition flippedOrSame (piece enemyPiece : Piece) (before after : GameModel)
    (square : Square) : Prop :=
  getBoardPiece after square = getBoardPiece before square \/
  (getBoardPiece before square = enemyPiece /\ getBoardPiece after square = piece).

(** A position where Black has two moves, (2, 0) and (0, 2), and the game
    ends after at most two more moves. *)
Definition twoMoves : GameModel :=
  let model := set_gameOver (initModel model0) false in
  let model := setBoardPiece model (mkSquare 0 0) PIECE_BLACK in
  let model := setBoardPiece model (mkSquare 1 0) PIECE_WHITE in
  setBoardPiece model (mkSquare 0 1) PIECE_WHITE.

(** Two objects hold the same game: the fields other than the timers are
    equal. *)
Definition sameGame (a b : GameModel) : Prop :=
  board a = board b /\ currentPlayer a = currentPlayer b /\ gameOver a = gameOver b.

(** The states of a game after [n] legal moves. *)
Inductive reachableIn : nat -> GameModel -> Prop :=
| reachableIn_start GetTime model : reachableIn 0 (startModel GetTime model)
| reachableIn_play n GetTime model move :
    reachableIn n model -> In move (getValidMoves model) ->
    reachableIn (S n) (snd (playMove GetTime model move)).

(** * Theorems *)

Lemma isSquareValid_spec square :
  isSquareValid square = true <-> 0 <= x square < BOARD_SIZE /\ 0 <= y square < BOARD_SIZE.
Proof. unfold isSquareValid. rewrite !andb_true_iff. lia. Qed.

Lemma elem_of_boardSquares square :
  square ∈ boardSquares <-> isSquareValid square = true.
Proof.
  rewrite isSquareValid_spec. unfold boardSquares.
  rewrite list_elem_of_bind. split.
  - intros (y0 & Hin & Hy). apply list_elem_of_bind in Hin as (x0 & Hin & Hx).
    apply list_elem_of_singleton in Hin. subst square. simpl.
    apply elem_of_seqZ in Hx, Hy. lia.
  - intros [Hx Hy]. exists (y square). split.
    + apply list_elem_of_bind. exists (x square). split.
      * destruct square. apply list_elem_of_singleton. reflexivity.
      * apply elem_of_seqZ. lia.
    + apply elem_of_seqZ. lia.
Qed.

Lemma boardSquares_length : length boardSquares = 64%nat.
Proof. reflexivity. Qed.

Lemma boardSquares_sorted : StronglySorted rowMajor_lt boardSquares.
Proof. apply (bool_decide_unpack _). vm_compute. exact I. Qed.

Lemma StronglySorted_filter {A} (R : A -> A -> Prop) (f : A -> bool) l :
  StronglySorted R l -> StronglySorted R (List.filter f l).
Proof.
  induction 1 as [|a l Hl IH Ha]; simpl; [constructor|].
  destruct (f a); [|exact IH].
  constructor; [exact IH|].
  apply List.Forall_forall. intros b Hb. apply filter_In in Hb as [Hb _].
  rewrite List.Forall_forall in Ha. auto.
Qed.

Lemma StronglySorted_NoDup {A} (R : A -> A -> Prop) l :
  (forall a, ~ R a a) -> StronglySorted R l -> List.NoDup l.
Proof.
  intros Hirr. induction 1 as [|a l Hl IH Ha]; constructor; [|exact IH].
  intros Hin. rewrite List.Forall_forall in Ha. exact (Hirr a (Ha a Hin)).
Qed.

Lemma walk_0 square d : walk square d 0 = square.
Proof. destruct square. unfold walk. simpl. f_equal; lia. Qed.

Lemma walk_step square d i : walk (stepSquare square d) d i = walk square d (S i).
Proof. unfold walk, stepSquare. simpl x. simpl y. f_equal; lia. Qed.

Lemma Piece_eqb_eq a b : Piece_eqb a b = true <-> a = b.
Proof. unfold Piece_eqb. apply bool_decide_eq_true. Qed.

Lemma Piece_eqb_neq a b : Piece_eqb a b = false <-> a <> b.
Proof. unfold Piece_eqb. apply bool_decide_eq_false. Qed.

Lemma pieceOf_opponentPieceOf player :
  pieceOf player <> opponentPieceOf player /\
  pieceOf player <> PIECE_EMPTY /\ opponentPieceOf player <> PIECE_EMPTY.
Proof. destruct player; repeat split; discriminate. Qed.

(** What the scan of one direction computes: the cells from [current] on
    are [j] opponent pieces followed by an own piece, all on the board, and
    at least one opponent piece was met. *)
Lemma scanDirection_spec fuel model own opp d current found :
  own <> opp -> own <> PIECE_EMPTY -> opp <> PIECE_EMPTY ->
  scanDirection fuel model own opp d current found = true <->
  exists j : nat, (j < fuel)%nat /\
    (forall i, (i < j)%nat ->
       isSquareValid (walk current d i) = true /\ getBoardPiece model (walk current d i) = opp) /\
    isSquareValid (walk current d j) = true /\ getBoardPiece model (walk current d j) = own /\
    (found = true \/ (0 < j)%nat).
Proof.
  intros Hneq Hown Hopp. revert current found.
  induction fuel as [|fuel IH]; intros current found; simpl.
  - split; [discriminate|]. intros (j & Hj & _). lia.
  - destruct (isSquareValid current) eqn:Hvalid.
    2:{ split; [discriminate|]. intros (j & _ & Hrun & Hv & _).
        destruct j as [|j].
        - rewrite walk_0 in Hv. congruence.
        - destruct (Hrun 0%nat) as [Hv0 _]; [lia|]. rewrite walk_0 in Hv0. congruence. }
    destruct (Piece_eqb (getBoardPiece model current) PIECE_EMPTY) eqn:Hempty.
    { apply Piece_eqb_eq in Hempty. split; [discriminate|].
      intros (j & _ & Hrun & _ & Hp & _). destruct j as [|j].
      - rewrite walk_0 in Hp. congruence.
      - destruct (Hrun 0%nat) as [_ Hp0]; [lia|]. rewrite walk_0 in Hp0. congruence. }
    destruct (Piece_eqb (getBoardPiece model current) opp) eqn:Hisopp.
    { apply Piece_eqb_eq in Hisopp. rewrite IH. split.
      - intros (j & Hj & Hrun & Hv & Hp & _). exists (S j).
        split; [lia|]. split; [|rewrite <- !walk_step; auto with lia].
        intros [|i] Hi; [rewrite walk_0; auto|].
        rewrite <- walk_step. apply Hrun. lia.
      - intros (j & Hj & Hrun & Hv & Hp & _). destruct j as [|j].
        { rewrite walk_0 in Hp. congruence. }
        exists j. split; [lia|]. rewrite !walk_step. split; [|auto].
        intros i Hi. rewrite walk_step. apply Hrun. lia. }
    destruct (Piece_eqb (getBoardPiece model current) own) eqn:Hisown.
    { apply Piece_eqb_eq in Hisown. split.
      - intros ->. exists 0%nat. rewrite walk_0. repeat split; auto with lia.
      - intros (j & _ & Hrun & _ & _ & Hfound). destruct j as [|j].
        + destruct Hfound; [assumption|lia].
        + destruct (Hrun 0%nat) as [_ Hp0]; [lia|]. rewrite walk_0 in Hp0. congruence. }
    exfalso. apply Piece_eqb_neq in Hempty, Hisopp, Hisown.
    destruct (getBoardPiece model current), own, opp; congruence.
Qed.

(** A walk from a square of the board leaves the board within
    [BOARD_SIZE] steps, in each of the eight directions. *)
Lemma walk_leaves_board square d i :
  isSquareValid square = true -> In d directions ->
  isSquareValid (walk square d i) = true -> (i < 8)%nat.
Proof.
  rewrite !isSquareValid_spec. unfold walk, BOARD_SIZE. simpl.
  intros Hs Hd Hw.
  repeat (destruct Hd as [<-|Hd]; [simpl in Hw; lia|]). destruct Hd.
Qed.

(** The scan never runs out of fuel: more fuel than [BOARD_SIZE] changes
    nothing. *)
Lemma scanDirection_fuel fuel model player d square found :
  isSquareValid square = true -> In d directions ->
  (Z.to_nat BOARD_SIZE <= fuel)%nat ->
  scanDirection fuel model (pieceOf player) (opponentPieceOf player) d (stepSquare square d) found
  = scanDirection (Z.to_nat BOARD_SIZE) model (pieceOf player) (opponentPieceOf player) d
      (stepSquare square d) found.
Proof.
  intros Hs Hd Hfuel.
  destruct (pieceOf_opponentPieceOf player) as (H1 & H2 & H3).
  apply eq_true_iff_eq. rewrite !scanDirection_spec by assumption.
  split; intros (j & Hj & Hrun & Hv & Hrest); exists j; (split; [|auto]).
  - rewrite walk_step in Hv. apply walk_leaves_board in Hv; auto.
    change (Z.to_nat BOARD_SIZE) with 8%nat. lia.
  - lia.
Qed.

Lemma isValidMove_spec model square :
  isSquareValid square = true ->
  isValidMove model square = true <->
  getBoardPiece model square = PIECE_EMPTY /\
  exists d, In d directions /\ brackets model (currentPlayer model) square d.
Proof.
  intros Hs. unfold isValidMove.
  destruct (pieceOf_opponentPieceOf (currentPlayer model)) as (H1 & H2 & H3).
  destruct (Piece_eqb (getBoardPiece model square) PIECE_EMPTY) eqn:Hempty; cbn [negb].
  2:{ split; [discriminate|]. intros [He _]. apply Piece_eqb_eq in He. congruence. }
  apply Piece_eqb_eq in Hempty. rewrite existsb_exists.
  split.
  - intros (d & Hd & Hscan). split; [assumption|]. exists d. split; [assumption|].
    apply scanDirection_spec in Hscan as (j & _ & Hrun & Hv & Hp & Hfound); try assumption.
    destruct Hfound as [|Hj]; [discriminate|].
    exists j. rewrite walk_step in Hv, Hp. repeat split; try assumption.
    + destruct i as [|i]; [lia|]. rewrite <- walk_step. apply Hrun. lia.
    + destruct i as [|i]; [lia|]. rewrite <- walk_step. apply Hrun. lia.
  - intros (_ & d & Hd & n & Hn & Hrun & Hv & Hp). exists d. split; [assumption|].
    apply scanDirection_spec; try assumption.
    exists n. rewrite !walk_step. repeat split; try assumption.
    + apply walk_leaves_board in Hv; auto. change (Z.to_nat BOARD_SIZE) with 8%nat. lia.
    + rewrite walk_step. apply Hrun. lia.
    + rewrite walk_step. apply Hrun. lia.
    + right. assumption.
Qed.

Lemma In_getValidMoves model square :
  In square (getValidMoves model) <->
  isSquareValid square = true /\ isValidMove model square = true.
Proof.
  unfold getValidMoves. rewrite filter_In, <- list_elem_of_In, elem_of_boardSquares. tauto.
Qed.

Lemma rowMajor_lt_irrefl a : ~ rowMajor_lt a a.
Proof. unfold rowMajor_lt. lia. Qed.

Lemma getValidMoves_sorted model : StronglySorted rowMajor_lt (getValidMoves model).
Proof. apply StronglySorted_filter, boardSquares_sorted. Qed.

Lemma getValidMoves_NoDup model : List.NoDup (getValidMoves model).
Proof. eapply StronglySorted_NoDup; [apply rowMajor_lt_irrefl|apply getValidMoves_sorted]. Qed.

Lemma playMove_accepts GetTime model square : fst (playMove GetTime model square) = true.
Proof. reflexivity. Qed.

(** C5: [getValidMoves] returns a duplicate-free list in row-major order; each square of it is on the board, empty, and has a direction in which a run of at least one opponent piece is followed by a piece of the mover; and [playMove] accepts it. *)
Theorem getValidMoves_legal model :
  List.NoDup (getValidMoves model) /\
  StronglySorted rowMajor_lt (getValidMoves model) /\
  forall square, In square (getValidMoves model) ->
    isSquareValid square = true /\
    getBoardPiece model square = PIECE_EMPTY /\
    (exists d, In d directions /\ brackets model (currentPlayer model) square d) /\
    forall GetTime, fst (playMove GetTime model square) = true.
Proof.
  split; [apply getValidMoves_NoDup|]. split; [apply getValidMoves_sorted|].
  intros square Hin. apply In_getValidMoves in Hin as [Hs Hvalid].
  apply isValidMove_spec in Hvalid as [Hempty Hdir]; [|assumption].
  repeat split; auto.
Qed.

(** A write followed by a read. *)
Lemma cellAt_setCell b square square' piece :
  cellAt (setCell b square' piece) square = piece \/
  cellAt (setCell b square' piece) square = cellAt b square.
Proof.
  unfold cellAt, setCell.
  destruct (isSquareValid square); [|right; reflexivity].
  destruct (isSquareValid square'); [|right; reflexivity].
  destruct (b !! Z.to_nat (y square')) as [row|] eqn:Hrow; [|right; reflexivity].
  cbv iota beta. rewrite list_lookup_insert. case_decide as Hy.
  - destruct Hy as [Hy _]. rewrite Hy in Hrow. rewrite Hrow. simpl.
    rewrite list_lookup_insert. case_decide; [left|right]; reflexivity.
  - right. reflexivity.
Qed.

Lemma cellAt_setCell_same b square piece :
  wf_board b -> isSquareValid square = true ->
  cellAt (setCell b square piece) square = piece.
Proof.
  intros [Hlen Hrows] Hvalid. unfold cellAt, setCell. rewrite Hvalid.
  apply isSquareValid_spec in Hvalid. unfold BOARD_SIZE in *.
  destruct (b !! Z.to_nat (y square)) as [row|] eqn:Hrow.
  2:{ apply lookup_ge_None in Hrow. lia. }
  cbv iota beta. rewrite list_lookup_insert_eq by (apply lookup_lt_Some in Hrow; lia). simpl.
  rewrite list_lookup_insert_eq; [reflexivity|].
  rewrite Forall_forall in Hrows. rewrite (Hrows row); [lia|].
  eapply list_elem_of_lookup_2; eassumption.
Qed.

Lemma getBoardPiece_setBoardPiece model square square' piece :
  getBoardPiece model square = piece ->
  getBoardPiece (setBoardPiece model square' piece) square = piece.
Proof.
  unfold getBoardPiece, setBoardPiece. simpl. intros H.
  destruct (cellAt_setCell (board model) square square' piece) as [->| ->]; auto.
Qed.

Lemma sameTurn_refl m : sameTurn m m.
Proof. repeat split. Qed.

Lemma sameTurn_trans m1 m2 m3 : sameTurn m1 m2 -> sameTurn m2 m3 -> sameTurn m1 m3.
Proof. unfold sameTurn. intros (?&?&?&?) (?&?&?&?). repeat split; congruence. Qed.

Lemma setBoardPiece_sameTurn model square piece : sameTurn model (setBoardPiece model square piece).
Proof. repeat split. Qed.

Lemma fold_setBoardPiece_sameTurn toFlip model piece :
  sameTurn model (fold_left (fun model square => setBoardPiece model square piece) toFlip model).
Proof.
  revert model. induction toFlip as [|sq toFlip IH]; intros model; simpl.
  - apply sameTurn_refl.
  - eapply sameTurn_trans; [apply (setBoardPiece_sameTurn model sq piece)|apply IH].
Qed.

Lemma fold_setBoardPiece_keeps toFlip model piece square :
  getBoardPiece model square = piece ->
  getBoardPiece (fold_left (fun model square => setBoardPiece model square piece) toFlip model)
    square = piece.
Proof.
  revert model. induction toFlip as [|sq toFlip IH]; intros model H; simpl; [assumption|].
  apply IH, getBoardPiece_setBoardPiece, H.
Qed.

Lemma flipDirection_sameTurn fuel model piece enemyPiece d current toFlip :
  sameTurn model (flipDirection fuel model piece enemyPiece d current toFlip).
Proof.
  revert current toFlip. induction fuel as [|fuel IH]; intros current toFlip; simpl.
  { apply sameTurn_refl. }
  repeat match goal with
         | |- context [if ?c then _ else _] => destruct c
         end;
    auto using sameTurn_refl, fold_setBoardPiece_sameTurn.
Qed.

Lemma flipDirection_keeps fuel model piece enemyPiece d current toFlip square :
  getBoardPiece model square = piece ->
  getBoardPiece (flipDirection fuel model piece enemyPiece d current toFlip) square = piece.
Proof.
  revert current toFlip. induction fuel as [|fuel IH]; intros current toFlip H; simpl.
  { assumption. }
  repeat match goal with
         | |- context [if ?c then _ else _] => destruct c
         end;
    auto using fold_setBoardPiece_keeps.
Qed.

Lemma enemyPiece_eq player :
  (if Piece_eqb (if Player_eqb player PLAYER_WHITE then PIECE_WHITE else PIECE_BLACK) PIECE_WHITE
   then PIECE_BLACK else PIECE_WHITE) = opponentPieceOf player.
Proof. destruct player; reflexivity. Qed.

Lemma playMove_unfold GetTime model move :
  playMove GetTime model move =
  (true, checkGameOver (swapPlayer (updateTimer GetTime
     (flipAll (setBoardPiece model move (pieceOf (currentPlayer model))) move
        (pieceOf (currentPlayer model)) (opponentPieceOf (currentPlayer model)))))).
Proof. unfold playMove, getCurrentPlayer. rewrite enemyPiece_eq. reflexivity. Qed.

Lemma flipAll_sameTurn model move piece enemyPiece :
  sameTurn model (flipAll model move piece enemyPiece).
Proof.
  unfold flipAll. revert model.
  induction playDirections as [|d ds IH]; intros m; cbn [fold_left]; [apply sameTurn_refl|].
  eapply sameTurn_trans; [apply flipDirection_sameTurn|apply IH].
Qed.

Lemma flipAll_keeps model move piece enemyPiece square :
  getBoardPiece model square = piece ->
  getBoardPiece (flipAll model move piece enemyPiece) square = piece.
Proof.
  unfold flipAll. revert model.
  induction playDirections as [|d ds IH]; intros m Hm; cbn [fold_left]; [assumption|].
  apply IH, flipDirection_keeps, Hm.
Qed.

Lemma checkGameOver_board model : board (checkGameOver model) = board model.
Proof.
  unfold checkGameOver. cbv zeta.
  destruct (length (getValidMoves model) =? 0)%nat; [|reflexivity].
  destruct (length (getValidMoves (swapPlayer model)) =? 0)%nat; reflexivity.
Qed.

Lemma playMove_board GetTime model move :
  board (snd (playMove GetTime model move)) =
  board (flipAll (setBoardPiece model move (pieceOf (currentPlayer model))) move
           (pieceOf (currentPlayer model)) (opponentPieceOf (currentPlayer model))).
Proof. rewrite playMove_unfold. cbn [snd]. rewrite checkGameOver_board. reflexivity. Qed.

Lemma playMove_places GetTime model move :
  wf_board (board model) -> isSquareValid move = true ->
  getBoardPiece (snd (playMove GetTime model move)) move = pieceOf (currentPlayer model).
Proof.
  intros Hwf Hvalid.
  unfold getBoardPiece at 1. rewrite playMove_board. apply flipAll_keeps.
  unfold getBoardPiece, setBoardPiece. cbn [board set_board].
  apply cellAt_setCell_same; assumption.
Qed.

(** C2 as the code has it: [playMove] makes no legality test; for every state and every square of the board, legal or not, it returns [true] and the square holds the mover's piece afterwards. *)
Theorem playMove_unchecked GetTime model move :
  wf_board (board model) -> isSquareValid move = true ->
  fst (playMove GetTime model move) = true /\
  getBoardPiece (snd (playMove GetTime model move)) move = pieceOf (currentPlayer model).
Proof.
  intros Hwf Hvalid. split; [reflexivity|]. apply playMove_places; assumption.
Qed.

Lemma wf_board_start GetTime model : wf_board (board (startModel GetTime model)).
Proof. split; [reflexivity|]. cbn. repeat constructor. Qed.

(** C2 (amended) at the initial position and the illegal corner move. *)
Lemma playMove_unchecked_witness :
  let s := startModel 0%float model0 in
  ~ In (mkSquare 0 0) (getValidMoves s) /\
  fst (playMove 1%float s (mkSquare 0 0)) = true /\
  getBoardPiece (snd (playMove 1%float s (mkSquare 0 0))) (mkSquare 0 0) = PIECE_BLACK.
Proof.
  split.
  - vm_compute. intuition discriminate.
  - apply (playMove_unchecked 1%float (startModel 0%float model0) (mkSquare 0 0)).
    + apply wf_board_start.
    + reflexivity.
Defined.

(** C2 fails on the code: at the initial position the corner (0, 0) is not a legal move, yet [playMove] returns [true] and the board is changed. *)
Lemma playMove_accepts_illegal_move :
  let s := startModel 0%float model0 in
  ~ In (mkSquare 0 0) (getValidMoves s) /\
  fst (playMove 1%float s (mkSquare 0 0)) = true /\
  board (snd (playMove 1%float s (mkSquare 0 0))) <> board s.
Proof.
  split; [|split].
  - vm_compute. intuition discriminate.
  - reflexivity.
  - vm_compute. discriminate.
Qed.

Lemma scanDirection_ext fuel m m' own opp d current found :
  board m = board m' ->
  scanDirection fuel m own opp d current found = scanDirection fuel m' own opp d current found.
Proof.
  intros Hb. revert current found.
  induction fuel as [|fuel IH]; intros current found; [reflexivity|].
  cbn [scanDirection]. unfold getBoardPiece. rewrite Hb, IH. reflexivity.
Qed.

Lemma isValidMove_ext m m' square :
  board m = board m' -> currentPlayer m = currentPlayer m' ->
  isValidMove m square = isValidMove m' square.
Proof.
  intros Hb Hp. unfold isValidMove, getBoardPiece. rewrite Hb, Hp.
  destruct (negb _); [reflexivity|].
  induction directions as [|d ds IH]; [reflexivity|].
  cbn [existsb]. rewrite IH. f_equal. apply scanDirection_ext, Hb.
Qed.

(** The legal moves depend on the board and on the player to move only. *)
Lemma getValidMoves_ext m m' :
  board m = board m' -> currentPlayer m = currentPlayer m' ->
  getValidMoves m = getValidMoves m'.
Proof.
  intros Hb Hp. unfold getValidMoves. apply filter_ext. intros square.
  apply isValidMove_ext; assumption.
Qed.

Lemma length_zero_iff {A} (l : list A) : (length l =? 0)%nat = true <-> l = [].
Proof. destruct l; simpl; split; congruence. Qed.

Lemma otherPlayer_involutive player : otherPlayer (otherPlayer player) = player.
Proof. destruct player; reflexivity. Qed.

Lemma otherPlayer_cases player q : q = player \/ q = otherPlayer player.
Proof. destruct player, q; auto. Qed.

(** What the end-of-game test leaves: the flag is raised exactly when
    neither player can move, and otherwise the player to move has a move. *)
Lemma checkGameOver_spec model :
  let r := checkGameOver model in
  board r = board model /\
  (gameOver r = true <-> gameOver model = true \/ noLegalMove r) /\
  (noLegalMove r \/ getValidMoves r <> []).
Proof.
  unfold checkGameOver. cbv zeta.
  destruct (length (getValidMoves model) =? 0)%nat eqn:H1.
  2:{ split; [reflexivity|]. assert (Hne : getValidMoves model <> []).
      { intros He. apply length_zero_iff in He. congruence. }
      split; [|right; exact Hne]. split; [auto|]. intros [H|H]; [exact H|].
      exfalso. apply Hne. rewrite <- (H (currentPlayer model)).
      apply getValidMoves_ext; reflexivity. }
  apply length_zero_iff in H1.
  destruct (length (getValidMoves (swapPlayer model)) =? 0)%nat eqn:H2.
  - apply length_zero_iff in H2.
    assert (Hno : noLegalMove (set_gameOver (swapPlayer model) true)).
    { intros q. destruct (otherPlayer_cases (currentPlayer model) q) as [-> | ->].
      - rewrite <- H1. apply getValidMoves_ext; reflexivity.
      - rewrite <- H2. apply getValidMoves_ext; reflexivity. }
    split; [reflexivity|]. split; [|left; exact Hno]. split; auto.
  - assert (Hne : getValidMoves (swapPlayer model) <> []).
    { intros He. apply length_zero_iff in He. congruence. }
    split; [reflexivity|]. split; [|right; exact Hne]. split; [auto|].
    intros [H|H]; [exact H|]. exfalso. apply Hne.
    rewrite <- (H (currentPlayer (swapPlayer model))).
    apply getValidMoves_ext; reflexivity.
Qed.

Lemma playMove_gameOver_before GetTime model move :
  gameOver (swapPlayer (updateTimer GetTime
     (flipAll (setBoardPiece model move (pieceOf (currentPlayer model))) move
        (pieceOf (currentPlayer model)) (opponentPieceOf (currentPlayer model)))))
  = gameOver model.
Proof.
  cbn [swapPlayer updateTimer gameOver set_currentPlayer set_turnTimer set_playerTime].
  apply (sameTurn_trans _ _ _ (setBoardPiece_sameTurn model move _) (flipAll_sameTurn _ move _ _)).
Qed.

Lemma In_not_nil {A} (a : A) l : In a l -> l <> [].
Proof. destruct l; [intros []|discriminate]. Qed.

Lemma set_currentPlayer_same model :
  getValidMoves (set_currentPlayer model (currentPlayer model)) = getValidMoves model.
Proof. apply getValidMoves_ext; reflexivity. Qed.

(** Every state of a game satisfies both: the flag tells that nobody can
    move, and while it is down the player to move has a move. *)
Lemma reachable_invariant model :
  reachable model ->
  (gameOver model = true <-> noLegalMove model) /\
  (noLegalMove model \/ getValidMoves model <> []).
Proof.
  induction 1 as [GetTime model|GetTime model move Hreach [IH1 IH2] Hin].
  - assert (Hm : getValidMoves (startModel GetTime model) <> []).
    { vm_compute. discriminate. }
    split; [|right; exact Hm]. split; [discriminate|].
    intros Hno. exfalso. apply Hm. rewrite <- (Hno PLAYER_BLACK). reflexivity.
  - assert (Hgo : gameOver model = false).
    { destruct (gameOver model); [|reflexivity]. exfalso.
      destruct IH1 as [IH1 _]. specialize (IH1 eq_refl (currentPlayer model)).
      rewrite set_currentPlayer_same in IH1. rewrite IH1 in Hin. destruct Hin. }
    rewrite playMove_unfold. cbn [snd].
    match goal with |- context [checkGameOver ?m] =>
      destruct (checkGameOver_spec m) as (_ & Hflag & Hmove);
      pose proof (playMove_gameOver_before GetTime model move) as Hbefore
    end.
    cbv zeta in Hflag, Hmove. split; [|exact Hmove].
    rewrite Hflag, Hbefore, Hgo. split; [intros [?|?]; [discriminate|assumption]|auto].
Qed.

(** C8: in every state reached from the seeded position by legal moves, the terminal flag is set exactly when neither player has a legal move on the board. *)
Theorem gameOver_iff_noLegalMove model :
  reachable model -> (gameOver model = true <-> noLegalMove model).
Proof. intros H. apply reachable_invariant, H. Qed.

Lemma count_fold (test : Square -> bool) l a :
  fold_left (fun count square => if test square then count + 1 else count) l a
  = a + Z.of_nat (length (List.filter test l)).
Proof.
  revert a. induction l as [|sq l IH]; intros a; simpl; [lia|].
  rewrite IH. destruct (test sq); simpl; lia.
Qed.

Lemma countSquares_filter test :
  countSquares test = Z.of_nat (length (List.filter test boardSquares)).
Proof. unfold countSquares. rewrite count_fold. lia. Qed.

Lemma filter_negb_length {A} (f : A -> bool) l :
  (length (List.filter f l) + length (List.filter (fun a => negb (f a)) l) = length l)%nat.
Proof. induction l as [|a l IH]; simpl; [reflexivity|]. destruct (f a); simpl; lia. Qed.

Lemma countSquares_range test : 0 <= countSquares test <= 64.
Proof.
  rewrite countSquares_filter.
  pose proof (filter_negb_length test boardSquares) as H.
  rewrite boardSquares_length in H. lia.
Qed.

Lemma totalPieces_emptySquares model : totalPiecesOf model + emptySquaresOf model = 64.
Proof.
  unfold totalPiecesOf, emptySquaresOf. rewrite !countSquares_filter.
  pose proof (filter_negb_length
    (fun square => Piece_eqb (getBoardPiece model square) PIECE_EMPTY) boardSquares) as H.
  rewrite boardSquares_length in H. lia.
Qed.

Lemma totalPiecesOf_range model : 0 <= totalPiecesOf model <= 64.
Proof. apply countSquares_range. Qed.

(** C7: the parity term of [evaluate] is 0 when fewer than 50 pieces are on the board or the number of empty squares is even; with at least 50 pieces and an odd number of empty squares it is 10 when the player to move is the perspective player and -10 otherwise. *)
Theorem parityValue_spec model player :
  (totalPiecesOf model < 50 \/ Z.even (emptySquaresOf model) = true ->
   parityValue model player = 0) /\
  (50 <= totalPiecesOf model -> Z.odd (emptySquaresOf model) = true ->
   parityValue model player = if Player_eqb (currentPlayer model) player then 10 else -10).
Proof.
  pose proof (totalPieces_emptySquares model) as Hsum.
  pose proof (totalPiecesOf_range model) as Hrange.
  unfold parityValue. cbv zeta.
  replace (64 - totalPiecesOf model) with (emptySquaresOf model) by lia.
  assert (He : 0 <= emptySquaresOf model) by lia.
  assert (Hrem : (Z.rem (emptySquaresOf model) 2 =? 1) = Z.odd (emptySquaresOf model)).
  { rewrite Z.rem_mod_nonneg by lia. rewrite Zodd_mod. reflexivity. }
  rewrite Hrem. split.
  - intros [Hlt|Heven].
    + destruct (50 <=? totalPiecesOf model) eqn:H; [lia|reflexivity].
    + rewrite <- Z.negb_even, Heven. destruct (50 <=? _); reflexivity.
  - intros Hge Hodd. rewrite Hodd. destruct (50 <=? totalPiecesOf model) eqn:H; [reflexivity|lia].
Qed.

Section SearchFacts.

Variable GetTime : float.
Variable uninit : GameModel.
Variable evaluate_fn : GameModel -> Player -> Z.
Variable MAX_NODES_of : Z.
Variable reorder : GameModel -> Moves -> Player -> bool -> Moves.

Local Abbreviation ab := (alphabeta_with GetTime uninit evaluate_fn MAX_NODES_of reorder).
Local Abbreviation mm := (minimax_with GetTime uninit evaluate_fn).

Lemma alphabeta_with_budget depth model alpha beta maximizingPlayer aiPlayer nodesExplored :
  MAX_NODES_of <= nodesExplored + 1 ->
  ab depth model alpha beta maximizingPlayer aiPlayer nodesExplored
  = (evaluate_fn model aiPlayer, nodesExplored + 1).
Proof.
  intros H. destruct depth; cbn [alphabeta_with];
    destruct (Z.leb_spec MAX_NODES_of (nodesExplored + 1)); (reflexivity || lia).
Qed.

Lemma alphabeta_with_pass depth model alpha beta maximizingPlayer aiPlayer nodesExplored :
  nodesExplored + 1 < MAX_NODES_of -> gameOver model = false -> getValidMoves model = [] ->
  ab (S depth) model alpha beta maximizingPlayer aiPlayer nodesExplored =
  if (length (getValidMoves (passModel uninit model)) =? 0)%nat
  then (evaluate_fn (set_gameOver (passModel uninit model) true) aiPlayer, nodesExplored + 1)
  else ab depth (passModel uninit model) alpha beta (negb maximizingPlayer) aiPlayer
         (nodesExplored + 1).
Proof.
  intros Hn Hgo Hmoves. cbn [alphabeta_with].
  destruct (Z.leb_spec MAX_NODES_of (nodesExplored + 1)); [lia|].
  rewrite Hgo, Hmoves. reflexivity.
Qed.

Section Loops.

Variable child : GameModel -> Z -> Z -> Z -> Z * Z.
Hypothesis child_counts : forall newModel alpha beta n, n + 1 <= snd (child newModel alpha beta n).

Lemma maxLoop_counts model validMoves alpha beta maxEval n :
  n <= snd (maxLoop GetTime uninit child model validMoves alpha beta maxEval n).
Proof using child_counts.
  revert alpha maxEval n. induction validMoves as [|m l IH]; intros alpha maxEval n;
    cbn [maxLoop]; [simpl; lia|].
  pose proof (child_counts (simulateMove GetTime model m uninit) alpha beta n) as Hc.
  destruct (child _ alpha beta n) as [eval n1]. cbn [snd] in Hc.
  destruct (beta <=? _); [simpl; lia|].
  etransitivity; [|apply IH]. lia.
Qed.

Lemma minLoop_counts model validMoves alpha beta minEval n :
  n <= snd (minLoop GetTime uninit child model validMoves alpha beta minEval n).
Proof using child_counts.
  revert beta minEval n. induction validMoves as [|m l IH]; intros beta minEval n;
    cbn [minLoop]; [simpl; lia|].
  pose proof (child_counts (simulateMove GetTime model m uninit) alpha beta n) as Hc.
  destruct (child _ alpha beta n) as [eval n1]. cbn [snd] in Hc.
  destruct (_ <=? alpha); [simpl; lia|].
  etransitivity; [|apply IH]. lia.
Qed.

(** Once a child call costs at most one node beyond [bound], so does each
    later one: the loop ends at most [length validMoves] beyond it. *)
Hypothesis bound : Z.
Hypothesis child_bounded :
  forall newModel alpha beta n, snd (child newModel alpha beta n) <= Z.max (n + 1) bound.

Lemma maxLoop_bounded model validMoves alpha beta maxEval n :
  snd (maxLoop GetTime uninit child model validMoves alpha beta maxEval n)
  <= Z.max n bound + Z.of_nat (length validMoves).
Proof using child_bounded.
  revert alpha maxEval n. induction validMoves as [|m l IH]; intros alpha maxEval n;
    cbn [maxLoop length]; [simpl; lia|].
  pose proof (child_bounded (simulateMove GetTime model m uninit) alpha beta n) as Hc.
  destruct (child _ alpha beta n) as [eval n1]. cbn [snd] in Hc.
  destruct (beta <=? _); [simpl; lia|].
  etransitivity; [apply IH|]. lia.
Qed.

Lemma minLoop_bounded model validMoves alpha beta minEval n :
  snd (minLoop GetTime uninit child model validMoves alpha beta minEval n)
  <= Z.max n bound + Z.of_nat (length validMoves).
Proof using child_bounded.
  revert beta minEval n. induction validMoves as [|m l IH]; intros beta minEval n;
    cbn [minLoop length]; [simpl; lia|].
  pose proof (child_bounded (simulateMove GetTime model m uninit) alpha beta n) as Hc.
  destruct (child _ alpha beta n) as [eval n1]. cbn [snd] in Hc.
  destruct (_ <=? alpha); [simpl; lia|].
  etransitivity; [apply IH|]. lia.
Qed.

End Loops.

(** Every call counts itself. *)
Lemma alphabeta_with_counts depth model alpha beta maximizingPlayer aiPlayer nodesExplored :
  nodesExplored + 1 <=
  snd (ab depth model alpha beta maximizingPlayer aiPlayer nodesExplored).
Proof.
  revert model alpha beta maximizingPlayer nodesExplored.
  induction depth as [|depth IH]; intros model alpha beta mx n; cbn [alphabeta_with];
    destruct (MAX_NODES_of <=? n + 1); try (simpl; lia).
  destruct (gameOver model); [simpl; lia|].
  destruct (length (getValidMoves model) =? 0)%nat.
  - destruct (length (getValidMoves (passModel uninit model)) =? 0)%nat; [simpl; lia|].
    etransitivity; [|apply IH]. lia.
  - destruct mx.
    + apply maxLoop_counts. intros. apply IH.
    + apply minLoop_counts. intros. apply IH.
Qed.

Lemma getValidMoves_length model : (length (getValidMoves model) <= 64)%nat.
Proof.
  unfold getValidMoves. rewrite <- boardSquares_length. apply filter_length_le.
Qed.

Hypothesis reorder_length :
  forall model validMoves aiPlayer maximizingPlayer,
    length (reorder model validMoves aiPlayer maximizingPlayer) = length validMoves.

(** The counter ends at most [64] per level of the search beyond the
    budget. *)
Lemma alphabeta_with_bounded depth model alpha beta maximizingPlayer aiPlayer nodesExplored :
  snd (ab depth model alpha beta maximizingPlayer aiPlayer nodesExplored)
  <= Z.max (nodesExplored + 1) (MAX_NODES_of + 64 * Z.of_nat depth).
Proof using reorder_length.
  revert model alpha beta maximizingPlayer nodesExplored.
  induction depth as [|depth IH]; intros model alpha beta mx n; cbn [alphabeta_with];
    destruct (Z.leb_spec MAX_NODES_of (n + 1)); try (simpl; lia).
  destruct (gameOver model); [simpl; lia|].
  destruct (length (getValidMoves model) =? 0)%nat.
  - destruct (length (getValidMoves (passModel uninit model)) =? 0)%nat; [simpl; lia|].
    etransitivity; [apply IH|]. lia.
  - pose proof (getValidMoves_length model) as Hlen.
    pose proof (reorder_length model (getValidMoves model) aiPlayer mx) as Hre.
    destruct mx.
    + etransitivity; [apply (maxLoop_bounded _ (MAX_NODES_of + 64 * Z.of_nat depth))|].
      * intros. apply IH.
      * lia.
    + etransitivity; [apply (minLoop_bounded _ (MAX_NODES_of + 64 * Z.of_nat depth))|].
      * intros. apply IH.
      * lia.
Qed.

End SearchFacts.

Lemma failSoft_full_window v r :
  INT_MIN <= v <= INT_MAX -> failSoft INT_MIN INT_MAX v r -> r = v.
Proof. unfold failSoft. lia. Qed.

Lemma failSoft_refl alpha beta v : alpha < beta -> failSoft alpha beta v v.
Proof. unfold failSoft. lia. Qed.

(** A left fold is invariant under permutation when its steps commute. *)
Lemma fold_left_permutation {A B} (f : A -> B -> A) l l' a :
  (forall a x y, f (f a x) y = f (f a y) x) ->
  Permutation l l' -> fold_left f l a = fold_left f l' a.
Proof.
  intros Hcomm Hperm. revert a.
  induction Hperm as [|x l l' _ IH|x y l|l1 l2 l3 _ IH1 _ IH2]; intros a; simpl.
  - reflexivity.
  - apply IH.
  - rewrite Hcomm. reflexivity.
  - rewrite IH1. apply IH2.
Qed.

Lemma ltb_max a b : (if a <? b then b else a) = Z.max a b.
Proof. destruct (Z.ltb_spec a b); lia. Qed.

Lemma ltb_min a b : (if b <? a then b else a) = Z.min a b.
Proof. destruct (Z.ltb_spec b a); lia. Qed.

Section Soundness.

Variable GetTime : float.
Variable uninit : GameModel.
Variable evaluate_fn : GameModel -> Player -> Z.
Variable MAX_NODES_of : Z.
Variable reorder : GameModel -> Moves -> Player -> bool -> Moves.

Hypothesis evaluate_fn_range :
  forall model player, INT_MIN <= evaluate_fn model player <= INT_MAX.
Hypothesis reorder_permutation :
  forall model validMoves aiPlayer maximizingPlayer,
    Permutation (reorder model validMoves aiPlayer maximizingPlayer) validMoves.

Local Abbreviation ab := (alphabeta_with GetTime uninit evaluate_fn MAX_NODES_of reorder).
Local Abbreviation mm := (minimax_with GetTime uninit evaluate_fn).

Lemma fold_max_range (value : Square -> Z) l a :
  INT_MIN <= a <= INT_MAX -> (forall m, INT_MIN <= value m <= INT_MAX) ->
  INT_MIN <= fold_left (fun maxEval m => if maxEval <? value m then value m else maxEval) l a
  <= INT_MAX.
Proof.
  intros Ha Hv. revert a Ha. induction l as [|m l IH]; intros a Ha; simpl; [exact Ha|].
  apply IH. specialize (Hv m). destruct (a <? value m); lia.
Qed.

Lemma fold_min_range (value : Square -> Z) l a :
  INT_MIN <= a <= INT_MAX -> (forall m, INT_MIN <= value m <= INT_MAX) ->
  INT_MIN <= fold_left (fun minEval m => if value m <? minEval then value m else minEval) l a
  <= INT_MAX.
Proof.
  intros Ha Hv. revert a Ha. induction l as [|m l IH]; intros a Ha; simpl; [exact Ha|].
  apply IH. specialize (Hv m). destruct (value m <? a); lia.
Qed.

Lemma minimax_with_range depth model maximizingPlayer aiPlayer :
  INT_MIN <= mm depth model maximizingPlayer aiPlayer <= INT_MAX.
Proof using evaluate_fn_range.
  revert model maximizingPlayer.
  induction depth as [|depth IH]; intros model mx; cbn [minimax_with]; [apply evaluate_fn_range|].
  destruct (gameOver model); [apply evaluate_fn_range|].
  destruct (length (getValidMoves model) =? 0)%nat.
  - destruct (length (getValidMoves (passModel uninit model)) =? 0)%nat;
      [apply evaluate_fn_range|apply IH].
  - destruct mx.
    + apply (fold_max_range (fun m => mm depth (simulateMove GetTime model m uninit) false aiPlayer));
        [unfold INT_MIN, INT_MAX; lia|intros; apply IH].
    + apply (fold_min_range (fun m => mm depth (simulateMove GetTime model m uninit) true aiPlayer));
        [unfold INT_MIN, INT_MAX; lia|intros; apply IH].
Qed.

Section Loops.

(** [child] is the recursive call of a node's loop and [value] the minimax
    value of the position it is called on. *)
Variable child : GameModel -> Z -> Z -> Z -> Z * Z.
Variable value : GameModel -> Z.
Variable model : GameModel.

Hypothesis child_counts : forall newModel alpha beta n, n + 1 <= snd (child newModel alpha beta n).
Hypothesis child_sound :
  forall newModel alpha beta n,
    INT_MIN <= alpha -> alpha < beta -> beta <= INT_MAX ->
    snd (child newModel alpha beta n) < MAX_NODES_of ->
    failSoft alpha beta (value newModel) (fst (child newModel alpha beta n)).

Local Abbreviation maxOf := (maxOver GetTime uninit value model).
Local Abbreviation minOf := (minOver GetTime uninit value model).

Lemma maxOver_cons m l a :
  maxOf (m :: l) a = maxOf l (Z.max a (value (simulateMove GetTime model m uninit))).
Proof.
  unfold maxOver. cbn [fold_left]. cbv zeta. f_equal.
  destruct (Z.ltb_spec a (value (simulateMove GetTime model m uninit))); lia.
Qed.

Lemma minOver_cons m l a :
  minOf (m :: l) a = minOf l (Z.min a (value (simulateMove GetTime model m uninit))).
Proof.
  unfold minOver. cbn [fold_left]. cbv zeta. f_equal.
  destruct (Z.ltb_spec (value (simulateMove GetTime model m uninit)) a); lia.
Qed.

Lemma maxOver_acc l a b : b <= a -> maxOf l a = Z.max a (maxOf l b) /\ b <= maxOf l b.
Proof.
  revert a b. induction l as [|m l IH]; intros a b Hle.
  { unfold maxOver. simpl. lia. }
  rewrite !maxOver_cons.
  set (v := value (simulateMove GetTime model m uninit)).
  destruct (IH (Z.max a v) (Z.max b v)) as [-> Hge]; lia.
Qed.

Lemma minOver_acc l a b : a <= b -> minOf l a = Z.min a (minOf l b) /\ minOf l b <= b.
Proof.
  revert a b. induction l as [|m l IH]; intros a b Hle.
  { unfold minOver. simpl. lia. }
  rewrite !minOver_cons.
  set (v := value (simulateMove GetTime model m uninit)).
  destruct (IH (Z.min a v) (Z.min b v)) as [-> Hge]; lia.
Qed.

Lemma maxLoop_sound validMoves alpha beta maxEval n :
  INT_MIN <= alpha -> alpha < beta -> beta <= INT_MAX -> maxEval <= alpha ->
  snd (maxLoop GetTime uninit child model validMoves alpha beta maxEval n) < MAX_NODES_of ->
  failSoft alpha beta (maxOf validMoves maxEval)
    (fst (maxLoop GetTime uninit child model validMoves alpha beta maxEval n)).
Proof using child_counts child_sound.
  revert alpha maxEval n.
  induction validMoves as [|m l IH]; intros alpha maxEval n Hmin Hlt Hmax Hle Hbudget.
  { cbn [maxLoop fst]. unfold maxOver, failSoft. simpl. lia. }
  rewrite maxOver_cons. cbn [maxLoop] in *. cbv zeta in *.
  set (newModel := simulateMove GetTime model m uninit) in *.
  pose proof (child_counts newModel alpha beta n) as Hcount.
  pose proof (child_sound newModel alpha beta n Hmin Hlt Hmax) as Hchild.
  destruct (child newModel alpha beta n) as [eval n1]. cbn [fst snd] in *.
  set (v := value newModel) in *.
  replace (if maxEval <? eval then eval else maxEval) with (Z.max maxEval eval) in *
    by (destruct (Z.ltb_spec maxEval eval); lia).
  replace (if alpha <? eval then eval else alpha) with (Z.max alpha eval) in *
    by (destruct (Z.ltb_spec alpha eval); lia).
  destruct (maxOver_acc l (Z.max maxEval v) maxEval ltac:(lia)) as [-> Hge].
  destruct (Z.leb_spec beta (Z.max alpha eval)) as [Hcut|Hgo].
  - cbn [fst snd] in *. specialize (Hchild Hbudget). unfold failSoft in *. lia.
  - pose proof (maxLoop_counts GetTime uninit child child_counts model l
                  (Z.max alpha eval) beta (Z.max maxEval eval) n1) as Hmono.
    specialize (Hchild ltac:(lia)).
    specialize (IH (Z.max alpha eval) (Z.max maxEval eval) n1
                  ltac:(lia) ltac:(lia) ltac:(lia) ltac:(lia) Hbudget).
    destruct (maxOver_acc l (Z.max maxEval eval) maxEval ltac:(lia)) as [Heq _].
    rewrite Heq in IH. unfold failSoft in *. lia.
Qed.

Lemma minLoop_sound validMoves alpha beta minEval n :
  INT_MIN <= alpha -> alpha < beta -> beta <= INT_MAX -> beta <= minEval ->
  snd (minLoop GetTime uninit child model validMoves alpha beta minEval n) < MAX_NODES_of ->
  failSoft alpha beta (minOf validMoves minEval)
    (fst (minLoop GetTime uninit child model validMoves alpha beta minEval n)).
Proof using child_counts child_sound.
  revert beta minEval n.
  induction validMoves as [|m l IH]; intros beta minEval n Hmin Hlt Hmax Hle Hbudget.
  { cbn [minLoop fst]. unfold minOver, failSoft. simpl. lia. }
  rewrite minOver_cons. cbn [minLoop] in *. cbv zeta in *.
  set (newModel := simulateMove GetTime model m uninit) in *.
  pose proof (child_counts newModel alpha beta n) as Hcount.
  pose proof (child_sound newModel alpha beta n Hmin Hlt Hmax) as Hchild.
  destruct (child newModel alpha beta n) as [eval n1]. cbn [fst snd] in *.
  set (v := value newModel) in *.
  replace (if eval <? minEval then eval else minEval) with (Z.min minEval eval) in *
    by (destruct (Z.ltb_spec eval minEval); lia).
  replace (if eval <? beta then eval else beta) with (Z.min beta eval) in *
    by (destruct (Z.ltb_spec eval beta); lia).
  destruct (minOver_acc l (Z.min minEval v) minEval ltac:(lia)) as [-> Hge].
  destruct (Z.leb_spec (Z.min beta eval) alpha) as [Hcut|Hgo].
  - cbn [fst snd] in *. specialize (Hchild Hbudget). unfold failSoft in *. lia.
  - pose proof (minLoop_counts GetTime uninit child child_counts model l
                  alpha (Z.min beta eval) (Z.min minEval eval) n1) as Hmono.
    specialize (Hchild ltac:(lia)).
    specialize (IH (Z.min beta eval) (Z.min minEval eval) n1
                  ltac:(lia) ltac:(lia) ltac:(lia) ltac:(lia) Hbudget).
    destruct (minOver_acc l (Z.min minEval eval) minEval ltac:(lia)) as [Heq _].
    rewrite Heq in IH. unfold failSoft in *. lia.
Qed.

Lemma maxOver_permutation l l' a : Permutation l l' -> maxOf l a = maxOf l' a.
Proof.
  apply fold_left_permutation. intros b m1 m2. cbv zeta.
  rewrite !ltb_max. lia.
Qed.

Lemma minOver_permutation l l' a : Permutation l l' -> minOf l a = minOf l' a.
Proof.
  apply fold_left_permutation. intros b m1 m2. cbv zeta.
  rewrite !ltb_min. lia.
Qed.

End Loops.

(** Alpha-beta on a window [(alpha, beta)] of machine integers, while the
    node budget is not reached, is fail-soft around the minimax value. *)
Lemma alphabeta_with_failSoft depth model alpha beta maximizingPlayer aiPlayer nodesExplored :
  INT_MIN <= alpha -> alpha < beta -> beta <= INT_MAX ->
  snd (ab depth model alpha beta maximizingPlayer aiPlayer nodesExplored) < MAX_NODES_of ->
  failSoft alpha beta (mm depth model maximizingPlayer aiPlayer)
    (fst (ab depth model alpha beta maximizingPlayer aiPlayer nodesExplored)).
Proof using reorder_permutation.
  revert model alpha beta maximizingPlayer nodesExplored.
  induction depth as [|depth IH]; intros model alpha beta mx n Hmin Hlt Hmax;
    cbn [alphabeta_with minimax_with];
    destruct (Z.leb_spec MAX_NODES_of (n + 1)); cbn [fst snd]; try lia;
    try (intros _; apply failSoft_refl; assumption).
  destruct (gameOver model); [intros _; apply failSoft_refl; assumption|].
  destruct (length (getValidMoves model) =? 0)%nat.
  { destruct (length (getValidMoves (passModel uninit model)) =? 0)%nat;
      [intros _; apply failSoft_refl; assumption|].
    apply IH; assumption. }
  pose proof (alphabeta_with_counts GetTime uninit evaluate_fn MAX_NODES_of reorder depth) as Hcounts.
  destruct mx; intros Hbudget.
  - pose proof (maxOver_permutation (fun newModel => mm depth newModel false aiPlayer) model
                 _ _ INT_MIN (reorder_permutation model (getValidMoves model) aiPlayer true))
      as Hperm.
    unfold maxOver in Hperm. rewrite <- Hperm.
    apply (maxLoop_sound
             (fun newModel alpha beta nodesExplored =>
                ab depth newModel alpha beta false aiPlayer nodesExplored)
             (fun newModel => mm depth newModel false aiPlayer)); auto.
  - pose proof (minOver_permutation (fun newModel => mm depth newModel true aiPlayer) model
                 _ _ INT_MAX (reorder_permutation model (getValidMoves model) aiPlayer false))
      as Hperm.
    unfold minOver in Hperm. rewrite <- Hperm.
    apply (minLoop_sound
             (fun newModel alpha beta nodesExplored =>
                ab depth newModel alpha beta true aiPlayer nodesExplored)
             (fun newModel => mm depth newModel true aiPlayer)); auto.
Qed.

(** With the full window the value is the minimax value. *)
Lemma alphabeta_with_minimax depth model maximizingPlayer aiPlayer nodesExplored :
  snd (ab depth model INT_MIN INT_MAX maximizingPlayer aiPlayer nodesExplored) < MAX_NODES_of ->
  fst (ab depth model INT_MIN INT_MAX maximizingPlayer aiPlayer nodesExplored)
  = mm depth model maximizingPlayer aiPlayer.
Proof using reorder_permutation evaluate_fn_range.
  intros Hbudget. apply failSoft_full_window; [apply minimax_with_range|].
  apply alphabeta_with_failSoft; [unfold INT_MIN; lia|unfold INT_MIN, INT_MAX; lia|lia|assumption].
Qed.

End Soundness.

Lemma sum_fold_bound (term : Square -> Z) (c : Z) l a :
  List.Forall (fun square => - c <= term square <= c) l ->
  a - c * Z.of_nat (length l) <= fold_left (fun acc square => acc + term square) l a
  <= a + c * Z.of_nat (length l).
Proof.
  intros H. revert a. induction H as [|sq l Hsq _ IH]; intros a; simpl fold_left; simpl length.
  - lia.
  - specialize (IH (a + term sq)). lia.
Qed.

Lemma sumSquares_bound (term : Square -> Z) (c : Z) :
  List.Forall (fun square => - c <= term square <= c) boardSquares ->
  - (64 * c) <= sumSquares term <= 64 * c.
Proof.
  intros H. pose proof (sum_fold_bound term c boardSquares 0 H) as Hb.
  rewrite boardSquares_length in Hb. unfold sumSquares. lia.
Qed.

Lemma weightAt_bound : List.Forall (fun square => -100 <= weightAt square <= 100) boardSquares.
Proof. apply (bool_decide_unpack _). vm_compute. exact I. Qed.

Lemma positionalValue_bound model player : -6400 <= positionalValue model player <= 6400.
Proof.
  unfold positionalValue. cbv zeta.
  match goal with |- _ <= sumSquares ?f <= _ => pose proof (sumSquares_bound f 100) as H end.
  apply H. clear H. eapply List.Forall_impl; [|apply weightAt_bound].
  intros sq Hw. cbv beta in *.
  destruct (Piece_eqb _ _); [lia|]. destruct (Piece_eqb _ _); lia.
Qed.

Lemma stabilityValue_bound model player : -320 <= stabilityValue model player <= 320.
Proof.
  unfold stabilityValue. cbv zeta.
  match goal with |- _ <= sumSquares ?f <= _ => pose proof (sumSquares_bound f 5) as H end.
  apply H. clear H. apply List.Forall_forall. intros sq _.
  destruct (_ || _); [|lia].
  destruct (Piece_eqb _ _); [lia|]. destruct (Piece_eqb _ _); lia.
Qed.

Lemma getScore_range model player : 0 <= getScore model player <= 64.
Proof. apply countSquares_range. Qed.

Section EvaluateRange.

Variable uninit : GameModel.

Lemma mobilityValue_bound model player : -262 <= mobilityValue uninit model player <= 262.
Proof.
  unfold mobilityValue, mobilityOf. cbv zeta.
  pose proof (getValidMoves_length (tempModelFor uninit model player)) as H1.
  pose proof (getValidMoves_length (tempModelFor uninit model (otherPlayer player))) as H2.
  destruct (_ <? 50); [|lia].
  destruct (_ && _); destruct (_ <? _)%nat; lia.
Qed.

Lemma parityValue_bound model player : -10 <= parityValue model player <= 10.
Proof.
  unfold parityValue. cbv zeta.
  destruct (50 <=? _); [|lia]. destruct (_ =? 1); [|lia]. destruct (Player_eqb _ _); lia.
Qed.

Lemma pieceValue_bound model player : -320 <= pieceValue model player <= 320.
Proof.
  unfold pieceValue. cbv zeta.
  pose proof (getScore_range model player) as H1.
  pose proof (getScore_range model (otherPlayer player)) as H2.
  destruct (50 <=? _); [lia|]. destruct (40 <=? _); [lia|].
  set (d := getScore model player - getScore model (otherPlayer player)) in *.
  assert (-64 <= d <= 64) by lia.
  pose proof (Z.quot_le_mono d 64 2 ltac:(lia) ltac:(lia)) as Hq1.
  pose proof (Z.quot_le_mono (-64) d 2 ltac:(lia) ltac:(lia)) as Hq2.
  change (64 ÷ 2) with 32 in Hq1. change (-64 ÷ 2) with (-32) in Hq2. lia.
Qed.

(** The evaluation of the final engine stays within a few thousand. *)
Lemma evaluate_bound model player : -7312 <= evaluate uninit model player <= 7312.
Proof.
  unfold evaluate.
  pose proof (positionalValue_bound model player).
  pose proof (mobilityValue_bound model player).
  pose proof (stabilityValue_bound model player).
  pose proof (parityValue_bound model player).
  pose proof (pieceValue_bound model player).
  lia.
Qed.

Lemma evaluate_range model player : INT_MIN <= evaluate uninit model player <= INT_MAX.
Proof. pose proof (evaluate_bound model player). unfold INT_MIN, INT_MAX. lia. Qed.

End EvaluateRange.

#[global] Instance descending_total : Total descending.
Proof. intros a b. unfold descending. lia. Qed.

#[global] Instance descending_trans : Transitive descending.
Proof. intros a b c. unfold descending. lia. Qed.

Lemma ScoredMove_lt_false a b : ScoredMove_lt b a = false <-> descending a b.
Proof. unfold ScoredMove_lt, descending. rewrite Z.ltb_ge. reflexivity. Qed.

Lemma StronglySorted_impl {A} (R1 R2 : A -> A -> Prop) l :
  (forall a b, R1 a b -> R2 a b) -> StronglySorted R1 l -> StronglySorted R2 l.
Proof.
  intros H. induction 1 as [|a l _ IH Ha]; constructor; [exact IH|].
  eapply List.Forall_impl; [|exact Ha]. intros b. apply H.
Qed.

Lemma mergeSort_permutation l : Permutation (mergeSort l) l.
Proof. apply merge_sort_Permutation. Qed.

Lemma mergeSort_sorted l : StronglySorted (fun a b => ScoredMove_lt b a = false) (mergeSort l).
Proof.
  apply (StronglySorted_impl descending); [intros a b; apply ScoredMove_lt_false|].
  apply StronglySorted_merge_sort; apply _.
Qed.

Section Ordering.

Variable GetTime : float.
Variable uninit : GameModel.
Variable std_sort : list ScoredMove -> list ScoredMove.
Hypothesis std_sort_permutation : forall l, Permutation (std_sort l) l.
Hypothesis std_sort_sorted :
  forall l, StronglySorted (fun a b => ScoredMove_lt b a = false) (std_sort l).

Lemma scoreMoves_move model moves aiPlayer maximizing :
  map move (scoreMoves GetTime uninit model moves aiPlayer maximizing) = moves.
Proof.
  unfold scoreMoves. rewrite map_map. cbn [move]. apply map_id.
Qed.

Lemma scoreMoves_score model moves aiPlayer maximizing sm :
  In sm (scoreMoves GetTime uninit model moves aiPlayer maximizing) ->
  score sm = orderKey GetTime uninit model aiPlayer maximizing (move sm).
Proof.
  unfold scoreMoves. rewrite in_map_iff. intros (m & <- & _).
  unfold orderKey. cbn [score move]. destruct maximizing; reflexivity.
Qed.

Lemma orderMoves_permutation model moves aiPlayer maximizing :
  Permutation (orderMoves GetTime uninit std_sort model moves aiPlayer maximizing) moves.
Proof using std_sort_permutation.
  unfold orderMoves. cbv zeta.
  rewrite <- (scoreMoves_move model moves aiPlayer maximizing) at 2.
  apply Permutation_map, std_sort_permutation.
Qed.

Lemma StronglySorted_map_In {A B} (R : A -> A -> Prop) (R' : B -> B -> Prop) (f : A -> B) l :
  (forall a b, In a l -> In b l -> R a b -> R' (f a) (f b)) ->
  StronglySorted R l -> StronglySorted R' (map f l).
Proof.
  intros H Hs. induction Hs as [|a l Hl IH Ha]; simpl; constructor.
  - apply IH. intros; apply H; simpl; auto.
  - apply List.Forall_forall. intros b' Hb'. apply in_map_iff in Hb' as (b & <- & Hb).
    rewrite List.Forall_forall in Ha. apply H; simpl; auto.
Qed.

Lemma orderMoves_sorted model moves aiPlayer maximizing :
  StronglySorted
    (fun a b => orderKey GetTime uninit model aiPlayer maximizing b
                <= orderKey GetTime uninit model aiPlayer maximizing a)
    (orderMoves GetTime uninit std_sort model moves aiPlayer maximizing).
Proof using std_sort_permutation std_sort_sorted.
  unfold orderMoves. cbv zeta.
  eapply StronglySorted_map_In; [|apply std_sort_sorted].
  intros a b Ha Hb Hab. apply ScoredMove_lt_false in Hab. unfold descending in Hab.
  rewrite <- !(scoreMoves_score model moves aiPlayer maximizing); [exact Hab| |].
  - eapply Permutation_in; [apply std_sort_permutation|exact Ha].
  - eapply Permutation_in; [apply std_sort_permutation|exact Hb].
Qed.

Lemma orderIfSeveral_permutation model moves aiPlayer maximizing :
  Permutation (orderIfSeveral GetTime uninit std_sort model moves aiPlayer maximizing) moves.
Proof using std_sort_permutation.
  unfold orderIfSeveral. destruct (1 <? length moves)%nat; [|reflexivity].
  apply orderMoves_permutation.
Qed.

End Ordering.

(** C6 as the code has it: with a [std_sort] that meets the contract of [std::sort], [orderMoves] returns a permutation of the moves in descending order of the evaluation of each move's successor from the searching player's side, negated at a minimizing node; nothing is promised on the order of moves with equal scores. *)
Theorem orderMoves_sorted_permutation GetTime uninit std_sort model moves aiPlayer maximizing :
  (forall l, Permutation (std_sort l) l) ->
  (forall l, StronglySorted (fun a b => ScoredMove_lt b a = false) (std_sort l)) ->
  Permutation (orderMoves GetTime uninit std_sort model moves aiPlayer maximizing) moves /\
  StronglySorted
    (fun a b => orderKey GetTime uninit model aiPlayer maximizing b
                <= orderKey GetTime uninit model aiPlayer maximizing a)
    (orderMoves GetTime uninit std_sort model moves aiPlayer maximizing).
Proof.
  intros Hperm Hsorted. split.
  - apply orderMoves_permutation, Hperm.
  - apply orderMoves_sorted; assumption.
Qed.

(** C6 (amended) at the initial position with a merge sort. *)
Lemma orderMoves_sorted_permutation_witness :
  Permutation
    (orderMoves 0%float model0 mergeSort start0 (getValidMoves start0) PLAYER_BLACK true)
    (getValidMoves start0) /\
  StronglySorted
    (fun a b => orderKey 0%float model0 start0 PLAYER_BLACK true b
                <= orderKey 0%float model0 start0 PLAYER_BLACK true a)
    (orderMoves 0%float model0 mergeSort start0 (getValidMoves start0) PLAYER_BLACK true).
Proof.
  apply (orderMoves_sorted_permutation 0%float model0 mergeSort start0 (getValidMoves start0)
           PLAYER_BLACK true mergeSort_permutation mergeSort_sorted).
Defined.

Lemma Square_eqb_eq a b : Square_eqb a b = true -> a = b.
Proof.
  unfold Square_eqb. rewrite andb_true_iff, !Z.eqb_eq. destruct a, b. cbn. intros [-> ->].
  reflexivity.
Qed.

Lemma playLine_reachable moves model model' :
  reachable model -> playLine model moves = Some model' -> reachable model'.
Proof.
  revert model. induction moves as [|m moves IH]; intros model Hreach; cbn [playLine].
  { intros [= <-]. exact Hreach. }
  destruct (existsb (Square_eqb m) (getValidMoves model)) eqn:Hlegal; [|discriminate].
  apply IH. apply reachable_play; [exact Hreach|].
  apply existsb_exists in Hlegal as (m' & Hin & Heq).
  apply Square_eqb_eq in Heq. subst m'. exact Hin.
Qed.

Ltac index_of H i :=
  repeat (destruct i as [|i]; [try discriminate H|cbn in H; try discriminate H]).

(** With at most 16 elements [std::sort] of libstdc++ is an insertion sort:
    the four opening moves, all of the same score, keep their order. *)
Lemma orderMoves_opening :
  orderMoves 0%float model0 libstdcxx.sort start0 (getValidMoves start0) PLAYER_BLACK true
  = getValidMoves start0.
Proof. vm_compute. reflexivity. Qed.

Lemma tiePosition_reachable : reachable tiePosition.
Proof.
  apply (playLine_reachable tieLine start0); [apply reachable_start|].
  vm_compute. reflexivity.
Qed.

Lemma tiePosition_moves :
  getValidMoves tiePosition
  = [mkSquare 4 0; mkSquare 3 1; mkSquare 4 1; mkSquare 2 2; mkSquare 3 2; mkSquare 5 2;
     mkSquare 1 3; mkSquare 2 3; mkSquare 7 3; mkSquare 1 4; mkSquare 5 4; mkSquare 6 4;
     mkSquare 1 5; mkSquare 5 5; mkSquare 1 6; mkSquare 4 6; mkSquare 5 6].
Proof. vm_compute. reflexivity. Qed.

Lemma tiePosition_ordered :
  orderMoves 0%float model0 libstdcxx.sort tiePosition (getValidMoves tiePosition)
    PLAYER_WHITE true
  = [mkSquare 4 0; mkSquare 7 3; mkSquare 1 3; mkSquare 2 2; mkSquare 5 2; mkSquare 1 4;
     mkSquare 5 5; mkSquare 5 4; mkSquare 5 6; mkSquare 4 6; mkSquare 3 1; mkSquare 1 5;
     mkSquare 3 2; mkSquare 6 4; mkSquare 2 3; mkSquare 4 1; mkSquare 1 6].
Proof. vm_compute. reflexivity. Qed.

Lemma tiePosition_keys :
  orderKey 0%float model0 tiePosition PLAYER_WHITE true (mkSquare 3 1) = 24 /\
  orderKey 0%float model0 tiePosition PLAYER_WHITE true (mkSquare 4 6) = 24.
Proof. split; vm_compute; reflexivity. Qed.

(** C6 fails on the code: in the position reached from the initial one by the eleven legal moves of [tieLine], White has 17 legal moves; (3, 1) and (4, 6) have the same score 24 and (3, 1) is the earlier one in row-major order, yet [orderMoves], with [std::sort] as libstdc++ implements it, returns (4, 6) before (3, 1). *)
Lemma orderMoves_reorders_ties :
  reachable tiePosition /\
  currentPlayer tiePosition = PLAYER_WHITE /\
  getValidMoves tiePosition
  = [mkSquare 4 0; mkSquare 3 1; mkSquare 4 1; mkSquare 2 2; mkSquare 3 2; mkSquare 5 2;
     mkSquare 1 3; mkSquare 2 3; mkSquare 7 3; mkSquare 1 4; mkSquare 5 4; mkSquare 6 4;
     mkSquare 1 5; mkSquare 5 5; mkSquare 1 6; mkSquare 4 6; mkSquare 5 6] /\
  orderKey 0%float model0 tiePosition PLAYER_WHITE true (mkSquare 3 1) = 24 /\
  orderKey 0%float model0 tiePosition PLAYER_WHITE true (mkSquare 4 6) = 24 /\
  orderMoves 0%float model0 libstdcxx.sort tiePosition (getValidMoves tiePosition)
    PLAYER_WHITE true
  = [mkSquare 4 0; mkSquare 7 3; mkSquare 1 3; mkSquare 2 2; mkSquare 5 2; mkSquare 1 4;
     mkSquare 5 5; mkSquare 5 4; mkSquare 5 6; mkSquare 4 6; mkSquare 3 1; mkSquare 1 5;
     mkSquare 3 2; mkSquare 6 4; mkSquare 2 3; mkSquare 4 1; mkSquare 1 6] /\
  ~ tiesKeepOrder (orderKey 0%float model0 tiePosition PLAYER_WHITE true)
      (getValidMoves tiePosition)
      (orderMoves 0%float model0 libstdcxx.sort tiePosition (getValidMoves tiePosition)
         PLAYER_WHITE true).
Proof.
  split; [exact tiePosition_reachable|].
  split; [vm_compute; reflexivity|]. split; [exact tiePosition_moves|].
  split; [apply tiePosition_keys|]. split; [apply tiePosition_keys|].
  split; [exact tiePosition_ordered|].
  rewrite tiePosition_ordered, tiePosition_moves. intros H.
  destruct (H 1%nat 15%nat (mkSquare 3 1) (mkSquare 4 6)) as (i & j & Hij & Hi & Hj).
  - lia.
  - reflexivity.
  - reflexivity.
  - rewrite (proj1 tiePosition_keys), (proj2 tiePosition_keys). reflexivity.
  - index_of Hi i. index_of Hj j. lia.
Qed.

(** C1: for every state, depth and perspective player, when the node budget is not reached, [alphabeta] on the full window, move ordering included, returns the value of exhaustive [minimax] over the same tree with the same evaluation. *)
Theorem alphabeta_full_window_minimax GetTime uninit std_sort depth model
    maximizingPlayer aiPlayer nodesExplored :
  (forall l, Permutation (std_sort l) l) ->
  snd (alphabeta GetTime uninit std_sort depth model INT_MIN INT_MAX maximizingPlayer aiPlayer
         nodesExplored) < MAX_NODES ->
  fst (alphabeta GetTime uninit std_sort depth model INT_MIN INT_MAX maximizingPlayer aiPlayer
         nodesExplored)
  = minimax_with GetTime uninit (evaluate uninit) depth model maximizingPlayer aiPlayer.
Proof.
  intros Hperm Hbudget. unfold alphabeta in *.
  apply alphabeta_with_minimax; [apply evaluate_range| |exact Hbudget].
  intros. apply orderIfSeveral_permutation, Hperm.
Qed.

(** C1 at the initial position, three plies deep. *)
Lemma alphabeta_full_window_minimax_witness :
  snd (alphabeta 0%float model0 mergeSort 3 start0 INT_MIN INT_MAX true PLAYER_BLACK 0)
    < MAX_NODES /\
  fst (alphabeta 0%float model0 mergeSort 3 start0 INT_MIN INT_MAX true PLAYER_BLACK 0)
  = minimax_with 0%float model0 (evaluate model0) 3 start0 true PLAYER_BLACK.
Proof.
  split; [vm_compute; reflexivity|].
  apply (alphabeta_full_window_minimax 0%float model0 mergeSort 3 start0 true PLAYER_BLACK 0
           mergeSort_permutation).
  vm_compute. reflexivity.
Defined.

(** C3: [alphabeta] at depth > 0 on a non-terminal state, below the node budget, whose side to move has no legal move: the copy has the same board and the other player to move; if that player has no move either the result is the evaluation of the copy marked terminal, otherwise it is [alphabeta] of the copy one ply less deep, with the maximizing flag negated and the same window. *)
Theorem alphabeta_pass GetTime uninit std_sort depth model alpha beta
    maximizingPlayer aiPlayer nodesExplored :
  nodesExplored + 1 < MAX_NODES -> gameOver model = false -> getValidMoves model = [] ->
  let newModel := passModel uninit model in
  board newModel = board model /\
  currentPlayer newModel = otherPlayer (currentPlayer model) /\
  (getValidMoves newModel = [] ->
   alphabeta GetTime uninit std_sort (S depth) model alpha beta maximizingPlayer aiPlayer
     nodesExplored
   = (evaluate uninit (set_gameOver newModel true) aiPlayer, nodesExplored + 1)) /\
  (getValidMoves newModel <> [] ->
   alphabeta GetTime uninit std_sort (S depth) model alpha beta maximizingPlayer aiPlayer
     nodesExplored
   = alphabeta GetTime uninit std_sort depth newModel alpha beta (negb maximizingPlayer)
       aiPlayer (nodesExplored + 1)).
Proof.
  intros Hn Hgo Hmoves newModel. split; [reflexivity|]. split; [reflexivity|].
  unfold alphabeta. rewrite alphabeta_with_pass by assumption. fold newModel.
  split; intros H.
  - rewrite H. reflexivity.
  - destruct (getValidMoves newModel); [congruence|reflexivity].
Qed.

(** C3 at a position where Black must pass and White can move. *)
Lemma alphabeta_pass_witness :
  getValidMoves (passModel model0 (cornerModel PLAYER_BLACK)) <> [] /\
  alphabeta 0%float model0 mergeSort 2 (cornerModel PLAYER_BLACK) INT_MIN INT_MAX true
    PLAYER_BLACK 0
  = alphabeta 0%float model0 mergeSort 1 (passModel model0 (cornerModel PLAYER_BLACK))
      INT_MIN INT_MAX false PLAYER_BLACK 1.
Proof.
  assert (H : getValidMoves (passModel model0 (cornerModel PLAYER_BLACK)) <> [])
    by (vm_compute; discriminate).
  split; [exact H|].
  apply (alphabeta_pass 0%float model0 mergeSort 1 (cornerModel PLAYER_BLACK) INT_MIN INT_MAX
           true PLAYER_BLACK 0); [vm_compute; reflexivity|reflexivity|vm_compute; reflexivity|exact H].
Defined.

(** C4 as the code has it: every call of [alphabeta] first counts itself; once the counter reaches the budget (500000 in the final engine, 100000 in the first one) the call returns the evaluation of its state at once, with exactly one node counted, whatever the depth and the terminal flag. The loops of the calls in flight have no budget test and go on calling [alphabeta] for each remaining move, so the counter passes the budget by more than the calls in flight: it ends at most 64 nodes per level of the search above the budget. *)
Theorem alphabeta_node_budget GetTime uninit std_sort depth model alpha beta
    maximizingPlayer aiPlayer nodesExplored :
  (forall l, Permutation (std_sort l) l) ->
  let final := alphabeta GetTime uninit std_sort depth model alpha beta maximizingPlayer
                 aiPlayer nodesExplored in
  let basic := alphabeta_basic GetTime uninit depth model alpha beta maximizingPlayer
                 aiPlayer nodesExplored in
  MAX_NODES = 500000 /\ MAX_NODES_basic = 100000 /\
  nodesExplored + 1 <= snd final /\ nodesExplored + 1 <= snd basic /\
  (MAX_NODES <= nodesExplored + 1 ->
   final = (evaluate uninit model aiPlayer, nodesExplored + 1)) /\
  (MAX_NODES_basic <= nodesExplored + 1 ->
   basic = (evaluate_basic uninit model aiPlayer, nodesExplored + 1)) /\
  snd final <= Z.max (nodesExplored + 1) (MAX_NODES + 64 * Z.of_nat depth) /\
  snd basic <= Z.max (nodesExplored + 1) (MAX_NODES_basic + 64 * Z.of_nat depth).
Proof.
  intros Hperm final basic. subst final basic. unfold alphabeta, alphabeta_basic.
  split; [reflexivity|]. split; [reflexivity|].
  split; [apply alphabeta_with_counts|]. split; [apply alphabeta_with_counts|].
  split; [apply alphabeta_with_budget|]. split; [apply alphabeta_with_budget|].
  split; apply alphabeta_with_bounded.
  - intros. apply Permutation_length, orderIfSeveral_permutation, Hperm.
  - reflexivity.
Qed.

(** C4 (amended) at the initial position with the counter one below the budget. *)
Lemma alphabeta_node_budget_witness :
  alphabeta 0%float model0 mergeSort 3 start0 INT_MIN INT_MAX true PLAYER_BLACK 499999
  = (evaluate model0 start0 PLAYER_BLACK, 500000).
Proof.
  apply (alphabeta_node_budget 0%float model0 mergeSort 3 start0 INT_MIN INT_MAX true
           PLAYER_BLACK 499999 mergeSort_permutation).
  vm_compute. discriminate.
Defined.

(** C4 fails on the code: at the initial position, one ply deep, with the counter two below the budget, the root call goes on to call [alphabeta] for each of its four moves; the counter ends at budget + 3, in both alpha-beta engines, with at most two calls in flight. *)
Lemma alphabeta_exceeds_calls_in_flight :
  snd (alphabeta 0%float model0 libstdcxx.sort 1 start0 INT_MIN INT_MAX true PLAYER_BLACK 499998)
  = 500003 /\
  MAX_NODES + callsInFlight 1
  < snd (alphabeta 0%float model0 libstdcxx.sort 1 start0 INT_MIN INT_MAX true PLAYER_BLACK
           499998) /\
  snd (alphabeta_basic 0%float model0 1 start0 INT_MIN INT_MAX true PLAYER_BLACK 99998)
  = 100003 /\
  MAX_NODES_basic + callsInFlight 1
  < snd (alphabeta_basic 0%float model0 1 start0 INT_MIN INT_MAX true PLAYER_BLACK 99998).
Proof. repeat split; vm_compute; reflexivity. Qed.

Section BestMove.

Variable GetTime : float.
Variable uninit : GameModel.
Variable std_sort : list ScoredMove -> list ScoredMove.
Hypothesis std_sort_permutation : forall l, Permutation (std_sort l) l.
Variable GAME_INVALID_SQUARE : Square.

Lemma rootLoop_In model validMoves searchDepth aiPlayer alpha beta bestMove bestValue n :
  In (fst (rootLoop GetTime uninit std_sort model validMoves searchDepth aiPlayer alpha beta
             bestMove bestValue n)) (bestMove :: validMoves).
Proof.
  revert alpha bestMove bestValue n.
  induction validMoves as [|m l IH]; intros alpha bestMove bestValue n; cbn [rootLoop].
  { left. reflexivity. }
  destruct (alphabeta _ _ _ _ _ _ _ _ _ _) as [moveValue n1].
  destruct (bestValue <? moveValue).
  - destruct (IH (if alpha <? moveValue then moveValue else alpha) m moveValue n1) as [H|H].
    + right. left. exact H.
    + right. right. exact H.
  - destruct (IH (if alpha <? moveValue then moveValue else alpha) bestMove bestValue n1)
      as [H|H].
    + left. exact H.
    + right. right. exact H.
Qed.

Lemma getBestMove_In model n :
  getValidMoves model <> [] ->
  In (fst (getBestMove GetTime uninit std_sort GAME_INVALID_SQUARE model n))
     (getValidMoves model).
Proof using std_sort_permutation.
  intros Hne. unfold getBestMove. cbv zeta.
  destruct (getValidMoves model) as [|m0 l] eqn:Hmoves; [congruence|].
  cbn [length Nat.eqb nth]. destruct l as [|m1 l]; cbn [length Nat.eqb fst].
  { left. reflexivity. }
  match goal with |- In (fst (rootLoop _ _ _ _ ?ms _ _ _ _ _ _ _)) _ =>
    destruct (rootLoop_In model ms (getSearchDepth model) (currentPlayer model)
                INT_MIN INT_MAX m0 INT_MIN 0) as [H|H]
  end.
  - left. exact H.
  - eapply Permutation_in; [|exact H]. apply orderMoves_permutation, std_sort_permutation.
Qed.

End BestMove.

(** C10: [getBestMove] returns the invalid-move sentinel exactly when the side to move has no legal move; with exactly one legal move it returns that move and leaves the node counter as it was, so a counter at 0 stays at 0. *)
Theorem getBestMove_trivial GetTime uninit std_sort GAME_INVALID_SQUARE model nodesExplored :
  (forall l, Permutation (std_sort l) l) ->
  isSquareValid GAME_INVALID_SQUARE = false ->
  (fst (getBestMove GetTime uninit std_sort GAME_INVALID_SQUARE model nodesExplored)
   = GAME_INVALID_SQUARE <-> getValidMoves model = []) /\
  (forall m, getValidMoves model = [m] ->
   getBestMove GetTime uninit std_sort GAME_INVALID_SQUARE model nodesExplored
   = (m, nodesExplored)).
Proof.
  intros Hperm Hinvalid. split; [split|].
  - intros Hres. destruct (getValidMoves model) as [|m0 l] eqn:Hmoves; [reflexivity|].
    exfalso.
    pose proof (getBestMove_In GetTime uninit std_sort Hperm GAME_INVALID_SQUARE model
                  nodesExplored) as Hin.
    rewrite Hres, Hmoves in Hin. specialize (Hin ltac:(discriminate)).
    rewrite <- Hmoves in Hin. apply In_getValidMoves in Hin as [Hvalid _]. congruence.
  - intros Hmoves. unfold getBestMove. rewrite Hmoves. reflexivity.
  - intros m Hmoves. unfold getBestMove. rewrite Hmoves. reflexivity.
Qed.

(** C10 at a position with the single legal move (2, 0). *)
Lemma getBestMove_trivial_witness :
  getValidMoves (cornerModel PLAYER_WHITE) = [mkSquare 2 0] /\
  getBestMove 0%float model0 mergeSort invalidSquare (cornerModel PLAYER_WHITE) 0
  = (mkSquare 2 0, 0).
Proof.
  assert (H : getValidMoves (cornerModel PLAYER_WHITE) = [mkSquare 2 0])
    by (vm_compute; reflexivity).
  split; [exact H|].
  apply (getBestMove_trivial 0%float model0 mergeSort invalidSquare (cornerModel PLAYER_WHITE) 0
           mergeSort_permutation eq_refl), H.
Defined.

Lemma write_same s r v : write s r v r = v.
Proof. unfold write. rewrite Nat.eqb_refl. reflexivity. Qed.

Lemma write_other s r v r' : r' <> r -> write s r v r' = s r'.
Proof. intros H. unfold write. apply Nat.eqb_neq in H. rewrite H. reflexivity. Qed.

Lemma agrees_refl sp s : agrees sp s s.
Proof. intros r _. reflexivity. Qed.

Lemma agrees_trans sp s1 s2 s3 : agrees sp s1 s2 -> agrees sp s2 s3 -> agrees sp s1 s3.
Proof. intros H1 H2 r Hr. rewrite H2, H1; auto. Qed.

Lemma agrees_le sp sp' s s' : (sp <= sp')%nat -> agrees sp' s s' -> agrees sp s s'.
Proof. intros Hle H r Hr. apply H. lia. Qed.

Lemma agrees_write sp s r v : (sp <= r)%nat -> agrees sp s (write s r v).
Proof. intros Hle r' Hr'. apply write_other. lia. Qed.

Lemma copyBoard_at_dest source dest s :
  source <> dest -> copyBoard_at source dest s dest = copyBoard (s source) (s dest).
Proof.
  intros Hne. unfold copyBoard_at, copyBoard. cbv zeta.
  rewrite !write_same, !(write_other _ dest _ source) by assumption. reflexivity.
Qed.

Lemma copyBoard_at_other source dest s r : r <> dest -> copyBoard_at source dest s r = s r.
Proof. intros Hne. unfold copyBoard_at. cbv zeta. rewrite !write_other by assumption. reflexivity. Qed.

Lemma simulateMove_at_newModel GetTime model m newModel s :
  model <> newModel ->
  simulateMove_at GetTime model m newModel s newModel
  = simulateMove GetTime (s model) m (s newModel).
Proof.
  intros Hne. unfold simulateMove_at, playMove_at, simulateMove. cbv zeta.
  rewrite copyBoard_at_dest by assumption.
  destruct (playMove GetTime (copyBoard (s model) (s newModel)) m) as [ok new].
  cbn [snd]. apply write_same.
Qed.

Lemma simulateMove_at_other GetTime model m newModel s r :
  r <> newModel -> simulateMove_at GetTime model m newModel s r = s r.
Proof.
  intros Hne. unfold simulateMove_at, playMove_at. cbv zeta.
  destruct (playMove GetTime _ m) as [ok new]. cbn [snd].
  rewrite write_other by assumption. apply copyBoard_at_other, Hne.
Qed.

Section StoreFacts.

Variable GetTime : float.
Variable uninit : GameModel.
Variable std_sort : list ScoredMove -> list ScoredMove.

(** A fresh local at [sp] holding the simulated position. *)
Lemma simulate_local sp model m s :
  (model < sp)%nat ->
  let s' := simulateMove_at GetTime model m sp (declare uninit sp s) in
  s' sp = simulateMove GetTime (s model) m uninit /\ agrees sp s s'.
Proof.
  intros Hlt s'. subst s'. split.
  - rewrite simulateMove_at_newModel by lia. unfold declare.
    rewrite write_same, write_other by lia. reflexivity.
  - intros r Hr. rewrite simulateMove_at_other by lia. unfold declare.
    apply write_other. lia.
Qed.

Lemma evaluate_at_spec sp model player s :
  (model < sp)%nat ->
  fst (evaluate_at uninit sp model player s) = evaluate uninit (s model) player /\
  agrees sp s (snd (evaluate_at uninit sp model player s)).
Proof.
  intros Hlt. unfold evaluate_at, declare. cbv zeta. cbn [fst snd]. split.
  - rewrite !write_same, !(write_other _ sp _ model) by lia.
    unfold evaluate, mobilityValue. reflexivity.
  - intros r Hr. rewrite !write_other by lia. reflexivity.
Qed.

Lemma scoreMoves_at_spec sp model moves aiPlayer maximizing s :
  (model < sp)%nat ->
  fst (scoreMoves_at GetTime uninit sp model moves aiPlayer maximizing s)
  = scoreMoves GetTime uninit (s model) moves aiPlayer maximizing /\
  agrees sp s (snd (scoreMoves_at GetTime uninit sp model moves aiPlayer maximizing s)).
Proof.
  intros Hlt. revert s. induction moves as [|m moves IH]; intros s; cbn [scoreMoves_at].
  { split; [reflexivity|apply agrees_refl]. }
  cbv zeta. destruct (simulate_local sp model m s Hlt) as [Hsp Hag]. cbv zeta in Hsp, Hag.
  set (s1 := simulateMove_at GetTime model m sp (declare uninit sp s)) in *.
  destruct (evaluate_at_spec (S sp) sp aiPlayer s1 ltac:(lia)) as [Hv Hag2].
  destruct (evaluate_at uninit (S sp) sp aiPlayer s1) as [v s2]. cbn [fst snd] in Hv, Hag2.
  destruct (IH s2) as [Hrest Hag3].
  destruct (scoreMoves_at GetTime uninit sp model moves aiPlayer maximizing s2) as [scored s3].
  cbn [fst snd] in *.
  assert (Hs2 : agrees sp s s2).
  { eapply agrees_trans; [exact Hag|]. eapply agrees_le; [|exact Hag2]. lia. }
  split.
  - unfold scoreMoves in *. cbn [map]. rewrite Hrest, Hv, Hsp, (Hs2 model Hlt). reflexivity.
  - eapply agrees_trans; eassumption.
Qed.

Lemma orderMoves_at_spec sp model moves aiPlayer maximizing s :
  (model < sp)%nat ->
  fst (orderMoves_at GetTime uninit std_sort sp model moves aiPlayer maximizing s)
  = orderMoves GetTime uninit std_sort (s model) moves aiPlayer maximizing /\
  agrees sp s (snd (orderMoves_at GetTime uninit std_sort sp model moves aiPlayer maximizing s)).
Proof.
  intros Hlt. unfold orderMoves_at, orderMoves.
  destruct (scoreMoves_at_spec sp model moves aiPlayer maximizing s Hlt) as [H1 H2].
  destruct (scoreMoves_at GetTime uninit sp model moves aiPlayer maximizing s) as [scored s1].
  cbn [fst snd] in *. rewrite H1. split; [reflexivity|assumption].
Qed.

Section Loops.

Variable child_at : nat -> nat -> Z -> Z -> Z * Store -> Z * (Z * Store).
Variable child : GameModel -> Z -> Z -> Z -> Z * Z.
Hypothesis child_refines :
  forall sp model alpha beta n s, (model < sp)%nat ->
    refines sp s (child_at sp model alpha beta (n, s)) (child (s model) alpha beta n).

Lemma maxLoop_at_spec sp model validMoves alpha beta maxEval n s :
  (model < sp)%nat ->
  refines sp s (maxLoop_at GetTime uninit child_at sp model validMoves alpha beta maxEval (n, s))
    (maxLoop GetTime uninit child (s model) validMoves alpha beta maxEval n).
Proof using child_refines.
  intros Hlt. revert alpha maxEval n s.
  induction validMoves as [|m l IH]; intros alpha maxEval n s; cbn [maxLoop_at maxLoop].
  { split; [|split]; [reflexivity|reflexivity|apply agrees_refl]. }
  cbv zeta. cbn [fst snd].
  destruct (simulate_local sp model m s Hlt) as [Hsp Hag]. cbv zeta in Hsp, Hag.
  set (s1 := simulateMove_at GetTime model m sp (declare uninit sp s)) in *.
  destruct (child_refines (S sp) sp alpha beta n s1 ltac:(lia)) as (Hv & Hn & Hag2).
  rewrite Hsp in Hv, Hn.
  destruct (child_at (S sp) sp alpha beta (n, s1)) as [eval [n1 s2]].
  destruct (child (simulateMove GetTime (s model) m uninit) alpha beta n) as [eval' n1'].
  cbn [fst snd] in *. subst eval' n1'.
  assert (Hs2 : agrees sp s s2).
  { eapply agrees_trans; [exact Hag|]. eapply agrees_le; [|exact Hag2]. lia. }
  destruct (beta <=? _).
  - split; [|split]; [reflexivity|reflexivity|exact Hs2].
  - specialize (IH (if alpha <? eval then eval else alpha)
                   (if maxEval <? eval then eval else maxEval) n1 s2).
    rewrite (Hs2 model Hlt) in IH. destruct IH as (H1 & H2 & H3).
    split; [|split]; [exact H1|exact H2|]. eapply agrees_trans; eassumption.
Qed.

Lemma minLoop_at_spec sp model validMoves alpha beta minEval n s :
  (model < sp)%nat ->
  refines sp s (minLoop_at GetTime uninit child_at sp model validMoves alpha beta minEval (n, s))
    (minLoop GetTime uninit child (s model) validMoves alpha beta minEval n).
Proof using child_refines.
  intros Hlt. revert beta minEval n s.
  induction validMoves as [|m l IH]; intros beta minEval n s; cbn [minLoop_at minLoop].
  { split; [|split]; [reflexivity|reflexivity|apply agrees_refl]. }
  cbv zeta. cbn [fst snd].
  destruct (simulate_local sp model m s Hlt) as [Hsp Hag]. cbv zeta in Hsp, Hag.
  set (s1 := simulateMove_at GetTime model m sp (declare uninit sp s)) in *.
  destruct (child_refines (S sp) sp alpha beta n s1 ltac:(lia)) as (Hv & Hn & Hag2).
  rewrite Hsp in Hv, Hn.
  destruct (child_at (S sp) sp alpha beta (n, s1)) as [eval [n1 s2]].
  destruct (child (simulateMove GetTime (s model) m uninit) alpha beta n) as [eval' n1'].
  cbn [fst snd] in *. subst eval' n1'.
  assert (Hs2 : agrees sp s s2).
  { eapply agrees_trans; [exact Hag|]. eapply agrees_le; [|exact Hag2]. lia. }
  destruct (_ <=? alpha).
  - split; [|split]; [reflexivity|reflexivity|exact Hs2].
  - specialize (IH (if eval <? beta then eval else beta)
                   (if eval <? minEval then eval else minEval) n1 s2).
    rewrite (Hs2 model Hlt) in IH. destruct IH as (H1 & H2 & H3).
    split; [|split]; [exact H1|exact H2|]. eapply agrees_trans; eassumption.
Qed.

End Loops.

Lemma evaluate_at_refines sp model player n s :
  (model < sp)%nat ->
  refines sp s
    (let '(v, s') := evaluate_at uninit sp model player s in (v, (n, s')))
    (evaluate uninit (s model) player, n).
Proof.
  intros Hlt. destruct (evaluate_at_spec sp model player s Hlt) as [Hv Hag].
  destruct (evaluate_at uninit sp model player s) as [v s']. split; [|split]; [assumption|reflexivity|assumption].
Qed.

Lemma alphabeta_at_spec depth sp model alpha beta maximizingPlayer aiPlayer n s :
  (model < sp)%nat ->
  refines sp s
    (alphabeta_at GetTime uninit std_sort depth sp model alpha beta maximizingPlayer aiPlayer (n, s))
    (alphabeta GetTime uninit std_sort depth (s model) alpha beta maximizingPlayer aiPlayer n).
Proof.
  unfold alphabeta. revert sp model alpha beta maximizingPlayer n s.
  induction depth as [|depth IH]; intros sp model alpha beta mx n s Hlt;
    cbn [alphabeta_at alphabeta_with]; cbv zeta; cbn [fst snd];
    (destruct (MAX_NODES <=? n + 1); [apply evaluate_at_refines; assumption|]).
  { apply evaluate_at_refines; assumption. }
  destruct (gameOver (s model)); [apply evaluate_at_refines; assumption|].
  destruct (length (getValidMoves (s model)) =? 0)%nat.
  - set (s1 := declare uninit sp s).
    set (s2 := copyBoard_at model sp s1).
    set (s3 := write s2 sp (set_currentPlayer (s2 sp) (otherPlayer (currentPlayer (s2 sp))))).
    assert (Hs3 : s3 sp = passModel uninit (s model)).
    { subst s3 s2 s1. rewrite write_same, copyBoard_at_dest by lia. unfold declare.
      rewrite write_same, write_other by lia. reflexivity. }
    assert (Hag3 : agrees sp s s3).
    { intros r Hr. subst s3 s2 s1. rewrite write_other, copyBoard_at_other by lia.
      unfold declare. apply write_other. lia. }
    rewrite Hs3.
    destruct (length (getValidMoves (passModel uninit (s model))) =? 0)%nat.
    + set (s4 := write s3 sp (set_gameOver (passModel uninit (s model)) true)).
      destruct (evaluate_at_refines (S sp) sp aiPlayer (n + 1) s4 ltac:(lia)) as (H1 & H2 & H3).
      subst s4. rewrite write_same in H1.
      destruct (evaluate_at uninit (S sp) sp aiPlayer _) as [v s5]. cbn [fst snd] in *.
      split; [|split]; [exact H1|reflexivity|].
      intros r Hr. rewrite H3 by lia. rewrite write_other by lia. apply Hag3, Hr.
    + destruct (IH (S sp) sp alpha beta (negb mx) (n + 1) s3 ltac:(lia)) as (H1 & H2 & H3).
      rewrite Hs3 in H1, H2. split; [|split]; [exact H1|exact H2|].
      intros r Hr. rewrite H3 by lia. apply Hag3, Hr.
  - assert (Hord : exists s1,
              (if (1 <? length (getValidMoves (s model)))%nat
               then orderMoves_at GetTime uninit std_sort sp model (getValidMoves (s model))
                      aiPlayer mx s
               else (getValidMoves (s model), s))
              = (orderIfSeveral GetTime uninit std_sort (s model) (getValidMoves (s model))
                   aiPlayer mx, s1) /\ agrees sp s s1).
    { unfold orderIfSeveral. destruct (1 <? _)%nat.
      - destruct (orderMoves_at_spec sp model (getValidMoves (s model)) aiPlayer mx s Hlt)
          as [H1 H2].
        destruct (orderMoves_at _ _ _ _ _ _ _ _ _) as [moves s1]. cbn [fst snd] in *.
        exists s1. rewrite H1. split; [reflexivity|assumption].
      - exists s. split; [reflexivity|apply agrees_refl]. }
    destruct Hord as (s1 & -> & Hag1).
    destruct mx.
    + destruct (maxLoop_at_spec
                  (fun sp newModel alpha beta st =>
                     alphabeta_at GetTime uninit std_sort depth sp newModel alpha beta false aiPlayer st)
                  (fun newModel alpha beta n =>
                     alphabeta_with GetTime uninit (evaluate uninit) MAX_NODES
                       (orderIfSeveral GetTime uninit std_sort) depth newModel alpha beta false
                       aiPlayer n)
                  ltac:(intros; apply IH; assumption)
                  sp model
                  (orderIfSeveral GetTime uninit std_sort (s model) (getValidMoves (s model))
                     aiPlayer true)
                  alpha beta INT_MIN (n + 1) s1 Hlt) as (H1 & H2 & H3).
      rewrite (Hag1 model Hlt) in H1, H2.
      split; [|split]; [exact H1|exact H2|]. eapply agrees_trans; eassumption.
    + destruct (minLoop_at_spec
                  (fun sp newModel alpha beta st =>
                     alphabeta_at GetTime uninit std_sort depth sp newModel alpha beta true aiPlayer st)
                  (fun newModel alpha beta n =>
                     alphabeta_with GetTime uninit (evaluate uninit) MAX_NODES
                       (orderIfSeveral GetTime uninit std_sort) depth newModel alpha beta true
                       aiPlayer n)
                  ltac:(intros; apply IH; assumption)
                  sp model
                  (orderIfSeveral GetTime uninit std_sort (s model) (getValidMoves (s model))
                     aiPlayer false)
                  alpha beta INT_MAX (n + 1) s1 Hlt) as (H1 & H2 & H3).
      rewrite (Hag1 model Hlt) in H1, H2.
      split; [|split]; [exact H1|exact H2|]. eapply agrees_trans; eassumption.
Qed.

Variable GAME_INVALID_SQUARE : Square.

Lemma rootLoop_at_spec sp model validMoves searchDepth aiPlayer alpha beta bestMove bestValue n s :
  (model < sp)%nat ->
  refines sp s
    (rootLoop_at GetTime uninit std_sort sp model validMoves searchDepth aiPlayer alpha beta
       bestMove bestValue (n, s))
    (rootLoop GetTime uninit std_sort (s model) validMoves searchDepth aiPlayer alpha beta
       bestMove bestValue n).
Proof.
  intros Hlt. revert alpha bestMove bestValue n s.
  induction validMoves as [|m l IH]; intros alpha bestMove bestValue n s;
    cbn [rootLoop_at rootLoop].
  { split; [|split]; [reflexivity|reflexivity|apply agrees_refl]. }
  cbv zeta. cbn [fst snd].
  destruct (simulate_local sp model m s Hlt) as [Hsp Hag]. cbv zeta in Hsp, Hag.
  set (s1 := simulateMove_at GetTime model m sp (declare uninit sp s)) in *.
  destruct (alphabeta_at_spec (Z.to_nat (searchDepth - 1)) (S sp) sp alpha beta false aiPlayer
              n s1 ltac:(lia)) as (Hv & Hn & Hag2).
  rewrite Hsp in Hv, Hn.
  destruct (alphabeta_at _ _ _ _ _ _ _ _ _ _ _) as [moveValue [n1 s2]].
  destruct (alphabeta _ _ _ _ _ _ _ _ _ _) as [moveValue' n1'].
  cbn [fst snd] in *. subst moveValue' n1'.
  assert (Hs2 : agrees sp s s2).
  { eapply agrees_trans; [exact Hag|]. eapply agrees_le; [|exact Hag2]. lia. }
  destruct (bestValue <? moveValue).
  - specialize (IH (if alpha <? moveValue then moveValue else alpha) m moveValue n1 s2).
    rewrite (Hs2 model Hlt) in IH. destruct IH as (H1 & H2 & H3).
    split; [|split]; [exact H1|exact H2|]. eapply agrees_trans; eassumption.
  - specialize (IH (if alpha <? moveValue then moveValue else alpha) bestMove bestValue n1 s2).
    rewrite (Hs2 model Hlt) in IH. destruct IH as (H1 & H2 & H3).
    split; [|split]; [exact H1|exact H2|]. eapply agrees_trans; eassumption.
Qed.

Lemma getBestMove_at_spec sp model n s :
  (model < sp)%nat ->
  refines sp s
    (getBestMove_at GetTime uninit std_sort GAME_INVALID_SQUARE sp model (n, s))
    (getBestMove GetTime uninit std_sort GAME_INVALID_SQUARE (s model) n).
Proof.
  intros Hlt. unfold getBestMove_at, getBestMove. cbv zeta. cbn [fst snd].
  destruct (length (getValidMoves (s model)) =? 0)%nat; [split; [|split]; [reflexivity|reflexivity|apply agrees_refl]|].
  destruct (length (getValidMoves (s model)) =? 1)%nat; [split; [|split]; [reflexivity|reflexivity|apply agrees_refl]|].
  destruct (orderMoves_at_spec sp model (getValidMoves (s model)) (currentPlayer (s model))
              true s Hlt) as [H1 H2].
  destruct (orderMoves_at _ _ _ _ _ _ _ _ _) as [moves s1]. cbn [fst snd] in *. subst moves.
  destruct (rootLoop_at_spec sp model
              (orderMoves GetTime uninit std_sort (s model) (getValidMoves (s model))
                 (currentPlayer (s model)) true)
              (getSearchDepth (s model)) (currentPlayer (s model)) INT_MIN INT_MAX
              (nth 0 (getValidMoves (s model)) GAME_INVALID_SQUARE) INT_MIN 0 s1 Hlt)
    as (H3 & H4 & H5).
  rewrite (H2 model Hlt) in H3, H4.
  split; [|split]; [exact H3|exact H4|]. eapply agrees_trans; eassumption.
Qed.

End StoreFacts.

(** C8 after the opening move (3, 2). *)
Lemma gameOver_iff_noLegalMove_witness :
  reachable (snd (playMove 1%float start0 (mkSquare 3 2))) /\
  (gameOver (snd (playMove 1%float start0 (mkSquare 3 2))) = true <->
   noLegalMove (snd (playMove 1%float start0 (mkSquare 3 2)))).
Proof.
  assert (H : reachable (snd (playMove 1%float start0 (mkSquare 3 2)))).
  { apply reachable_play; [apply reachable_start|]. vm_compute. auto. }
  split; [exact H|]. apply (gameOver_iff_noLegalMove _ H).
Defined.

(** C9: over the store of objects, [simulateMove] changes no object but the one [newModel] refers to, so the simulated model is left as it was whenever the two are distinct objects; and a whole [getBestMove] call leaves every object of its caller as it was, the model it is called on included, and returns what the value-level [getBestMove] returns. *)
Theorem search_leaves_model_unchanged :
  (forall GetTime model m newModel (s : Store) caller,
     caller <> newModel ->
     simulateMove_at GetTime model m newModel s caller = s caller) /\
  (forall GetTime uninit std_sort GAME_INVALID_SQUARE sp model nodesExplored (s : Store),
     (model < sp)%nat ->
     let result :=
       getBestMove_at GetTime uninit std_sort GAME_INVALID_SQUARE sp model (nodesExplored, s) in
     (forall caller, (caller < sp)%nat -> snd (snd result) caller = s caller) /\
     (fst result, fst (snd result))
     = getBestMove GetTime uninit std_sort GAME_INVALID_SQUARE (s model) nodesExplored).
Proof.
  split.
  - intros. apply simulateMove_at_other. assumption.
  - intros GetTime uninit std_sort invalid sp model n s Hlt result.
    destruct (getBestMove_at_spec GetTime uninit std_sort invalid sp model n s Hlt)
      as (H1 & H2 & H3).
    fold result in H1, H2, H3. split; [exact H3|].
    rewrite H1, H2. symmetry. apply surjective_pairing.
Qed.

(** When the two references are one object the copy is a no-op and the move
    is played on the caller's model itself. *)
Lemma simulateMove_at_aliased GetTime model m (s : Store) :
  simulateMove_at GetTime model m model s model = snd (playMove GetTime (s model) m).
Proof.
  unfold simulateMove_at, playMove_at, copyBoard_at. cbv zeta.
  rewrite !write_same.
  replace (set_gameOver _ _) with (s model) by (destruct (s model); reflexivity).
  destruct (playMove GetTime (s model) m) as [ok new]. cbn [snd]. apply write_same.
Qed.

Lemma In_playDirections d : In d playDirections <-> In d directions.
Proof. unfold playDirections, directions. simpl. tauto. Qed.

Lemma cellAt_setCell_other b square square' piece :
  square <> square' -> cellAt (setCell b square' piece) square = cellAt b square.
Proof.
  intros Hne. unfold cellAt, setCell.
  destruct (isSquareValid square) eqn:Hv; [|reflexivity].
  destruct (isSquareValid square') eqn:Hv'; [|reflexivity].
  destruct (b !! Z.to_nat (y square')) as [row|] eqn:Hrow; [|reflexivity].
  cbv iota beta. rewrite list_lookup_insert. case_decide as Hy; [|reflexivity].
  destruct Hy as [Hy _]. rewrite Hy in Hrow. rewrite Hrow. simpl.
  rewrite list_lookup_insert. case_decide as Hx; [|reflexivity].
  destruct Hx as [Hx _]. exfalso. apply Hne.
  apply isSquareValid_spec in Hv, Hv'. destruct square, square'. simpl in *.
  f_equal; lia.
Qed.

Lemma getBoardPiece_setBoardPiece_other model square square' piece :
  square <> square' ->
  getBoardPiece (setBoardPiece model square' piece) square = getBoardPiece model square.
Proof. intros H. unfold getBoardPiece, setBoardPiece. simpl. apply cellAt_setCell_other, H. Qed.

(** ** The flipping loop *)

(** The loop of [playMove] never runs out of fuel either. *)
Lemma flipDirection_fuel_gen fuel1 fuel2 k model piece enemyPiece d move toFlip :
  isSquareValid move = true -> In d playDirections ->
  (8 <= fuel1 + k)%nat -> (8 <= fuel2 + k)%nat ->
  flipDirection fuel1 model piece enemyPiece d (walk move d (S k)) toFlip
  = flipDirection fuel2 model piece enemyPiece d (walk move d (S k)) toFlip.
Proof.
  intros Hmove Hd. apply In_playDirections in Hd.
  revert fuel2 k toFlip. induction fuel1 as [|fuel1 IH]; intros fuel2 k toFlip H1 H2.
  - assert (Hinv : isSquareValid (walk move d (S k)) = false).
    { destruct (isSquareValid (walk move d (S k))) eqn:Hv; [|reflexivity].
      apply walk_leaves_board in Hv; auto. lia. }
    destruct fuel2; cbn [flipDirection]; [reflexivity|]. rewrite Hinv. reflexivity.
  - destruct (isSquareValid (walk move d (S k))) eqn:Hv.
    + pose proof (walk_leaves_board _ _ _ Hmove Hd Hv) as Hk.
      destruct fuel2 as [|fuel2]; [lia|]. cbn [flipDirection]. rewrite Hv.
      destruct (Piece_eqb _ PIECE_EMPTY); [reflexivity|].
      destruct (Piece_eqb _ piece); [reflexivity|].
      replace (stepSquare (walk move d (S k)) d) with (walk move d (S (S k))).
      * apply IH; lia.
      * unfold walk, stepSquare. simpl x. simpl y. f_equal; lia.
    + destruct fuel2; cbn [flipDirection]; rewrite ?Hv; reflexivity.
Qed.

Lemma piece_cases player piece :
  piece = PIECE_EMPTY \/ piece = pieceOf player \/ piece = opponentPieceOf player.
Proof. destruct player, piece; vm_compute; auto. Qed.

Lemma brackets_run model player move d :
  brackets model player move d <-> exists n, (0 < n)%nat /\ run model player move d n.
Proof. unfold brackets, run. split; intros (n & Hn & H); exists n; tauto. Qed.

Lemma run_unique model player move d n n' :
  run model player move d n -> run model player move d n' -> n = n'.
Proof.
  destruct (pieceOf_opponentPieceOf player) as (Hne & _ & _).
  intros (Hrun & _ & Hown) (Hrun' & _ & Hown').
  destruct (lt_eq_lt_dec n n') as [[Hlt|Heq]|Hlt]; [|exact Heq|].
  - destruct (Hrun' (S n)) as [_ H]; [lia|]. congruence.
  - destruct (Hrun (S n')) as [_ H]; [lia|]. congruence.
Qed.

Lemma ray_S move d n : ray move d (S n) = ray move d n ++ [walk move d (S n)].
Proof. unfold ray. rewrite seq_S, map_app. reflexivity. Qed.

Lemma In_ray move d n square :
  In square (ray move d n) <-> exists i, (1 <= i <= n)%nat /\ square = walk move d i.
Proof.
  unfold ray. rewrite in_map_iff. split.
  - intros (i & <- & Hi). apply in_seq in Hi. exists i. split; [lia|reflexivity].
  - intros (i & Hi & ->). exists i. split; [reflexivity|]. apply in_seq. lia.
Qed.

(** What the loop does in one direction: it flips the run when a piece of
    the mover closes it and leaves the model as it is otherwise. *)
Lemma flipDirection_run fuel k model player d move :
  isSquareValid move = true -> In d playDirections -> (8 <= fuel + k)%nat ->
  (forall i, (1 <= i <= k)%nat ->
     isSquareValid (walk move d i) = true /\
     getBoardPiece model (walk move d i) = opponentPieceOf player) ->
  let result :=
    flipDirection fuel model (pieceOf player) (opponentPieceOf player) d
      (walk move d (S k)) (ray move d k) in
  (exists n, run model player move d n /\
     result = flipList model (pieceOf player) (ray move d n)) \/
  ((forall n, ~ run model player move d n) /\ result = model).
Proof.
  intros Hmove Hd. pose proof Hd as Hd'. apply In_playDirections in Hd'.
  destruct (pieceOf_opponentPieceOf player) as (Hne & Hown & Hopp).
  revert k. induction fuel as [|fuel IH]; intros k Hfuel Hcells result; subst result.
  - right. split; [|reflexivity]. intros n (Hrun & Hv & Hp).
    destruct (le_lt_dec (S n) k) as [Hle|Hgt].
    + destruct (Hcells (S n)) as [_ H]; [lia|]. congruence.
    + assert (Hv' : isSquareValid (walk move d (S k)) = true).
      { destruct (Nat.eq_dec n k) as [->|]; [exact Hv|]. apply Hrun. lia. }
      apply walk_leaves_board in Hv'; auto. lia.
  - cbn [flipDirection].
    assert (Hnorun : getBoardPiece model (walk move d (S k)) <> pieceOf player ->
              (isSquareValid (walk move d (S k)) = false \/
               getBoardPiece model (walk move d (S k)) <> opponentPieceOf player) ->
              forall n, ~ run model player move d n).
    { intros Hnown Hnopp n (Hrun & Hv & Hp).
      destruct (lt_eq_lt_dec n k) as [[Hlt|Heq]|Hlt].
      - destruct (Hcells (S n)) as [_ H]; [lia|]. congruence.
      - subst n. congruence.
      - destruct (Hrun (S k)) as [Hv' Hp']; [lia|]. destruct Hnopp; congruence. }
    destruct (isSquareValid (walk move d (S k))) eqn:Hv.
    2:{ right. split; [|reflexivity]. intros n (Hrun & Hv' & Hp).
        destruct (lt_eq_lt_dec n k) as [[Hlt|Heq]|Hlt].
        - destruct (Hcells (S n)) as [_ H]; [lia|]. congruence.
        - subst n. congruence.
        - destruct (Hrun (S k)) as [Hv'' _]; [lia|]. congruence. }
    destruct (Piece_eqb _ PIECE_EMPTY) eqn:Hempty.
    { apply Piece_eqb_eq in Hempty. right. split; [|reflexivity].
      apply Hnorun; [congruence|right; congruence]. }
    apply Piece_eqb_neq in Hempty.
    destruct (Piece_eqb _ (opponentPieceOf player)) eqn:Hisopp.
    + apply Piece_eqb_eq in Hisopp.
      destruct (Piece_eqb _ (pieceOf player)) eqn:Hisown.
      { apply Piece_eqb_eq in Hisown. congruence. }
      rewrite <- ray_S.
      replace (stepSquare (walk move d (S k)) d) with (walk move d (S (S k)))
        by (unfold walk, stepSquare; simpl x; simpl y; f_equal; lia).
      apply IH; [lia|]. intros i Hi.
      destruct (Nat.eq_dec i (S k)) as [->|]; [auto|]. apply Hcells. lia.
    + apply Piece_eqb_neq in Hisopp.
      destruct (Piece_eqb _ (pieceOf player)) eqn:Hisown.
      * apply Piece_eqb_eq in Hisown. left. exists k. split; [split; [exact Hcells|split; assumption]|].
        unfold flipList. destruct (ray move d k) eqn:Hray; reflexivity.
      * apply Piece_eqb_neq in Hisown. exfalso.
        destruct (piece_cases player (getBoardPiece model (walk move d (S k))))
          as [?|[?|?]]; congruence.
Qed.

Lemma setCell_wf b square piece : wf_board b -> wf_board (setCell b square piece).
Proof.
  intros [Hlen Hrows]. unfold setCell.
  destruct (isSquareValid square); [|split; assumption].
  destruct (b !! Z.to_nat (y square)) as [row|] eqn:Hrow; [|split; assumption].
  split.
  - rewrite length_insert. exact Hlen.
  - apply Forall_insert; [exact Hrows|]. rewrite length_insert.
    rewrite Forall_forall in Hrows. apply Hrows.
    eapply list_elem_of_lookup_2; eassumption.
Qed.

Lemma flipList_wf model piece toFlip :
  wf_board (board model) -> wf_board (board (flipList model piece toFlip)).
Proof.
  unfold flipList. revert model. induction toFlip as [|sq l IH]; intros model H; simpl; [exact H|].
  apply IH. unfold setBoardPiece. simpl. apply setCell_wf, H.
Qed.

Lemma flipList_cell model piece toFlip square :
  wf_board (board model) -> List.Forall (fun sq => isSquareValid sq = true) toFlip ->
  (In square toFlip -> getBoardPiece (flipList model piece toFlip) square = piece) /\
  (~ In square toFlip ->
   getBoardPiece (flipList model piece toFlip) square = getBoardPiece model square).
Proof.
  unfold flipList. revert model.
  induction toFlip as [|sq l IH]; intros model Hwf Hvalid; simpl.
  { split; [intros []|reflexivity]. }
  inversion Hvalid as [|? ? Hsq Hl]; subst.
  assert (Hwf' : wf_board (board (setBoardPiece model sq piece))).
  { unfold setBoardPiece. simpl. apply setCell_wf, Hwf. }
  destruct (IH (setBoardPiece model sq piece) Hwf' Hl) as [IH1 IH2].
  split.
  - intros [->|Hin].
    + destruct (in_dec Square_eq_dec square l) as [Hin|Hnin]; [auto|].
      rewrite IH2 by assumption. unfold getBoardPiece, setBoardPiece. simpl.
      apply cellAt_setCell_same; assumption.
    + auto.
  - intros Hnin. rewrite IH2 by tauto.
    apply getBoardPiece_setBoardPiece_other. intros ->. tauto.
Qed.

Lemma captured_capturedIn model player move square :
  captured model player move square <->
  exists d, In d directions /\ capturedIn model player move d square.
Proof.
  unfold captured, capturedIn. split.
  - intros (d & n & i & Hd & H). exists d. split; [exact Hd|]. exists n, i. exact H.
  - intros (d & Hd & n & i & H). exists d, n, i. tauto.
Qed.

Lemma ray_valid model player move d n :
  run model player move d n -> List.Forall (fun sq => isSquareValid sq = true) (ray move d n).
Proof.
  intros (Hrun & _). apply List.Forall_forall. intros sq Hin.
  apply In_ray in Hin as (i & Hi & ->). apply Hrun, Hi.
Qed.

Lemma flipDirection_sameBoard_wf fuel model piece enemyPiece d current toFlip :
  wf_board (board model) ->
  wf_board (board (flipDirection fuel model piece enemyPiece d current toFlip)).
Proof.
  revert current toFlip. induction fuel as [|fuel IH]; intros current toFlip H; cbn [flipDirection].
  { exact H. }
  repeat match goal with
         | |- context [if ?c then _ else _] => destruct c
         end;
    try assumption; try (apply IH; assumption);
    apply (flipList_wf model piece); assumption.
Qed.

Lemma flipDirection_cell model player d move square :
  wf_board (board model) -> isSquareValid move = true -> In d playDirections ->
  let model' :=
    flipDirection (Z.to_nat BOARD_SIZE) model (pieceOf player) (opponentPieceOf player) d
      (stepSquare move d) [] in
  (capturedIn model player move d square -> getBoardPiece model' square = pieceOf player) /\
  (~ capturedIn model player move d square ->
   getBoardPiece model' square = getBoardPiece model square).
Proof.
  intros Hwf Hmove Hd model'. subst model'.
  replace (stepSquare move d) with (walk move d 1)
    by (unfold walk, stepSquare; simpl x; simpl y; f_equal; lia).
  change (@nil Square) with (ray move d 0).
  destruct (flipDirection_run (Z.to_nat BOARD_SIZE) 0 model player d move Hmove Hd
              ltac:(change (Z.to_nat BOARD_SIZE) with 8%nat; lia) ltac:(intros i Hi; lia))
    as [(n & Hrun & ->)|(Hnorun & ->)].
  - destruct (flipList_cell model (pieceOf player) (ray move d n) square Hwf
                (ray_valid _ _ _ _ _ Hrun)) as [H1 H2].
    split.
    + intros (n' & i & Hrun' & Hi & ->). apply H1.
      rewrite (run_unique _ _ _ _ _ _ Hrun Hrun'). apply In_ray. exists i. split; [exact Hi|reflexivity].
    + intros Hncap. apply H2. intros Hin. apply In_ray in Hin as (i & Hi & ->).
      apply Hncap. exists n, i. split; [exact Hrun|]. split; [exact Hi|reflexivity].
  - split; [|reflexivity]. intros (n & i & Hrun & _). destruct (Hnorun n Hrun).
Qed.

Lemma rays_disjoint move d d' i j :
  In d directions -> In d' directions -> d <> d' -> (1 <= i)%nat -> (1 <= j)%nat ->
  walk move d i <> walk move d' j.
Proof.
  intros Hd Hd' Hne Hi Hj Heq. unfold walk in Heq. injection Heq as Hx Hy.
  unfold directions in *. simpl in Hd, Hd'.
  repeat (destruct Hd as [<-|Hd]; [|]); try destruct Hd;
  repeat (destruct Hd' as [<-|Hd']; [|]); try destruct Hd';
  simpl in Hx, Hy; try (exfalso; apply Hne; reflexivity); lia.
Qed.

Lemma walk_not_move move d i : In d directions -> (1 <= i)%nat -> walk move d i <> move.
Proof.
  intros Hd Hi Heq. destruct move as [mx my]. unfold walk in Heq. injection Heq as Hx Hy.
  simpl in Hx, Hy. unfold directions in Hd. simpl in Hd.
  repeat (destruct Hd as [<-|Hd]; [simpl in Hx, Hy; lia|]). destruct Hd.
Qed.

(** A run depends on the cells of its own direction only. *)
Lemma run_ext model model' player move d n :
  (forall i, (1 <= i)%nat ->
     getBoardPiece model' (walk move d i) = getBoardPiece model (walk move d i)) ->
  run model player move d n -> run model' player move d n.
Proof.
  intros Hsame (Hrun & Hv & Hp). split; [|split; [exact Hv|rewrite Hsame by lia; exact Hp]].
  intros i Hi. destruct (Hrun i Hi) as [H1 H2]. split; [exact H1|]. rewrite Hsame by lia. exact H2.
Qed.

Lemma capturedIn_ext model model' player move d square :
  (forall i, (1 <= i)%nat ->
     getBoardPiece model' (walk move d i) = getBoardPiece model (walk move d i)) ->
  capturedIn model player move d square <-> capturedIn model' player move d square.
Proof.
  intros Hsame. split; intros (n & i & Hrun & Hi); exists n, i; (split; [|exact Hi]).
  - eapply run_ext; [|exact Hrun]. exact Hsame.
  - eapply run_ext; [|exact Hrun]. intros. symmetry. apply Hsame. assumption.
Qed.

(** The loop over a list of distinct directions. *)
Lemma flipDirections_cell player move ds :
  isSquareValid move = true -> List.NoDup ds -> (forall d, In d ds -> In d directions) ->
  forall model square, wf_board (board model) ->
  let model' :=
    fold_left (fun model d =>
      flipDirection (Z.to_nat BOARD_SIZE) model (pieceOf player) (opponentPieceOf player) d
        (stepSquare move d) []) ds model in
  ((exists d, In d ds /\ capturedIn model player move d square) ->
   getBoardPiece model' square = pieceOf player) /\
  ((forall d, In d ds -> ~ capturedIn model player move d square) ->
   getBoardPiece model' square = getBoardPiece model square).
Proof.
  intros Hmove Hnodup Hsub. induction ds as [|d ds IH]; intros model square Hwf model'.
  { subst model'. simpl. split; [intros (d & [] & _)|reflexivity]. }
  subst model'. cbn [fold_left].
  set (model1 := flipDirection _ model _ _ d _ []).
  inversion Hnodup as [|? ? Hnotin Hnodup']; subst.
  assert (Hd : In d directions) by (apply Hsub; left; reflexivity).
  assert (Hd' : In d playDirections) by (apply In_playDirections, Hd).
  assert (Hwf1 : wf_board (board model1)) by (apply flipDirection_sameBoard_wf, Hwf).
  assert (Hstep : forall sq,
            (capturedIn model player move d sq -> getBoardPiece model1 sq = pieceOf player) /\
            (~ capturedIn model player move d sq ->
             getBoardPiece model1 sq = getBoardPiece model sq)).
  { intros sq. apply flipDirection_cell; assumption. }
  assert (Hother : forall d' sq, In d' ds ->
            (capturedIn model player move d' sq <-> capturedIn model1 player move d' sq)).
  { intros d' sq Hin. apply capturedIn_ext. intros i Hi. apply Hstep.
    intros (n & j & _ & Hj & Heq). revert Heq.
    apply rays_disjoint;
      [apply Hsub; right; exact Hin|exact Hd|intros ->; contradiction|lia|lia]. }
  destruct (IH Hnodup' (fun d' H => Hsub d' (or_intror H)) model1 square Hwf1) as [IH1 IH2].
  cbv zeta in IH1, IH2. split.
  - intros (d0 & [<-|Hin] & Hcap).
    + assert (Hnone : forall d', In d' ds -> ~ capturedIn model1 player move d' square).
      { intros d' Hin (n' & j & _ & Hj & Heq). destruct Hcap as (n & i & _ & Hi & ->).
        revert Heq.
        apply rays_disjoint;
          [exact Hd|apply Hsub; right; exact Hin|intros ->; contradiction|lia|lia]. }
      rewrite (IH2 Hnone). apply Hstep, Hcap.
    + apply IH1. exists d0. split; [exact Hin|]. apply Hother; assumption.
  - intros Hnone. rewrite IH2.
    + apply Hstep, Hnone. left. reflexivity.
    + intros d' Hin Hcap. apply (Hnone d'); [right; exact Hin|]. apply Hother; assumption.
Qed.

Lemma playDirections_NoDup : List.NoDup playDirections.
Proof.
  unfold playDirections.
  repeat (constructor; [simpl; intuition discriminate|]). constructor.
Qed.

Lemma flipAll_wf model move piece enemyPiece :
  wf_board (board model) -> wf_board (board (flipAll model move piece enemyPiece)).
Proof.
  unfold flipAll. revert model.
  induction playDirections as [|d ds IH]; intros m Hm; cbn [fold_left]; [assumption|].
  apply IH, flipDirection_sameBoard_wf, Hm.
Qed.

Lemma run_setBoardPiece model player move d n piece :
  In d directions ->
  run (setBoardPiece model move piece) player move d n <-> run model player move d n.
Proof.
  intros Hd. split; apply run_ext; intros i Hi.
  - symmetry. apply getBoardPiece_setBoardPiece_other, walk_not_move; assumption.
  - apply getBoardPiece_setBoardPiece_other, walk_not_move; assumption.
Qed.

Lemma captured_not_move model player move : ~ captured model player move move.
Proof.
  intros (d & n & i & Hd & _ & Hi & Heq). symmetry in Heq. revert Heq.
  apply walk_not_move; [assumption|lia].
Qed.

Lemma playMove_cells GetTime model move square :
  wf_board (board model) -> isSquareValid move = true ->
  let after := snd (playMove GetTime model move) in
  (square = move \/ captured model (currentPlayer model) move square ->
   getBoardPiece after square = pieceOf (currentPlayer model)) /\
  (square <> move -> ~ captured model (currentPlayer model) move square ->
   getBoardPiece after square = getBoardPiece model square).
Proof.
  intros Hwf Hmove after. subst after.
  set (player := currentPlayer model).
  set (placed := setBoardPiece model move (pieceOf player)).
  assert (Hafter : getBoardPiece (snd (playMove GetTime model move)) square
                   = getBoardPiece (flipAll placed move (pieceOf player) (opponentPieceOf player))
                       square).
  { unfold getBoardPiece at 1. rewrite playMove_board. reflexivity. }
  rewrite Hafter. clear Hafter.
  assert (Hwfp : wf_board (board placed)).
  { unfold placed, setBoardPiece. simpl. apply setCell_wf, Hwf. }
  destruct (flipDirections_cell player move playDirections Hmove playDirections_NoDup
              (fun d => proj1 (In_playDirections d)) placed square Hwfp) as [H1 H2].
  cbv zeta in H1, H2. fold (flipAll placed move (pieceOf player) (opponentPieceOf player)) in H1, H2.
  assert (Hcap : forall d, In d directions ->
            (capturedIn placed player move d square <-> capturedIn model player move d square)).
  { intros d Hd. unfold capturedIn. split; intros (n & i & Hrun & Hi); exists n, i;
      (split; [|exact Hi]); apply (run_setBoardPiece model player move d n (pieceOf player) Hd);
      exact Hrun. }
  split.
  - intros [->|Hc].
    + rewrite H2.
      * unfold placed, getBoardPiece, setBoardPiece. simpl. apply cellAt_setCell_same; assumption.
      * intros d Hd (n & i & _ & Hi & Heq). symmetry in Heq. revert Heq.
        apply walk_not_move; [apply In_playDirections, Hd|lia].
    + apply H1. apply captured_capturedIn in Hc as (d & Hd & Hc).
      exists d. split; [apply In_playDirections, Hd|]. apply Hcap; assumption.
  - intros Hne Hnc. rewrite H2.
    + apply getBoardPiece_setBoardPiece_other, Hne.
    + intros d Hd Hc. apply Hnc. apply captured_capturedIn. exists d.
      split; [apply In_playDirections, Hd|]. apply Hcap; [apply In_playDirections, Hd|exact Hc].
Qed.

(** X1: on a board of the right shape, [playMove] at a square of the board leaves the mover's piece on the played square and on every square of a run of opponent pieces that the move brackets, in any of the eight directions, and leaves every other square as it was. *)
Theorem playMove_captures GetTime model move square :
  wf_board (board model) -> isSquareValid move = true ->
  let after := snd (playMove GetTime model move) in
  (square = move \/ captured model (currentPlayer model) move square ->
   getBoardPiece after square = pieceOf (currentPlayer model)) /\
  (square <> move -> ~ captured model (currentPlayer model) move square ->
   getBoardPiece after square = getBoardPiece model square).
Proof. intros Hwf Hmove. apply playMove_cells; assumption. Qed.

(** X1 at the initial position: the opening move (3, 2) turns the piece at (3, 3). *)
Lemma playMove_captures_witness :
  getBoardPiece (snd (playMove 1%float start0 (mkSquare 3 2))) (mkSquare 3 3) = PIECE_BLACK.
Proof.
  apply (playMove_captures 1%float start0 (mkSquare 3 2) (mkSquare 3 3)
           (wf_board_start _ _) eq_refl).
  right. exists (0, 1), 1%nat, 1%nat. split; [vm_compute; tauto|].
  split; [|split; [lia|reflexivity]].
  split; [|split; reflexivity]. intros i Hi. assert (i = 1%nat) as -> by lia.
  split; reflexivity.
Defined.

(** ** What a move can change *)

Lemma flipList_changes model piece toFlip square :
  getBoardPiece (flipList model piece toFlip) square = getBoardPiece model square \/
  (In square toFlip /\ getBoardPiece (flipList model piece toFlip) square = piece).
Proof.
  unfold flipList. revert model. induction toFlip as [|sq l IH]; intros model; simpl.
  { left. reflexivity. }
  destruct (IH (setBoardPiece model sq piece)) as [H|[Hin H]].
  - destruct (Square_eq_dec square sq) as [->|Hne].
    + unfold getBoardPiece, setBoardPiece in H. simpl in H.
      destruct (cellAt_setCell (board model) sq sq piece) as [Hc|Hc]; rewrite Hc in H.
      * right. split; [left; reflexivity|exact H].
      * left. exact H.
    + left. rewrite H. apply getBoardPiece_setBoardPiece_other, Hne.
  - right. split; [right; exact Hin|exact H].
Qed.

Lemma flipDirection_changes fuel model piece enemyPiece d current toFlip square :
  List.Forall (fun sq => getBoardPiece model sq = enemyPiece) toFlip ->
  flippedOrSame piece enemyPiece model
    (flipDirection fuel model piece enemyPiece d current toFlip) square.
Proof.
  revert current toFlip. induction fuel as [|fuel IH]; intros current toFlip Hflip;
    cbn [flipDirection]; [left; reflexivity|].
  destruct (isSquareValid current); [|left; reflexivity].
  destruct (Piece_eqb _ PIECE_EMPTY); [left; reflexivity|].
  assert (Hflip' : List.Forall (fun sq => getBoardPiece model sq = enemyPiece)
                     (if Piece_eqb (getBoardPiece model current) enemyPiece
                      then toFlip ++ [current] else toFlip)).
  { destruct (Piece_eqb _ enemyPiece) eqn:He; [|exact Hflip].
    apply Piece_eqb_eq in He. apply List.Forall_app. split; [exact Hflip|].
    constructor; [exact He|constructor]. }
  destruct (Piece_eqb _ piece); [|apply IH, Hflip'].
  destruct (0 <? _); [|left; reflexivity].
  match goal with |- flippedOrSame _ _ _ (fold_left _ ?l _) _ =>
    destruct (flipList_changes model piece l square) as [H|[Hin H]]
  end.
  - left. exact H.
  - right. split; [|exact H]. rewrite List.Forall_forall in Hflip'. apply Hflip', Hin.
Qed.

Lemma flippedOrSame_trans piece enemyPiece m1 m2 m3 square :
  flippedOrSame piece enemyPiece m1 m2 square -> flippedOrSame piece enemyPiece m2 m3 square ->
  flippedOrSame piece enemyPiece m1 m3 square.
Proof.
  unfold flippedOrSame. intros [H1|[H1 H1']] [H2|[H2 H2']].
  - left. congruence.
  - right. split; congruence.
  - right. split; congruence.
  - right. split; congruence.
Qed.

Lemma flipAll_changes model move piece enemyPiece square :
  flippedOrSame piece enemyPiece model (flipAll model move piece enemyPiece) square.
Proof.
  unfold flipAll. revert model.
  induction playDirections as [|d ds IH]; intros m; cbn [fold_left]; [left; reflexivity|].
  eapply flippedOrSame_trans; [|apply IH]. apply flipDirection_changes. constructor.
Qed.

Lemma playMove_changes GetTime model move square :
  let after := snd (playMove GetTime model move) in
  (getBoardPiece model square <> PIECE_EMPTY -> getBoardPiece after square <> PIECE_EMPTY) /\
  (square <> move ->
   getBoardPiece after square = getBoardPiece model square \/
   (getBoardPiece model square = opponentPieceOf (currentPlayer model) /\
    getBoardPiece after square = pieceOf (currentPlayer model))).
Proof.
  intros after. subst after.
  set (player := currentPlayer model).
  set (placed := setBoardPiece model move (pieceOf player)).
  assert (Hafter : getBoardPiece (snd (playMove GetTime model move)) square
                   = getBoardPiece (flipAll placed move (pieceOf player) (opponentPieceOf player))
                       square).
  { unfold getBoardPiece at 1. rewrite playMove_board. reflexivity. }
  rewrite Hafter. clear Hafter.
  pose proof (flipAll_changes placed move (pieceOf player) (opponentPieceOf player) square) as H.
  destruct (pieceOf_opponentPieceOf player) as (_ & Hown & Hopp).
  split.
  - intros Hne.
    assert (Hplaced : getBoardPiece placed square <> PIECE_EMPTY).
    { unfold placed, getBoardPiece, setBoardPiece. simpl.
      destruct (cellAt_setCell (board model) square move (pieceOf player)) as [-> | ->];
        assumption. }
    destruct H as [H|[_ H]]; congruence.
  - intros Hne.
    assert (Hplaced : getBoardPiece placed square = getBoardPiece model square)
      by (apply getBoardPiece_setBoardPiece_other, Hne).
    unfold flippedOrSame in H. rewrite Hplaced in H. exact H.
Qed.

(** X2: [playMove] never empties a square, and a square other than the played one either keeps its piece or goes from the opponent's piece to the mover's. *)
Theorem playMove_only_flips GetTime model move square :
  let after := snd (playMove GetTime model move) in
  (getBoardPiece model square <> PIECE_EMPTY -> getBoardPiece after square <> PIECE_EMPTY) /\
  (square <> move ->
   getBoardPiece after square = getBoardPiece model square \/
   (getBoardPiece model square = opponentPieceOf (currentPlayer model) /\
    getBoardPiece after square = pieceOf (currentPlayer model))).
Proof. apply playMove_changes. Qed.

Lemma playMove_wf GetTime model move :
  wf_board (board model) -> wf_board (board (snd (playMove GetTime model move))).
Proof.
  intros Hwf. rewrite playMove_board. apply flipAll_wf.
  unfold setBoardPiece. simpl. apply setCell_wf, Hwf.
Qed.

(** X3: every state reached from the seeded position by legal moves has a board of 8 rows of 8 cells. *)
Theorem reachable_wf model : reachable model -> wf_board (board model).
Proof.
  induction 1 as [GetTime model|GetTime model move _ IH _].
  - apply wf_board_start.
  - apply playMove_wf, IH.
Qed.

(** X3 after the opening move (3, 2). *)
Lemma reachable_wf_witness : wf_board (board (snd (playMove 1%float start0 (mkSquare 3 2)))).
Proof.
  apply reachable_wf. apply reachable_play; [apply reachable_start|]. vm_compute. auto.
Defined.

(** ** Counting pieces *)

Lemma boardSquares_NoDup : List.NoDup boardSquares.
Proof. eapply StronglySorted_NoDup; [apply rowMajor_lt_irrefl|apply boardSquares_sorted]. Qed.

Lemma In_boardSquares square : In square boardSquares <-> isSquareValid square = true.
Proof. rewrite <- list_elem_of_In. apply elem_of_boardSquares. Qed.

Lemma filter_length_mono {A} (f g : A -> bool) l :
  (forall a, In a l -> f a = true -> g a = true) ->
  (length (List.filter f l) <= length (List.filter g l))%nat.
Proof.
  induction l as [|a l IH]; intros H; simpl; [lia|].
  assert (IH' := IH (fun b Hb => H b (or_intror Hb))).
  pose proof (H a (or_introl eq_refl)) as Ha.
  destruct (f a), (g a); simpl; try lia; discriminate (Ha eq_refl).
Qed.

Lemma filter_length_add_one {A} (f g : A -> bool) l a :
  List.NoDup l -> In a l -> f a = false -> g a = true ->
  (forall b, In b l -> b <> a -> g b = f b) ->
  length (List.filter g l) = S (length (List.filter f l)).
Proof.
  intros Hnodup. induction Hnodup as [|c l Hnotin Hnodup IH]; intros Hin Hf Hg Hsame.
  { destruct Hin. }
  simpl. destruct Hin as [->|Hin].
  - rewrite Hf, Hg. simpl. f_equal. f_equal. apply filter_ext_in.
    intros b Hb. apply Hsame; [right; exact Hb|]. intros ->. contradiction.
  - rewrite (Hsame c); [|left; reflexivity|intros ->; contradiction].
    specialize (IH Hin Hf Hg (fun b Hb => Hsame b (or_intror Hb))).
    destruct (f c); simpl; lia.
Qed.

Lemma countSquares_add_one (f g : Square -> bool) a :
  isSquareValid a = true -> f a = false -> g a = true ->
  (forall b, isSquareValid b = true -> b <> a -> g b = f b) ->
  countSquares g = countSquares f + 1.
Proof.
  intros Ha Hf Hg Hsame. rewrite !countSquares_filter.
  rewrite (filter_length_add_one f g boardSquares a boardSquares_NoDup); try assumption.
  - lia.
  - apply In_boardSquares, Ha.
  - intros b Hb. apply Hsame, In_boardSquares, Hb.
Qed.

Lemma countSquares_mono (f g : Square -> bool) :
  (forall a, isSquareValid a = true -> f a = true -> g a = true) ->
  countSquares f <= countSquares g.
Proof.
  intros H. rewrite !countSquares_filter. apply inj_le, filter_length_mono.
  intros a Ha. apply H, In_boardSquares, Ha.
Qed.

Lemma countSquares_ext (f g : Square -> bool) :
  (forall a, isSquareValid a = true -> f a = g a) -> countSquares f = countSquares g.
Proof.
  intros H. rewrite !countSquares_filter. f_equal. f_equal. apply filter_ext_in.
  intros a Ha. apply H, In_boardSquares, Ha.
Qed.

Lemma countSquares_disjoint (f g : Square -> bool) :
  (forall a, f a && g a = false) ->
  countSquares (fun a => f a || g a) = countSquares f + countSquares g.
Proof.
  intros H. rewrite !countSquares_filter.
  induction boardSquares as [|a l IH]; simpl; [reflexivity|].
  specialize (H a). destruct (f a), (g a); simpl in *; try discriminate; lia.
Qed.

Lemma getScore_pieceOf model player :
  getScore model player
  = countSquares (fun square => Piece_eqb (getBoardPiece model square) (pieceOf player)).
Proof.
  unfold getScore. apply countSquares_ext. intros a _.
  destruct player, (getBoardPiece model a); reflexivity.
Qed.

Lemma getScore_sum model :
  getScore model PLAYER_BLACK + getScore model PLAYER_WHITE = totalPiecesOf model.
Proof.
  rewrite !getScore_pieceOf. unfold totalPiecesOf.
  rewrite <- countSquares_disjoint.
  - apply countSquares_ext. intros a _. destruct (getBoardPiece model a); reflexivity.
  - intros a. destruct (getBoardPiece model a); reflexivity.
Qed.

(** X4: the two scores of [getScore] add up to the number of pieces on the board, and pieces and empty squares add up to 64. *)
Theorem getScore_total model :
  getScore model PLAYER_BLACK + getScore model PLAYER_WHITE = totalPiecesOf model /\
  totalPiecesOf model + emptySquaresOf model = 64.
Proof. split; [apply getScore_sum|apply totalPieces_emptySquares]. Qed.

Lemma getScore_both model player :
  getScore model player + getScore model (otherPlayer player) = totalPiecesOf model.
Proof.
  rewrite <- (getScore_sum model).
  destruct player; [change (otherPlayer PLAYER_BLACK) with PLAYER_WHITE
                   |change (otherPlayer PLAYER_WHITE) with PLAYER_BLACK]; lia.
Qed.

Lemma playMove_totalPieces GetTime model move :
  wf_board (board model) -> isSquareValid move = true ->
  getBoardPiece model move = PIECE_EMPTY ->
  totalPiecesOf (snd (playMove GetTime model move)) = totalPiecesOf model + 1.
Proof.
  intros Hwf Hmove Hempty. unfold totalPiecesOf.
  apply (countSquares_add_one _ _ move Hmove).
  - rewrite Hempty. reflexivity.
  - rewrite (playMove_places GetTime model move Hwf Hmove).
    destruct (currentPlayer model); reflexivity.
  - intros b _ Hne.
    destruct (playMove_changes GetTime model move b) as [_ H]. cbv zeta in H.
    destruct (H Hne) as [->|[H1 H2]]; [reflexivity|]. rewrite H1, H2.
    destruct (currentPlayer model); reflexivity.
Qed.

(** X5: [playMove] on an empty square of the board adds exactly one piece to the board, whether or not the move is legal. *)
Theorem playMove_adds_one GetTime model move :
  wf_board (board model) -> isSquareValid move = true ->
  getBoardPiece model move = PIECE_EMPTY ->
  totalPiecesOf (snd (playMove GetTime model move)) = totalPiecesOf model + 1.
Proof. apply playMove_totalPieces. Qed.

(** X5 at the initial position and the corner (0, 0). *)
Lemma playMove_adds_one_witness :
  totalPiecesOf (snd (playMove 1%float start0 (mkSquare 0 0))) = totalPiecesOf start0 + 1.
Proof.
  apply (playMove_adds_one 1%float start0 (mkSquare 0 0) (wf_board_start _ _) eq_refl eq_refl).
Defined.

Lemma getValidMoves_move model move :
  In move (getValidMoves model) ->
  isSquareValid move = true /\ getBoardPiece model move = PIECE_EMPTY /\
  exists d, In d directions /\ brackets model (currentPlayer model) move d.
Proof.
  intros Hin. apply In_getValidMoves in Hin as [Hv Hm].
  apply isValidMove_spec in Hm; tauto.
Qed.

(** X6: a legal move raises the mover's score by at least 2 and lowers the opponent's by at least 1; the sum of the two scores grows by 1. *)
Theorem playMove_legal_scores GetTime model move :
  wf_board (board model) -> In move (getValidMoves model) ->
  let player := currentPlayer model in
  let after := snd (playMove GetTime model move) in
  getScore model player + 2 <= getScore after player /\
  getScore after (otherPlayer player) + 1 <= getScore model (otherPlayer player) /\
  getScore after player + getScore after (otherPlayer player)
  = getScore model player + getScore model (otherPlayer player) + 1.
Proof.
  intros Hwf Hin player after.
  destruct (getValidMoves_move model move Hin) as (Hmove & Hempty & d & Hd & Hbr).
  destruct (pieceOf_opponentPieceOf player) as (Hne & Hown & Hopp).
  assert (Hsum : forall m, getScore m player + getScore m (otherPlayer player)
                           = totalPiecesOf m).
  { intros m. apply getScore_both. }
  assert (Htotal : totalPiecesOf after = totalPiecesOf model + 1)
    by (apply playMove_totalPieces; assumption).
  assert (Hgain : getScore model player + 2 <= getScore after player).
  { apply brackets_run in Hbr as (n & Hn & Hrun).
    set (first := walk move d 1).
    assert (Hfirst : isSquareValid first = true /\
                     getBoardPiece model first = opponentPieceOf player).
    { apply Hrun. lia. }
    assert (Hfm : first <> move) by (apply walk_not_move; [exact Hd|lia]).
    destruct (playMove_cells GetTime model move first Hwf Hmove) as [Hcap _].
    destruct (playMove_cells GetTime model move move Hwf Hmove) as [Hcapm _].
    cbv zeta in Hcap, Hcapm. fold after player in Hcap, Hcapm.
    specialize (Hcapm (or_introl eq_refl)).
    assert (Hcapf : getBoardPiece after first = pieceOf player).
    { apply Hcap. right. exists d, n, 1%nat. repeat split; try apply Hrun; try lia; exact Hd. }
    rewrite !getScore_pieceOf.
    set (own := fun m square => Piece_eqb (getBoardPiece m square) (pieceOf player)).
    set (f1 := fun square => own model square || bool_decide (square = move)).
    set (f2 := fun square => f1 square || bool_decide (square = first)).
    assert (H1 : countSquares f1 = countSquares (own model) + 1).
    { apply (countSquares_add_one _ _ move Hmove).
      - unfold own. rewrite Hempty. apply Piece_eqb_neq. congruence.
      - unfold f1. rewrite bool_decide_eq_true_2 by reflexivity. apply orb_true_r.
      - intros b _ Hb. unfold f1. rewrite bool_decide_eq_false_2 by assumption.
        apply orb_false_r. }
    assert (H2 : countSquares f2 = countSquares f1 + 1).
    { apply (countSquares_add_one _ _ first (proj1 Hfirst)).
      - unfold f1, own. rewrite (proj2 Hfirst).
        rewrite bool_decide_eq_false_2 by assumption.
        rewrite orb_false_r. apply Piece_eqb_neq. congruence.
      - unfold f2. rewrite bool_decide_eq_true_2 by reflexivity. apply orb_true_r.
      - intros b _ Hb. unfold f2. rewrite bool_decide_eq_false_2 by assumption.
        apply orb_false_r. }
    assert (H3 : countSquares f2 <= countSquares (own after)).
    { apply countSquares_mono. intros a _. unfold f2, f1, own.
      rewrite !orb_true_iff, !bool_decide_eq_true, !Piece_eqb_eq.
      intros [[Ha| ->]| ->]; [|assumption|assumption].
      destruct (playMove_changes GetTime model move a) as [_ H]. cbv zeta in H.
      fold after player in H.
      destruct (Square_eq_dec a move) as [->|Hna]; [assumption|].
      destruct (H Hna) as [->|[_ ->]]; [exact Ha|reflexivity]. }
    change (countSquares (own model) + 2 <= countSquares (own after)). lia. }
  pose proof (Hsum model). pose proof (Hsum after). lia.
Qed.

(** X6 at the initial position and the opening move (3, 2). *)
Lemma playMove_legal_scores_witness :
  getScore start0 PLAYER_BLACK + 2
  <= getScore (snd (playMove 1%float start0 (mkSquare 3 2))) PLAYER_BLACK.
Proof.
  apply (playMove_legal_scores 1%float start0 (mkSquare 3 2) (wf_board_start _ _)).
  vm_compute. auto.
Defined.

(** ** Legal moves, turns and timers *)

(** X7: [getValidMoves] lists exactly the squares of the board that are empty and from which, in one of the eight directions, a run of one or more opponent pieces ends in a piece of the player to move. *)
Theorem getValidMoves_iff model move :
  In move (getValidMoves model) <->
  isSquareValid move = true /\ getBoardPiece model move = PIECE_EMPTY /\
  exists d, In d directions /\ brackets model (currentPlayer model) move d.
Proof.
  rewrite In_getValidMoves. split.
  - intros [Hv Hm]. split; [exact Hv|]. apply isValidMove_spec; assumption.
  - intros (Hv & Hm). split; [exact Hv|]. apply isValidMove_spec; assumption.
Qed.

Lemma flipped_turn model move piece enemyPiece :
  sameTurn model (flipAll (setBoardPiece model move piece) move piece enemyPiece).
Proof.
  eapply sameTurn_trans; [apply setBoardPiece_sameTurn|apply flipAll_sameTurn].
Qed.

(** X8: after [playMove] the opponent is to move when the opponent has a legal move on the new board; otherwise the turn stays with the mover. *)
Theorem playMove_turn GetTime model move :
  let after := snd (playMove GetTime model move) in
  let opponent := otherPlayer (currentPlayer model) in
  (getValidMoves (set_currentPlayer after opponent) <> [] -> currentPlayer after = opponent) /\
  (getValidMoves (set_currentPlayer after opponent) = [] ->
   currentPlayer after = currentPlayer model).
Proof.
  intros after opponent. subst after.
  rewrite playMove_unfold. cbn [snd].
  pose proof (flipped_turn model move (pieceOf (currentPlayer model))
                (opponentPieceOf (currentPlayer model))) as (_ & Hturn & _).
  remember (flipAll _ move _ _) as m0 eqn:Hm0. clear Hm0.
  set (m1 := swapPlayer (updateTimer GetTime m0)).
  assert (Hp1 : currentPlayer m1 = opponent).
  { unfold m1, swapPlayer, updateTimer. cbn. rewrite Hturn. reflexivity. }
  assert (Hmoves : forall r, board r = board m1 ->
            getValidMoves (set_currentPlayer r opponent) = getValidMoves m1).
  { intros r Hb. apply getValidMoves_ext; [exact Hb|]. cbn. symmetry. exact Hp1. }
  unfold checkGameOver. cbv zeta.
  destruct (length (getValidMoves m1) =? 0)%nat eqn:H1.
  - apply length_zero_iff in H1.
    assert (Hback : currentPlayer (swapPlayer m1) = currentPlayer model).
    { change (currentPlayer (swapPlayer m1)) with (otherPlayer (currentPlayer m1)).
      rewrite Hp1. apply otherPlayer_involutive. }
    destruct (length (getValidMoves (swapPlayer m1)) =? 0)%nat;
      (rewrite Hmoves by reflexivity); (split; [congruence|intros _; exact Hback]).
  - rewrite Hmoves by reflexivity. split; [intros _; exact Hp1|].
    intros He. rewrite He in H1. discriminate.
Qed.

(** X9: [playMove] sets the turn timer to the clock's reading, adds the time since the previous reading to the mover's clock, and leaves the opponent's clock as it was. *)
Theorem playMove_timer GetTime model move :
  let after := snd (playMove GetTime model move) in
  let player := currentPlayer model in
  turnTimer after = GetTime /\
  timeOf (playerTime after) player
  = (timeOf (playerTime model) player + (GetTime - turnTimer model))%float /\
  timeOf (playerTime after) (otherPlayer player) = timeOf (playerTime model) (otherPlayer player).
Proof.
  intros after player. subst after.
  rewrite playMove_unfold. cbn [snd].
  destruct (flipped_turn model move (pieceOf (currentPlayer model))
              (opponentPieceOf (currentPlayer model))) as (_ & Hp & Ht & Htt).
  remember (flipAll _ move _ _) as m0 eqn:Hm0. clear Hm0.
  set (m1 := swapPlayer (updateTimer GetTime m0)).
  assert (Hkeep : turnTimer (checkGameOver m1) = turnTimer m1 /\
                  playerTime (checkGameOver m1) = playerTime m1).
  { unfold checkGameOver. cbv zeta.
    destruct (length (getValidMoves m1) =? 0)%nat; [|split; reflexivity].
    destruct (length (getValidMoves (swapPlayer m1)) =? 0)%nat; split; reflexivity. }
  destruct Hkeep as [-> ->].
  unfold m1, swapPlayer, updateTimer. cbn. rewrite Hp, Ht, Htt. fold player.
  split; [reflexivity|]. destruct player; split; reflexivity.
Qed.

(** ** The evaluations *)

(** X10: the evaluation of the final engine lies between -7312 and 7312, strictly inside the range of a 32-bit [int], so it never equals the [INT_MIN] and [INT_MAX] the search starts from. *)
Theorem evaluate_no_overflow uninit model player :
  -7312 <= evaluate uninit model player <= 7312 /\
  INT_MIN < evaluate uninit model player < INT_MAX.
Proof.
  pose proof (evaluate_bound uninit model player). unfold INT_MIN, INT_MAX. lia.
Qed.

Lemma pieceOf_otherPlayer player :
  pieceOf (otherPlayer player) = opponentPieceOf player /\
  opponentPieceOf (otherPlayer player) = pieceOf player.
Proof. destruct player; split; reflexivity. Qed.

Lemma cornerValue_bound (test1 test2 : Square -> bool) corners a :
  a - 25 * Z.of_nat (length corners) <=
  fold_left (fun cornerValue corner =>
    if test1 corner then cornerValue + 25
    else if test2 corner then cornerValue - 25 else cornerValue) corners a
  <= a + 25 * Z.of_nat (length corners).
Proof.
  revert a. induction corners as [|c l IH]; intros a; simpl fold_left; simpl length; [lia|].
  destruct (test1 c); [|destruct (test2 c)].
  - specialize (IH (a + 25)). lia.
  - specialize (IH (a - 25)). lia.
  - specialize (IH a). lia.
Qed.

Lemma cornerValue_swap (test1 test2 : Square -> bool) corners a :
  (forall c, test1 c && test2 c = false) ->
  fold_left (fun cornerValue corner =>
    if test2 corner then cornerValue + 25
    else if test1 corner then cornerValue - 25 else cornerValue) corners (- a)
  = - fold_left (fun cornerValue corner =>
        if test1 corner then cornerValue + 25
        else if test2 corner then cornerValue - 25 else cornerValue) corners a.
Proof.
  intros Hdisj. revert a. induction corners as [|c l IH]; intros a; simpl fold_left; [reflexivity|].
  specialize (Hdisj c). destruct (test1 c), (test2 c); try discriminate.
  - rewrite <- IH. f_equal. lia.
  - rewrite <- IH. f_equal. lia.
  - apply IH.
Qed.

Lemma evaluate_basic_bound uninit model player : -292 <= evaluate_basic uninit model player <= 292.
Proof.
  unfold evaluate_basic. cbv zeta.
  pose proof (getScore_range model player).
  pose proof (getScore_range model (otherPlayer player)).
  pose proof (getValidMoves_length (tempModelFor uninit model player)).
  pose proof (getValidMoves_length (tempModelFor uninit model (otherPlayer player))).
  match goal with |- _ <= _ + fold_left ?f ?l 0 + _ <= _ =>
    pose proof (cornerValue_bound
      (fun corner => Piece_eqb (getBoardPiece model corner) (pieceOf player))
      (fun corner => Piece_eqb (getBoardPiece model corner) (opponentPieceOf player)) l 0) as Hc
  end.
  cbv beta in Hc. simpl length in Hc. lia.
Qed.

Lemma evaluate_minimax_bound model player : -64 <= evaluate_minimax model player <= 64.
Proof.
  unfold evaluate_minimax. cbv zeta.
  pose proof (getScore_range model player).
  pose proof (getScore_range model (otherPlayer player)). lia.
Qed.

(** X11: the evaluations of the two earlier engines are zero-sum: the value for the opponent is the negation of the value for the player. *)
Theorem evaluate_zero_sum uninit model player :
  evaluate_minimax model (otherPlayer player) = - evaluate_minimax model player /\
  evaluate_basic uninit model (otherPlayer player) = - evaluate_basic uninit model player.
Proof.
  split.
  - unfold evaluate_minimax. cbv zeta. rewrite otherPlayer_involutive. lia.
  - unfold evaluate_basic. cbv zeta. rewrite otherPlayer_involutive.
    destruct (pieceOf_otherPlayer player) as [-> ->].
    match goal with |- _ + fold_left _ ?l 0 + _ = _ =>
      pose proof (cornerValue_swap
        (fun corner => Piece_eqb (getBoardPiece model corner) (pieceOf player))
        (fun corner => Piece_eqb (getBoardPiece model corner) (opponentPieceOf player)) l 0) as Hc
    end.
    cbv beta in Hc. change (- 0) with 0 in Hc. rewrite Hc; [lia|].
    intros c. destruct (pieceOf_opponentPieceOf player) as (Hne & _).
    destruct (Piece_eqb _ (pieceOf player)) eqn:H1; [|reflexivity].
    apply Piece_eqb_eq in H1. apply Piece_eqb_neq. congruence.
Qed.

(** The final evaluation is not zero-sum: the bonuses of its mobility
    term go to one side only. *)
Lemma evaluate_not_zero_sum :
  evaluate model0 (cornerModel PLAYER_BLACK) PLAYER_BLACK
  + evaluate model0 (cornerModel PLAYER_BLACK) PLAYER_WHITE <> 0.
Proof. vm_compute. discriminate. Qed.

(** ** The root of the search *)

Section Root.

Variable GetTime : float.
Variable uninit : GameModel.

Lemma rootLoop_with_eq std_sort model validMoves searchDepth aiPlayer alpha beta bestMove
    bestValue n :
  rootLoop GetTime uninit std_sort model validMoves searchDepth aiPlayer alpha beta bestMove
    bestValue n
  = rootLoop_with GetTime uninit
      (fun newModel alpha beta n =>
         alphabeta GetTime uninit std_sort (Z.to_nat (searchDepth - 1)) newModel alpha beta false
           aiPlayer n)
      model validMoves alpha beta bestMove bestValue n.
Proof.
  revert alpha bestMove bestValue n.
  induction validMoves as [|m l IH]; intros alpha bestMove bestValue n;
    cbn [rootLoop rootLoop_with]; [reflexivity|].
  cbv zeta. destruct (alphabeta _ _ _ _ _ _ _ _ _ _) as [moveValue n1].
  destruct (bestValue <? moveValue); apply IH.
Qed.

Section Lockstep.

Variable MAX_NODES_of : Z.
Variable search : GameModel -> Z -> Z -> Z -> Z * Z.
Variable value : GameModel -> Z.
Variable model : GameModel.

Hypothesis search_counts : forall newModel alpha beta n, n + 1 <= snd (search newModel alpha beta n).
Hypothesis search_sound :
  forall newModel alpha beta n,
    INT_MIN <= alpha -> alpha < beta -> beta <= INT_MAX ->
    snd (search newModel alpha beta n) < MAX_NODES_of ->
    failSoft alpha beta (value newModel) (fst (search newModel alpha beta n)).
Hypothesis value_range : forall newModel, INT_MIN < value newModel < INT_MAX.

Lemma rootLoop_with_counts validMoves alpha beta bestMove bestValue n :
  n <= snd (rootLoop_with GetTime uninit search model validMoves alpha beta bestMove bestValue n).
Proof using search_counts.
  revert alpha bestMove bestValue n.
  induction validMoves as [|m l IH]; intros alpha bestMove bestValue n;
    cbn [rootLoop_with]; [simpl; lia|].
  cbv zeta.
  pose proof (search_counts (simulateMove GetTime model m uninit) alpha beta n) as Hc.
  destruct (search _ alpha beta n) as [moveValue n1]. cbn [snd] in Hc.
  destruct (bestValue <? moveValue); (etransitivity; [|apply IH]); lia.
Qed.

(** With [alpha] following the best value, the alpha-beta root keeps the
    move the minimax root keeps. *)
Lemma rootLoop_with_minimax validMoves bestMove bestValue n :
  INT_MIN <= bestValue < INT_MAX ->
  snd (rootLoop_with GetTime uninit search model validMoves bestValue INT_MAX bestMove
         bestValue n) < MAX_NODES_of ->
  fst (rootLoop_with GetTime uninit search model validMoves bestValue INT_MAX bestMove
         bestValue n)
  = rootLoop_minimax GetTime uninit value model validMoves bestMove bestValue.
Proof using search_counts search_sound value_range.
  revert bestMove bestValue n.
  induction validMoves as [|m l IH]; intros bestMove bestValue n Hrange Hbudget;
    cbn [rootLoop_with rootLoop_minimax] in *; [reflexivity|].
  cbv zeta in *.
  set (newModel := simulateMove GetTime model m uninit) in *.
  pose proof (search_counts newModel bestValue INT_MAX n) as Hc.
  pose proof (search_sound newModel bestValue INT_MAX n) as Hs.
  pose proof (value_range newModel) as Hv.
  destruct (search newModel bestValue INT_MAX n) as [moveValue n1]. cbn [fst snd] in *.
  assert (Hn1 : n1 < MAX_NODES_of).
  { destruct (bestValue <? moveValue);
      match type of Hbudget with snd (rootLoop_with _ _ _ _ ?l ?a ?b ?bm ?bv ?n) < _ =>
        pose proof (rootLoop_with_counts l a b bm bv n)
      end; lia. }
  specialize (Hs ltac:(lia) ltac:(lia) ltac:(lia) Hn1). unfold failSoft in Hs.
  destruct (Z.ltb_spec bestValue moveValue) as [Hlt|Hge];
    destruct (Z.ltb_spec bestValue (value newModel)) as [Hlt'|Hge']; try lia.
  - assert (moveValue = value newModel) as -> by lia. apply IH; [lia|exact Hbudget].
  - apply IH; [lia|exact Hbudget].
Qed.

(** The minimax root returns a move of maximal value: one of the list, or
    the incoming best move when no move of the list beats it. *)
Lemma rootLoop_minimax_max validMoves bestMove bestValue :
  let best := rootLoop_minimax GetTime uninit value model validMoves bestMove bestValue in
  (best = bestMove /\
   forall m, In m validMoves -> value (simulateMove GetTime model m uninit) <= bestValue) \/
  (In best validMoves /\ bestValue < value (simulateMove GetTime model best uninit) /\
   forall m, In m validMoves ->
     value (simulateMove GetTime model m uninit) <= value (simulateMove GetTime model best uninit)).
Proof.
  revert bestMove bestValue.
  induction validMoves as [|m l IH]; intros bestMove bestValue; cbn [rootLoop_minimax].
  { left. split; [reflexivity|intros m []]. }
  cbv zeta. set (v := value (simulateMove GetTime model m uninit)).
  destruct (Z.ltb_spec bestValue v) as [Hlt|Hge].
  - right. destruct (IH m v) as [[-> Hall]|(Hin & Hbest & Hall)].
    + split; [left; reflexivity|]. split; [exact Hlt|].
      intros m' [<-|Hm']; [fold v; lia|apply Hall, Hm'].
    + split; [right; exact Hin|]. split; [lia|].
      intros m' [<-|Hm']; [fold v; lia|apply Hall, Hm'].
  - destruct (IH bestMove bestValue) as [[-> Hall]|(Hin & Hbest & Hall)].
    + left. split; [reflexivity|]. intros m' [<-|Hm']; [exact Hge|apply Hall, Hm'].
    + right. split; [right; exact Hin|]. split; [exact Hbest|].
      intros m' [<-|Hm']; [fold v; lia|apply Hall, Hm'].
Qed.

End Lockstep.
End Root.

Lemma rowMajor_lt_asym a b : rowMajor_lt a b -> rowMajor_lt b a -> False.
Proof. unfold rowMajor_lt. lia. Qed.

Section MinimaxBound.

Variable GetTime : float.
Variable uninit : GameModel.
Variable evaluate_fn : GameModel -> Player -> Z.
Variables lo hi : Z.

Hypothesis lo_min : INT_MIN <= lo.
Hypothesis hi_max : hi <= INT_MAX.
Hypothesis evaluate_fn_bound : forall model player, lo <= evaluate_fn model player <= hi.

Lemma fold_max_bound (value : Square -> Z) l a :
  lo <= a <= hi -> (forall m, lo <= value m <= hi) ->
  lo <= fold_left (fun maxEval m => if maxEval <? value m then value m else maxEval) l a <= hi.
Proof using Type.
  intros Ha Hv. revert a Ha. induction l as [|m l IH]; intros a Ha; simpl; [exact Ha|].
  apply IH. specialize (Hv m). destruct (a <? value m); lia.
Qed.

Lemma fold_min_bound (value : Square -> Z) l a :
  lo <= a <= hi -> (forall m, lo <= value m <= hi) ->
  lo <= fold_left (fun minEval m => if value m <? minEval then value m else minEval) l a <= hi.
Proof using Type.
  intros Ha Hv. revert a Ha. induction l as [|m l IH]; intros a Ha; simpl; [exact Ha|].
  apply IH. specialize (Hv m). destruct (value m <? a); lia.
Qed.

(** The minimax value lies between the bounds of the evaluation: the
    initial [INT_MIN] and [INT_MAX] of the loops are replaced by the value
    of the first move. *)
Lemma minimax_with_bound depth model maximizingPlayer aiPlayer :
  lo <= minimax_with GetTime uninit evaluate_fn depth model maximizingPlayer aiPlayer <= hi.
Proof using lo_min hi_max evaluate_fn_bound.
  revert model maximizingPlayer.
  induction depth as [|depth IH]; intros model mx; cbn [minimax_with];
    [apply evaluate_fn_bound|].
  destruct (gameOver model); [apply evaluate_fn_bound|].
  cbv zeta.
  destruct (getValidMoves model) as [|m l]; cbn [length Nat.eqb].
  - destruct (length (getValidMoves (passModel uninit model)) =? 0)%nat;
      [apply evaluate_fn_bound|apply IH].
  - destruct mx; cbn [fold_left].
    + pose proof (IH (simulateMove GetTime model m uninit) false) as Hm.
      apply (fold_max_bound
               (fun m => minimax_with GetTime uninit evaluate_fn depth
                           (simulateMove GetTime model m uninit) false aiPlayer));
        [|intros; apply IH].
      match goal with |- context [?a <? ?b] => destruct (Z.ltb_spec a b) end; lia.
    + pose proof (IH (simulateMove GetTime model m uninit) true) as Hm.
      apply (fold_min_bound
               (fun m => minimax_with GetTime uninit evaluate_fn depth
                           (simulateMove GetTime model m uninit) true aiPlayer));
        [|intros; apply IH].
      match goal with |- context [?a <? ?b] => destruct (Z.ltb_spec a b) end; lia.
Qed.

End MinimaxBound.

Section RootFacts.

Variable GetTime : float.
Variable uninit : GameModel.

(** The root loop keeps the first move of the highest value. *)
Lemma rootLoop_minimax_first (value : GameModel -> Z) model validMoves bestMove bestValue :
  let best := rootLoop_minimax GetTime uninit value model validMoves bestMove bestValue in
  let valueOf m := value (simulateMove GetTime model m uninit) in
  (best = bestMove /\ forall m, In m validMoves -> valueOf m <= bestValue) \/
  (exists l1 l2, validMoves = l1 ++ best :: l2 /\ bestValue < valueOf best /\
     (forall m, In m l1 -> valueOf m < valueOf best) /\
     (forall m, In m l2 -> valueOf m <= valueOf best)).
Proof.
  cbv zeta. revert bestMove bestValue.
  induction validMoves as [|m l IH]; intros bestMove bestValue; cbn [rootLoop_minimax].
  { left. split; [reflexivity|intros m []]. }
  cbv zeta. set (v := value (simulateMove GetTime model m uninit)).
  destruct (Z.ltb_spec bestValue v) as [Hlt|Hge].
  - right. destruct (IH m v) as [[-> Hall]|(l1 & l2 & Hl & Hbest & H1 & H2)].
    + exists [], l. split; [reflexivity|]. split; [exact Hlt|]. split; [intros m' []|exact Hall].
    + exists (m :: l1), l2. split; [rewrite Hl at 1; reflexivity|]. split; [fold v in Hbest; lia|].
      split; [|exact H2]. intros m' [<-|Hm']; [exact Hbest|apply H1, Hm'].
  - destruct (IH bestMove bestValue) as [[-> Hall]|(l1 & l2 & Hl & Hbest & H1 & H2)].
    + left. split; [reflexivity|]. intros m' [<-|Hm']; [exact Hge|apply Hall, Hm'].
    + right. exists (m :: l1), l2. split; [rewrite Hl at 1; reflexivity|]. split; [exact Hbest|].
      split; [|exact H2]. intros m' [<-|Hm']; [fold v; lia|apply H1, Hm'].
Qed.

(** The result of the root loop, started at [INT_MIN], for values above
    [INT_MIN]. *)
Lemma rootLoop_minimax_best (value : GameModel -> Z) model validMoves bestMove :
  (forall newModel, INT_MIN < value newModel) ->
  validMoves <> [] ->
  let best := rootLoop_minimax GetTime uninit value model validMoves bestMove INT_MIN in
  let valueOf m := value (simulateMove GetTime model m uninit) in
  exists l1 l2, validMoves = l1 ++ best :: l2 /\
    (forall m, In m l1 -> valueOf m < valueOf best) /\
    (forall m, In m l2 -> valueOf m <= valueOf best).
Proof.
  intros Hvalue Hne. cbv zeta.
  destruct (rootLoop_minimax_first value model validMoves bestMove INT_MIN)
    as [[_ Hall]|(l1 & l2 & Hl & _ & H1 & H2)].
  - destruct validMoves as [|m l]; [congruence|].
    specialize (Hall m (or_introl eq_refl)). specialize (Hvalue (simulateMove GetTime model m uninit)).
    lia.
  - exists l1, l2. auto.
Qed.

Lemma rootLoop_minimax_optimal (value : GameModel -> Z) model validMoves bestMove :
  (forall newModel, INT_MIN < value newModel) ->
  validMoves <> [] ->
  let best := rootLoop_minimax GetTime uninit value model validMoves bestMove INT_MIN in
  In best validMoves /\
  forall m, In m validMoves ->
    value (simulateMove GetTime model m uninit) <= value (simulateMove GetTime model best uninit).
Proof.
  intros Hvalue Hne. cbv zeta.
  destruct (rootLoop_minimax_best value model validMoves bestMove Hvalue Hne)
    as (l1 & l2 & Hl & H1 & H2).
  split.
  - rewrite Hl at 2. apply in_or_app. right. left. reflexivity.
  - intros m Hm. rewrite Hl in Hm at 1. apply in_app_or in Hm.
    destruct Hm as [Hm|[<-|Hm]]; [apply H1 in Hm; lia|lia|apply H2, Hm].
Qed.

(** In a list sorted in row-major order the moves before the result have
    a smaller value. *)
Lemma rootLoop_minimax_sorted (value : GameModel -> Z) model validMoves bestMove :
  (forall newModel, INT_MIN < value newModel) ->
  StronglySorted rowMajor_lt validMoves ->
  let best := rootLoop_minimax GetTime uninit value model validMoves bestMove INT_MIN in
  forall m, In m validMoves -> rowMajor_lt m best ->
    value (simulateMove GetTime model m uninit) < value (simulateMove GetTime model best uninit).
Proof.
  intros Hvalue Hsorted. cbv zeta. intros m Hm Hlt.
  assert (Hne : validMoves <> []) by (intros ->; destruct Hm).
  destruct (rootLoop_minimax_best value model validMoves bestMove Hvalue Hne)
    as (l1 & l2 & Hl & H1 & H2).
  set (best := rootLoop_minimax GetTime uninit value model validMoves bestMove INT_MIN) in *.
  clearbody best. subst validMoves.
  apply in_app_or in Hm. destruct Hm as [Hm|[<-|Hm]]; [apply H1, Hm| |].
  - exfalso. exact (rowMajor_lt_asym _ _ Hlt Hlt).
  - exfalso. clear H1 H2 Hne. induction l1 as [|a l1 IH]; simpl in Hsorted.
    + apply StronglySorted_inv in Hsorted. destruct Hsorted as [_ Hall].
      rewrite List.Forall_forall in Hall. exact (rowMajor_lt_asym _ _ Hlt (Hall m Hm)).
    + apply StronglySorted_inv in Hsorted. apply IH, Hsorted.
Qed.

End RootFacts.

(** X12: with legal moves available, the plain minimax engine returns a legal move whose minimax value, four plies deep from the opponent's reply, is the highest among the legal moves, and among the moves of that value the first in row-major order. *)
Theorem getBestMove_minimax_optimal GetTime uninit sentinel model m :
  In m (getValidMoves model) ->
  let best := getBestMove_minimax GetTime uninit sentinel model in
  let valueOf m :=
    minimax GetTime uninit (Z.to_nat (MAX_DEPTH_minimax - 1))
      (simulateMove GetTime model m uninit) false (currentPlayer model) in
  In best (getValidMoves model) /\
  valueOf m <= valueOf best /\
  (rowMajor_lt m best -> valueOf m < valueOf best).
Proof.
  intros Hm. cbv zeta. unfold getBestMove_minimax, getBestMove_minimax_with. cbv zeta.
  pose proof (getValidMoves_sorted model) as Hsorted.
  destruct (getValidMoves model) as [|m0 l] eqn:Hmoves; [destruct Hm|].
  cbn [length Nat.eqb nth]. destruct l as [|m1 l]; cbn [length Nat.eqb].
  { destruct Hm as [<-|[]]. split; [left; reflexivity|]. split; [lia|].
    intros H. exfalso. exact (rowMajor_lt_asym _ _ H H). }
  set (value := fun newModel =>
    minimax_with GetTime uninit evaluate_minimax (Z.to_nat (MAX_DEPTH_minimax - 1)) newModel false
      (currentPlayer model)).
  assert (Hvalue : forall newModel, INT_MIN < value newModel).
  { intros newModel. unfold value.
    pose proof (minimax_with_bound GetTime uninit evaluate_minimax (-64) 64
                  ltac:(unfold INT_MIN; lia) ltac:(unfold INT_MAX; lia) evaluate_minimax_bound
                  (Z.to_nat (MAX_DEPTH_minimax - 1)) newModel false (currentPlayer model)).
    unfold INT_MIN. lia. }
  destruct (rootLoop_minimax_optimal GetTime uninit value model (m0 :: m1 :: l) m0 Hvalue
              ltac:(discriminate)) as [Hin Hmax].
  split; [exact Hin|]. split; [exact (Hmax m Hm)|].
  exact (rootLoop_minimax_sorted GetTime uninit value model (m0 :: m1 :: l) m0 Hvalue Hsorted m Hm).
Qed.

(** X12 at a position with the two legal moves (2, 0) and (0, 2). *)
Lemma getBestMove_minimax_optimal_witness :
  getBestMove_minimax 0%float model0 invalidSquare twoMoves = mkSquare 2 0 /\
  minimax 0%float model0 (Z.to_nat (MAX_DEPTH_minimax - 1))
    (simulateMove 0%float twoMoves (mkSquare 0 2) model0) false PLAYER_BLACK
  <= minimax 0%float model0 (Z.to_nat (MAX_DEPTH_minimax - 1))
       (simulateMove 0%float twoMoves
          (getBestMove_minimax 0%float model0 invalidSquare twoMoves) model0)
       false PLAYER_BLACK.
Proof.
  split; [vm_compute; reflexivity|].
  apply (getBestMove_minimax_optimal 0%float model0 invalidSquare twoMoves (mkSquare 0 2)).
  vm_compute. right. left. reflexivity.
Defined.

(** X13: while its node budget is not reached, [getBestMove] of the first alpha-beta engine returns the move that the plain minimax root loop returns over the same evaluation and depth: the pruning and the alpha passed on at the root do not change the choice. *)
Theorem getBestMove_basic_minimax GetTime uninit sentinel model nodesExplored :
  snd (getBestMove_basic GetTime uninit sentinel model nodesExplored) < MAX_NODES_basic ->
  fst (getBestMove_basic GetTime uninit sentinel model nodesExplored)
  = getBestMove_minimax_with GetTime uninit sentinel (evaluate_basic uninit) MAX_DEPTH_basic model.
Proof.
  unfold getBestMove_basic, getBestMove_minimax_with. cbv zeta.
  destruct (length (getValidMoves model) =? 0)%nat; [reflexivity|].
  destruct (length (getValidMoves model) =? 1)%nat; [reflexivity|].
  intros Hbudget.
  assert (Hrange : forall model player, INT_MIN <= evaluate_basic uninit model player <= INT_MAX).
  { intros m p. pose proof (evaluate_basic_bound uninit m p). unfold INT_MIN, INT_MAX. lia. }
  apply (rootLoop_with_minimax GetTime uninit MAX_NODES_basic); try assumption.
  - intros. apply alphabeta_with_counts.
  - intros newModel alpha beta n Hmin Hlt Hmax Hb. unfold alphabeta_basic.
    apply alphabeta_with_failSoft; try assumption. intros. reflexivity.
  - intros newModel.
    pose proof (minimax_with_bound GetTime uninit (evaluate_basic uninit) (-292) 292
                  ltac:(unfold INT_MIN; lia) ltac:(unfold INT_MAX; lia)
                  (evaluate_basic_bound uninit)
                  (Z.to_nat (MAX_DEPTH_basic - 1)) newModel false (currentPlayer model)).
    unfold INT_MIN, INT_MAX. lia.
  - unfold INT_MIN, INT_MAX. lia.
Qed.

(** X13 at a position with two legal moves. *)
Lemma getBestMove_basic_minimax_witness :
  fst (getBestMove_basic 0%float model0 invalidSquare twoMoves 7)
  = getBestMove_minimax_with 0%float model0 invalidSquare (evaluate_basic model0) MAX_DEPTH_basic
      twoMoves.
Proof.
  apply (getBestMove_basic_minimax 0%float model0 invalidSquare twoMoves 7).
  vm_compute. reflexivity.
Defined.

Lemma rootLoop_optimal GetTime uninit std_sort model validMoves searchDepth aiPlayer bestMove
    nodesExplored m :
  (forall l, Permutation (std_sort l) l) ->
  snd (rootLoop GetTime uninit std_sort model validMoves searchDepth aiPlayer INT_MIN INT_MAX
         bestMove INT_MIN nodesExplored) < MAX_NODES ->
  In m validMoves ->
  let best :=
    fst (rootLoop GetTime uninit std_sort model validMoves searchDepth aiPlayer INT_MIN INT_MAX
           bestMove INT_MIN nodesExplored) in
  let valueOf m :=
    minimax_with GetTime uninit (evaluate uninit) (Z.to_nat (searchDepth - 1))
      (simulateMove GetTime model m uninit) false aiPlayer in
  In best validMoves /\ valueOf m <= valueOf best.
Proof.
  intros Hperm Hbudget Hm. cbv zeta. rewrite rootLoop_with_eq in *.
  assert (Hvalue : forall newModel,
            INT_MIN < minimax_with GetTime uninit (evaluate uninit) (Z.to_nat (searchDepth - 1))
                        newModel false aiPlayer < INT_MAX).
  { intros newModel.
    pose proof (minimax_with_bound GetTime uninit (evaluate uninit) (-7312) 7312
                  ltac:(unfold INT_MIN; lia) ltac:(unfold INT_MAX; lia) (evaluate_bound uninit)
                  (Z.to_nat (searchDepth - 1)) newModel false aiPlayer).
    unfold INT_MIN, INT_MAX. lia. }
  rewrite (rootLoop_with_minimax GetTime uninit MAX_NODES _
             (fun newModel =>
                minimax_with GetTime uninit (evaluate uninit) (Z.to_nat (searchDepth - 1))
                  newModel false aiPlayer)).
  - assert (Hne : validMoves <> []) by (intros ->; destruct Hm).
    destruct (rootLoop_minimax_optimal GetTime uninit
                (fun newModel =>
                   minimax_with GetTime uninit (evaluate uninit) (Z.to_nat (searchDepth - 1))
                     newModel false aiPlayer)
                model validMoves bestMove (fun newModel => proj1 (Hvalue newModel)) Hne)
      as [Hin Hmax].
    split; [exact Hin|exact (Hmax m Hm)].
  - intros. apply alphabeta_with_counts.
  - intros newModel alpha beta n Hmin Hlt Hmax Hb. unfold alphabeta in *.
    apply (alphabeta_with_failSoft GetTime uninit (evaluate uninit) MAX_NODES
             (orderIfSeveral GetTime uninit std_sort)); try assumption.
    intros. apply orderIfSeveral_permutation, Hperm.
  - exact Hvalue.
  - unfold INT_MIN, INT_MAX. lia.
  - exact Hbudget.
Qed.

(** X14: with a [std_sort] that returns a permutation, while the node budget is not reached, [getBestMove] of the final engine returns a legal move whose minimax value, [searchDepth - 1] plies deep, is the highest among the legal moves. *)
Theorem getBestMove_optimal GetTime uninit std_sort sentinel model nodesExplored m :
  (forall l, Permutation (std_sort l) l) ->
  snd (getBestMove GetTime uninit std_sort sentinel model nodesExplored) < MAX_NODES ->
  In m (getValidMoves model) ->
  let best := fst (getBestMove GetTime uninit std_sort sentinel model nodesExplored) in
  let valueOf m :=
    minimax_with GetTime uninit (evaluate uninit) (Z.to_nat (getSearchDepth model - 1))
      (simulateMove GetTime model m uninit) false (currentPlayer model) in
  In best (getValidMoves model) /\ valueOf m <= valueOf best.
Proof.
  intros Hperm Hbudget Hm. cbv zeta. revert Hbudget. unfold getBestMove. cbv zeta.
  destruct (getValidMoves model) as [|m0 l] eqn:Hmoves; [destruct Hm|].
  cbn [length Nat.eqb nth]. destruct l as [|m1 l]; cbn [length Nat.eqb fst snd].
  { intros _. destruct Hm as [<-|[]]. split; [left; reflexivity|lia]. }
  intros Hbudget.
  pose proof (orderMoves_permutation GetTime uninit std_sort Hperm model (m0 :: m1 :: l)
                (currentPlayer model) true) as Hordered.
  destruct (rootLoop_optimal GetTime uninit std_sort model _ _ _ _ _ m Hperm Hbudget)
    as [Hin Hmax].
  - eapply Permutation_in; [symmetry; exact Hordered|exact Hm].
  - split; [|exact Hmax]. eapply Permutation_in; [exact Hordered|exact Hin].
Qed.

(** X14 at a position with two legal moves, with a merge sort. *)
Lemma getBestMove_optimal_witness :
  In (fst (getBestMove 0%float model0 mergeSort invalidSquare twoMoves 0))
     (getValidMoves twoMoves) /\
  minimax_with 0%float model0 (evaluate model0) (Z.to_nat (getSearchDepth twoMoves - 1))
    (simulateMove 0%float twoMoves (mkSquare 0 2) model0) false PLAYER_BLACK
  <= minimax_with 0%float model0 (evaluate model0) (Z.to_nat (getSearchDepth twoMoves - 1))
       (simulateMove 0%float twoMoves
          (fst (getBestMove 0%float model0 mergeSort invalidSquare twoMoves 0)) model0)
       false PLAYER_BLACK.
Proof.
  apply (getBestMove_optimal 0%float model0 mergeSort invalidSquare twoMoves 0 (mkSquare 0 2)
           mergeSort_permutation).
  - vm_compute. reflexivity.
  - vm_compute. right. left. reflexivity.
Defined.

(** X15: for every window with [INT_MIN <= alpha < beta <= INT_MAX], while the node budget is not reached, [alphabeta] of either alpha-beta engine is fail-soft: its value is the minimax value when that lies inside the window, lies between the minimax value and alpha when the minimax value is at most alpha, and between beta and the minimax value when it is at least beta. *)
Theorem alphabeta_window GetTime uninit std_sort depth model alpha beta maximizingPlayer
    aiPlayer nodesExplored :
  (forall l, Permutation (std_sort l) l) ->
  INT_MIN <= alpha -> alpha < beta -> beta <= INT_MAX ->
  (snd (alphabeta GetTime uninit std_sort depth model alpha beta maximizingPlayer aiPlayer
          nodesExplored) < MAX_NODES ->
   failSoft alpha beta
     (minimax_with GetTime uninit (evaluate uninit) depth model maximizingPlayer aiPlayer)
     (fst (alphabeta GetTime uninit std_sort depth model alpha beta maximizingPlayer aiPlayer
             nodesExplored))) /\
  (snd (alphabeta_basic GetTime uninit depth model alpha beta maximizingPlayer aiPlayer
          nodesExplored) < MAX_NODES_basic ->
   failSoft alpha beta
     (minimax_with GetTime uninit (evaluate_basic uninit) depth model maximizingPlayer aiPlayer)
     (fst (alphabeta_basic GetTime uninit depth model alpha beta maximizingPlayer aiPlayer
             nodesExplored))).
Proof.
  intros Hperm Hmin Hlt Hmax. split; intros Hbudget.
  - unfold alphabeta. apply alphabeta_with_failSoft; try assumption.
    intros. apply orderIfSeveral_permutation, Hperm.
  - unfold alphabeta_basic. apply alphabeta_with_failSoft; try assumption.
    intros. reflexivity.
Qed.

(** X15 at the initial position, three plies deep, on the window (0, 1). *)
Lemma alphabeta_window_witness :
  failSoft 0 1
    (minimax_with 0%float model0 (evaluate model0) 3 start0 true PLAYER_BLACK)
    (fst (alphabeta 0%float model0 mergeSort 3 start0 0 1 true PLAYER_BLACK 0)).
Proof.
  apply (alphabeta_window 0%float model0 mergeSort 3 start0 0 1 true PLAYER_BLACK 0
           mergeSort_permutation); [unfold INT_MIN; lia|lia|unfold INT_MAX; lia|].
  vm_compute. reflexivity.
Defined.

(** X16: on the window (INT_MIN, INT_MAX), while its budget of 100000 nodes is not reached, [alphabeta] of the first alpha-beta engine returns the minimax value over its evaluation. *)
Theorem alphabeta_basic_full_window GetTime uninit depth model maximizingPlayer aiPlayer
    nodesExplored :
  snd (alphabeta_basic GetTime uninit depth model INT_MIN INT_MAX maximizingPlayer aiPlayer
         nodesExplored) < MAX_NODES_basic ->
  fst (alphabeta_basic GetTime uninit depth model INT_MIN INT_MAX maximizingPlayer aiPlayer
         nodesExplored)
  = minimax_with GetTime uninit (evaluate_basic uninit) depth model maximizingPlayer aiPlayer.
Proof.
  intros Hbudget. unfold alphabeta_basic in *.
  apply alphabeta_with_minimax; [|intros; reflexivity|exact Hbudget].
  intros m p. pose proof (evaluate_basic_bound uninit m p). unfold INT_MIN, INT_MAX. lia.
Qed.

(** X16 at the initial position, three plies deep. *)
Lemma alphabeta_basic_full_window_witness :
  fst (alphabeta_basic 0%float model0 3 start0 INT_MIN INT_MAX true PLAYER_BLACK 0)
  = minimax_with 0%float model0 (evaluate_basic model0) 3 start0 true PLAYER_BLACK.
Proof.
  apply (alphabeta_basic_full_window 0%float model0 3 start0 true PLAYER_BLACK 0).
  vm_compute. reflexivity.
Defined.

Lemma sameGame_refl a : sameGame a a.
Proof. split; [|split]; reflexivity. Qed.

Lemma fold_setBoardPiece_board_ext toFlip m m' piece :
  board m = board m' ->
  board (fold_left (fun model square => setBoardPiece model square piece) toFlip m)
  = board (fold_left (fun model square => setBoardPiece model square piece) toFlip m').
Proof.
  revert m m'. induction toFlip as [|s l IH]; intros m m' Hb; cbn [fold_left]; [exact Hb|].
  apply IH. unfold setBoardPiece, set_board. cbn [board]. rewrite Hb. reflexivity.
Qed.

Lemma flipDirection_board_ext fuel m m' piece enemyPiece d current toFlip :
  board m = board m' ->
  board (flipDirection fuel m piece enemyPiece d current toFlip)
  = board (flipDirection fuel m' piece enemyPiece d current toFlip).
Proof.
  intros Hb. revert current toFlip.
  induction fuel as [|fuel IH]; intros current toFlip; cbn [flipDirection]; [exact Hb|].
  destruct (isSquareValid current); [|exact Hb].
  cbv zeta. unfold getBoardPiece. rewrite <- Hb.
  destruct (Piece_eqb (cellAt (board m) current) PIECE_EMPTY); [exact Hb|].
  destruct (Piece_eqb (cellAt (board m) current) piece); [|apply IH].
  destruct (0 <? _); [|exact Hb]. apply fold_setBoardPiece_board_ext, Hb.
Qed.

Lemma flipAll_board_ext m m' move piece enemyPiece :
  board m = board m' ->
  board (flipAll m move piece enemyPiece) = board (flipAll m' move piece enemyPiece).
Proof.
  unfold flipAll. revert m m'.
  induction playDirections as [|d ds IH]; intros m m' Hb; cbn [fold_left]; [exact Hb|].
  apply IH, flipDirection_board_ext, Hb.
Qed.

Lemma checkGameOver_sameGame m m' :
  sameGame m m' -> sameGame (checkGameOver m) (checkGameOver m').
Proof.
  intros (Hb & Hp & Hg). unfold checkGameOver. cbv zeta.
  rewrite (getValidMoves_ext m m' Hb Hp).
  destruct (length (getValidMoves m') =? 0)%nat; [|split; [|split]; assumption].
  rewrite (getValidMoves_ext (swapPlayer m) (swapPlayer m'))
    by (unfold swapPlayer, set_currentPlayer; cbn [board currentPlayer]; congruence).
  destruct (length (getValidMoves (swapPlayer m')) =? 0)%nat;
    unfold sameGame, swapPlayer, set_currentPlayer, set_gameOver;
    cbn [board currentPlayer gameOver]; (split; [|split]); congruence.
Qed.

(** The game after a move does not depend on the clock or on the timers. *)
Lemma playMove_sameGame t t' m m' move :
  sameGame m m' -> sameGame (snd (playMove t m move)) (snd (playMove t' m' move)).
Proof.
  intros (Hb & Hp & Hg). rewrite !playMove_unfold. cbn [snd]. rewrite <- Hp.
  apply checkGameOver_sameGame.
  set (piece := pieceOf (currentPlayer m)). set (enemyPiece := opponentPieceOf (currentPlayer m)).
  pose proof (flipAll_sameTurn (setBoardPiece m move piece) move piece enemyPiece)
    as (Hg1 & Hp1 & _).
  pose proof (flipAll_sameTurn (setBoardPiece m' move piece) move piece enemyPiece)
    as (Hg2 & Hp2 & _).
  pose proof (flipAll_board_ext (setBoardPiece m move piece) (setBoardPiece m' move piece) move
                piece enemyPiece) as Hb12.
  unfold sameGame, swapPlayer, updateTimer, set_currentPlayer, set_turnTimer, set_playerTime.
  cbv zeta. cbn [board currentPlayer gameOver].
  split; [|split].
  - apply Hb12. unfold setBoardPiece, set_board. cbn [board]. rewrite Hb. reflexivity.
  - rewrite Hp1, Hp2. unfold setBoardPiece, set_board. cbn [currentPlayer]. congruence.
  - rewrite Hg1, Hg2. unfold setBoardPiece, set_board. cbn [gameOver]. exact Hg.
Qed.

Lemma simulateMove_sameGame t t' u u' m m' move :
  sameGame m m' -> sameGame (simulateMove t m move u) (simulateMove t' m' move u').
Proof.
  intros (Hb & Hp & Hg). unfold simulateMove. cbv zeta. apply playMove_sameGame.
  unfold sameGame, copyBoard, set_gameOver, set_currentPlayer, set_board. cbv zeta.
  cbn [board currentPlayer gameOver]. auto.
Qed.

Lemma passModel_sameGame u u' m m' :
  sameGame m m' -> sameGame (passModel u m) (passModel u' m').
Proof.
  intros (Hb & Hp & Hg).
  unfold sameGame, passModel, copyBoard, set_gameOver, set_currentPlayer, set_board. cbv zeta.
  cbn [board currentPlayer gameOver]. rewrite Hp. auto.
Qed.

Lemma set_gameOver_sameGame m m' v :
  sameGame m m' -> sameGame (set_gameOver m v) (set_gameOver m' v).
Proof. intros (Hb & Hp & Hg). unfold sameGame, set_gameOver. cbn. auto. Qed.

Lemma getScore_ext m m' player : board m = board m' -> getScore m player = getScore m' player.
Proof. intros Hb. unfold getScore, getBoardPiece. rewrite Hb. reflexivity. Qed.

Lemma totalPiecesOf_ext m m' : board m = board m' -> totalPiecesOf m = totalPiecesOf m'.
Proof. intros Hb. unfold totalPiecesOf, getBoardPiece. rewrite Hb. reflexivity. Qed.

Lemma tempModelFor_moves u u' m m' player :
  board m = board m' ->
  getValidMoves (tempModelFor u m player) = getValidMoves (tempModelFor u' m' player).
Proof.
  intros Hb. apply getValidMoves_ext; unfold tempModelFor, set_currentPlayer, set_gameOver, set_board;
    cbn [board currentPlayer]; [exact Hb|reflexivity].
Qed.

Lemma evaluate_minimax_ext m m' player :
  sameGame m m' -> evaluate_minimax m player = evaluate_minimax m' player.
Proof.
  intros (Hb & _). unfold evaluate_minimax. cbv zeta.
  rewrite (getScore_ext m m' player Hb), (getScore_ext m m' (otherPlayer player) Hb). reflexivity.
Qed.

Lemma evaluate_basic_ext u u' m m' player :
  sameGame m m' -> evaluate_basic u m player = evaluate_basic u' m' player.
Proof.
  intros (Hb & _). unfold evaluate_basic. cbv zeta.
  rewrite (getScore_ext m m' player Hb), (getScore_ext m m' (otherPlayer player) Hb).
  rewrite (tempModelFor_moves u u' m m' player Hb).
  rewrite (tempModelFor_moves u u' m m' (otherPlayer player) Hb).
  unfold getBoardPiece. rewrite Hb. reflexivity.
Qed.

Lemma evaluate_ext u u' m m' player :
  sameGame m m' -> evaluate u m player = evaluate u' m' player.
Proof.
  intros (Hb & Hp & _).
  unfold evaluate, positionalValue, mobilityValue, stabilityValue, parityValue, pieceValue.
  cbv zeta.
  rewrite (getScore_ext m m' player Hb), (getScore_ext m m' (otherPlayer player) Hb).
  rewrite (tempModelFor_moves u u' m m' player Hb).
  rewrite (tempModelFor_moves u u' m m' (otherPlayer player) Hb).
  rewrite (totalPiecesOf_ext m m' Hb).
  unfold getBoardPiece. rewrite Hb, Hp. reflexivity.
Qed.

Section Independence.

Variables t t' : float.
Variables u u' : GameModel.

Section Loops.

Variables child child' : GameModel -> Z -> Z -> Z -> Z * Z.
Hypothesis child_ext :
  forall m m' alpha beta n, sameGame m m' -> child m alpha beta n = child' m' alpha beta n.

Lemma maxLoop_ext m m' validMoves alpha beta maxEval n :
  sameGame m m' ->
  maxLoop t u child m validMoves alpha beta maxEval n
  = maxLoop t' u' child' m' validMoves alpha beta maxEval n.
Proof using child_ext.
  intros Hsame. revert alpha maxEval n.
  induction validMoves as [|mv l IH]; intros alpha maxEval n; cbn [maxLoop]; [reflexivity|].
  cbv zeta.
  rewrite (child_ext _ _ alpha beta n (simulateMove_sameGame t t' u u' m m' mv Hsame)).
  destruct (child' _ alpha beta n) as [eval n1].
  destruct (beta <=? _); [reflexivity|apply IH].
Qed.

Lemma minLoop_ext m m' validMoves alpha beta minEval n :
  sameGame m m' ->
  minLoop t u child m validMoves alpha beta minEval n
  = minLoop t' u' child' m' validMoves alpha beta minEval n.
Proof using child_ext.
  intros Hsame. revert beta minEval n.
  induction validMoves as [|mv l IH]; intros beta minEval n; cbn [minLoop]; [reflexivity|].
  cbv zeta.
  rewrite (child_ext _ _ alpha beta n (simulateMove_sameGame t t' u u' m m' mv Hsame)).
  destruct (child' _ alpha beta n) as [eval n1].
  destruct (_ <=? alpha); [reflexivity|apply IH].
Qed.

Lemma rootLoop_with_ext m m' validMoves alpha beta bestMove bestValue n :
  sameGame m m' ->
  rootLoop_with t u child m validMoves alpha beta bestMove bestValue n
  = rootLoop_with t' u' child' m' validMoves alpha beta bestMove bestValue n.
Proof using child_ext.
  intros Hsame. revert alpha bestMove bestValue n.
  induction validMoves as [|mv l IH]; intros alpha bestMove bestValue n; cbn [rootLoop_with];
    [reflexivity|].
  cbv zeta.
  rewrite (child_ext _ _ alpha beta n (simulateMove_sameGame t t' u u' m m' mv Hsame)).
  destruct (child' _ alpha beta n) as [moveValue n1].
  destruct (bestValue <? moveValue); apply IH.
Qed.

End Loops.

Section Values.

Variables value value' : GameModel -> Z.
Hypothesis value_ext : forall m m', sameGame m m' -> value m = value' m'.

Lemma fold_max_ext m m' validMoves a :
  sameGame m m' ->
  fold_left (fun maxEval mv =>
    let newModel := simulateMove t m mv u in
    let eval := value newModel in
    if maxEval <? eval then eval else maxEval) validMoves a
  = fold_left (fun maxEval mv =>
      let newModel := simulateMove t' m' mv u' in
      let eval := value' newModel in
      if maxEval <? eval then eval else maxEval) validMoves a.
Proof using value_ext.
  intros Hsame. revert a. induction validMoves as [|mv l IH]; intros a; cbn [fold_left];
    [reflexivity|].
  cbv zeta. rewrite (value_ext _ _ (simulateMove_sameGame t t' u u' m m' mv Hsame)). apply IH.
Qed.

Lemma fold_min_ext m m' validMoves a :
  sameGame m m' ->
  fold_left (fun minEval mv =>
    let newModel := simulateMove t m mv u in
    let eval := value newModel in
    if eval <? minEval then eval else minEval) validMoves a
  = fold_left (fun minEval mv =>
      let newModel := simulateMove t' m' mv u' in
      let eval := value' newModel in
      if eval <? minEval then eval else minEval) validMoves a.
Proof using value_ext.
  intros Hsame. revert a. induction validMoves as [|mv l IH]; intros a; cbn [fold_left];
    [reflexivity|].
  cbv zeta. rewrite (value_ext _ _ (simulateMove_sameGame t t' u u' m m' mv Hsame)). apply IH.
Qed.

Lemma rootLoop_minimax_ext m m' validMoves bestMove bestValue :
  sameGame m m' ->
  rootLoop_minimax t u value m validMoves bestMove bestValue
  = rootLoop_minimax t' u' value' m' validMoves bestMove bestValue.
Proof using value_ext.
  intros Hsame. revert bestMove bestValue.
  induction validMoves as [|mv l IH]; intros bestMove bestValue; cbn [rootLoop_minimax];
    [reflexivity|].
  cbv zeta. rewrite (value_ext _ _ (simulateMove_sameGame t t' u u' m m' mv Hsame)).
  destruct (bestValue <? _); apply IH.
Qed.

End Values.

Section Searches.

Variables evaluate_fn evaluate_fn' : GameModel -> Player -> Z.
Variable MAX_NODES_of : Z.
Variables reorder reorder' : GameModel -> Moves -> Player -> bool -> Moves.

Hypothesis evaluate_fn_ext :
  forall m m' player, sameGame m m' -> evaluate_fn m player = evaluate_fn' m' player.
Hypothesis reorder_ext :
  forall m m' validMoves aiPlayer maximizingPlayer,
    sameGame m m' ->
    reorder m validMoves aiPlayer maximizingPlayer
    = reorder' m' validMoves aiPlayer maximizingPlayer.

Lemma alphabeta_with_ext depth m m' alpha beta maximizingPlayer aiPlayer n :
  sameGame m m' ->
  alphabeta_with t u evaluate_fn MAX_NODES_of reorder depth m alpha beta maximizingPlayer
    aiPlayer n
  = alphabeta_with t' u' evaluate_fn' MAX_NODES_of reorder' depth m' alpha beta
      maximizingPlayer aiPlayer n.
Proof using evaluate_fn_ext reorder_ext.
  revert m m' alpha beta maximizingPlayer n.
  induction depth as [|depth IH]; intros m m' alpha beta mx n Hsame; cbn [alphabeta_with];
    cbv zeta; rewrite (evaluate_fn_ext m m' aiPlayer Hsame); [reflexivity|].
  destruct (MAX_NODES_of <=? n + 1); [reflexivity|].
  pose proof Hsame as (Hb & Hp & Hg). rewrite Hg.
  destruct (gameOver m'); [reflexivity|].
  rewrite (getValidMoves_ext m m' Hb Hp).
  pose proof (passModel_sameGame u u' m m' Hsame) as Hpass.
  pose proof Hpass as (Hb' & Hp' & _).
  rewrite (getValidMoves_ext _ _ Hb' Hp').
  rewrite (evaluate_fn_ext _ _ aiPlayer (set_gameOver_sameGame _ _ true Hpass)).
  rewrite (IH _ _ alpha beta (negb mx) (n + 1) Hpass).
  rewrite (reorder_ext m m' (getValidMoves m') aiPlayer mx Hsame).
  destruct (length (getValidMoves m') =? 0)%nat; [reflexivity|].
  destruct mx.
  - apply maxLoop_ext; [|exact Hsame]. intros. apply IH. assumption.
  - apply minLoop_ext; [|exact Hsame]. intros. apply IH. assumption.
Qed.

Lemma minimax_with_ext depth m m' maximizingPlayer aiPlayer :
  sameGame m m' ->
  minimax_with t u evaluate_fn depth m maximizingPlayer aiPlayer
  = minimax_with t' u' evaluate_fn' depth m' maximizingPlayer aiPlayer.
Proof using evaluate_fn_ext.
  revert m m' maximizingPlayer.
  induction depth as [|depth IH]; intros m m' mx Hsame; cbn [minimax_with];
    cbv zeta; rewrite (evaluate_fn_ext m m' aiPlayer Hsame); [reflexivity|].
  pose proof Hsame as (Hb & Hp & Hg). rewrite Hg.
  destruct (gameOver m'); [reflexivity|].
  rewrite (getValidMoves_ext m m' Hb Hp).
  pose proof (passModel_sameGame u u' m m' Hsame) as Hpass.
  pose proof Hpass as (Hb' & Hp' & _).
  rewrite (getValidMoves_ext _ _ Hb' Hp').
  rewrite (evaluate_fn_ext _ _ aiPlayer (set_gameOver_sameGame _ _ true Hpass)).
  rewrite (IH _ _ (negb mx) Hpass).
  destruct (length (getValidMoves m') =? 0)%nat; [reflexivity|].
  destruct mx.
  - apply (fold_max_ext (fun newModel => minimax_with t u evaluate_fn depth newModel false aiPlayer)
             (fun newModel => minimax_with t' u' evaluate_fn' depth newModel false aiPlayer));
      [|exact Hsame]. intros. apply IH. assumption.
  - apply (fold_min_ext (fun newModel => minimax_with t u evaluate_fn depth newModel true aiPlayer)
             (fun newModel => minimax_with t' u' evaluate_fn' depth newModel true aiPlayer));
      [|exact Hsame]. intros. apply IH. assumption.
Qed.

End Searches.

Lemma orderMoves_ext std_sort m m' moves aiPlayer maximizing :
  sameGame m m' ->
  orderMoves t u std_sort m moves aiPlayer maximizing
  = orderMoves t' u' std_sort m' moves aiPlayer maximizing.
Proof.
  intros Hsame. unfold orderMoves, scoreMoves. cbv zeta. do 2 f_equal.
  apply map_ext. intros mv.
  rewrite (evaluate_ext u u' _ _ aiPlayer (simulateMove_sameGame t t' u u' m m' mv Hsame)).
  reflexivity.
Qed.

Lemma orderIfSeveral_ext std_sort m m' moves aiPlayer maximizing :
  sameGame m m' ->
  orderIfSeveral t u std_sort m moves aiPlayer maximizing
  = orderIfSeveral t' u' std_sort m' moves aiPlayer maximizing.
Proof.
  intros Hsame. unfold orderIfSeveral. destruct (1 <? length moves)%nat; [|reflexivity].
  apply orderMoves_ext, Hsame.
Qed.

Lemma alphabeta_ext std_sort depth m m' alpha beta maximizingPlayer aiPlayer n :
  sameGame m m' ->
  alphabeta t u std_sort depth m alpha beta maximizingPlayer aiPlayer n
  = alphabeta t' u' std_sort depth m' alpha beta maximizingPlayer aiPlayer n.
Proof.
  unfold alphabeta. apply alphabeta_with_ext.
  - intros. apply evaluate_ext. assumption.
  - intros. apply orderIfSeveral_ext. assumption.
Qed.

Lemma getBestMove_ext std_sort sentinel m m' n :
  sameGame m m' ->
  getBestMove t u std_sort sentinel m n = getBestMove t' u' std_sort sentinel m' n.
Proof.
  intros Hsame. pose proof Hsame as (Hb & Hp & Hg). unfold getBestMove. cbv zeta.
  rewrite (getValidMoves_ext m m' Hb Hp).
  destruct (length (getValidMoves m') =? 0)%nat; [reflexivity|].
  destruct (length (getValidMoves m') =? 1)%nat; [reflexivity|].
  unfold getSearchDepth. cbv zeta. rewrite (totalPiecesOf_ext m m' Hb).
  rewrite (orderMoves_ext std_sort m m' _ _ _ Hsame). rewrite Hp.
  rewrite !rootLoop_with_eq. apply rootLoop_with_ext; [|exact Hsame].
  intros. apply alphabeta_ext. assumption.
Qed.

Lemma getBestMove_basic_ext sentinel m m' n :
  sameGame m m' ->
  getBestMove_basic t u sentinel m n = getBestMove_basic t' u' sentinel m' n.
Proof.
  intros Hsame. pose proof Hsame as (Hb & Hp & Hg). unfold getBestMove_basic. cbv zeta.
  rewrite (getValidMoves_ext m m' Hb Hp).
  destruct (length (getValidMoves m') =? 0)%nat; [reflexivity|].
  destruct (length (getValidMoves m') =? 1)%nat; [reflexivity|].
  rewrite Hp. apply rootLoop_with_ext; [|exact Hsame].
  intros. unfold alphabeta_basic. apply alphabeta_with_ext; [| |assumption].
  - intros. apply evaluate_basic_ext. assumption.
  - reflexivity.
Qed.

Lemma getBestMove_minimax_ext sentinel m m' :
  sameGame m m' ->
  getBestMove_minimax t u sentinel m = getBestMove_minimax t' u' sentinel m'.
Proof.
  intros Hsame. pose proof Hsame as (Hb & Hp & Hg).
  unfold getBestMove_minimax, getBestMove_minimax_with. cbv zeta.
  rewrite (getValidMoves_ext m m' Hb Hp).
  destruct (length (getValidMoves m') =? 0)%nat; [reflexivity|].
  destruct (length (getValidMoves m') =? 1)%nat; [reflexivity|].
  rewrite Hp. apply rootLoop_minimax_ext; [|exact Hsame].
  intros. apply minimax_with_ext; [|assumption].
  intros. apply evaluate_minimax_ext. assumption.
Qed.

End Independence.

(** X17: the move chosen by each of the three engines, and the node counter of the two alpha-beta engines, depend only on the board, the player to move and the game-over flag: the clock, the timers of the model and the content of the uninitialised local models have no effect. *)
Theorem getBestMove_ignores_clock t t' u u' std_sort sentinel model model' nodesExplored :
  sameGame model model' ->
  getBestMove t u std_sort sentinel model nodesExplored
  = getBestMove t' u' std_sort sentinel model' nodesExplored /\
  getBestMove_basic t u sentinel model nodesExplored
  = getBestMove_basic t' u' sentinel model' nodesExplored /\
  getBestMove_minimax t u sentinel model = getBestMove_minimax t' u' sentinel model'.
Proof.
  intros Hsame. split; [|split].
  - apply getBestMove_ext, Hsame.
  - apply getBestMove_basic_ext, Hsame.
  - apply getBestMove_minimax_ext, Hsame.
Qed.

(** X17 for the plain minimax engine at the initial position, with two clocks and two contents of the locals. *)
Lemma getBestMove_ignores_clock_witness :
  getBestMove_minimax 0%float model0 invalidSquare start0
  = getBestMove_minimax 9%float twoMoves invalidSquare (startModel 5%float twoMoves).
Proof.
  apply (getBestMove_ignores_clock 0%float 9%float model0 twoMoves mergeSort invalidSquare start0
           (startModel 5%float twoMoves) 0).
  split; [|split]; reflexivity.
Defined.

(** X18: [playMove] on two models that have the same board, player to move and game-over flag gives two models that have the same board, player to move and game-over flag, whatever the clock and the timers are. *)
Theorem playMove_ignores_clock t t' model model' move :
  sameGame model model' ->
  sameGame (snd (playMove t model move)) (snd (playMove t' model' move)).
Proof. apply playMove_sameGame. Qed.

(** X18 at the initial position with two clocks. *)
Lemma playMove_ignores_clock_witness :
  sameGame (snd (playMove 0%float start0 (mkSquare 3 2)))
           (snd (playMove 9%float (startModel 5%float twoMoves) (mkSquare 3 2))).
Proof.
  apply (playMove_ignores_clock 0%float 9%float start0 (startModel 5%float twoMoves)).
  split; [|split]; reflexivity.
Defined.

Lemma reachableIn_reachable n model : reachableIn n model -> reachable model.
Proof.
  induction 1 as [GetTime model|n GetTime model move _ IH Hin].
  - apply reachable_start.
  - apply reachable_play; assumption.
Qed.

Lemma reachableIn_pieces n model :
  reachableIn n model -> wf_board (board model) /\ totalPiecesOf model = 4 + Z.of_nat n.
Proof.
  induction 1 as [GetTime model|n GetTime model move _ [IHwf IHn] Hin].
  - split; [apply wf_board_start|reflexivity].
  - split; [apply playMove_wf, IHwf|].
    apply In_getValidMoves in Hin as [Hvalid Hmove].
    apply (isValidMove_spec model move Hvalid) in Hmove as [Hempty _].
    rewrite (playMove_totalPieces GetTime model move IHwf Hvalid Hempty). lia.
Qed.

(** A legal move needs an empty square. *)
Lemma getValidMoves_empty model move :
  In move (getValidMoves model) -> 1 <= emptySquaresOf model.
Proof.
  intros Hin. apply In_getValidMoves in Hin as [Hvalid Hmove].
  apply (isValidMove_spec model move Hvalid) in Hmove as [Hempty _].
  unfold emptySquaresOf. rewrite countSquares_filter.
  assert (Hf : In move (List.filter
                 (fun square => Piece_eqb (getBoardPiece model square) PIECE_EMPTY) boardSquares)).
  { apply filter_In. split; [apply In_boardSquares, Hvalid|]. rewrite Hempty. reflexivity. }
  destruct (List.filter _ boardSquares); [destruct Hf|simpl; lia].
Qed.

Lemma emptySquaresOf_ext m m' : board m = board m' -> emptySquaresOf m = emptySquaresOf m'.
Proof. intros Hb. unfold emptySquaresOf, getBoardPiece. rewrite Hb. reflexivity. Qed.

Lemma full_noLegalMove model : totalPiecesOf model = 64 -> noLegalMove model.
Proof.
  intros Hfull player.
  destruct (getValidMoves (set_currentPlayer model player)) as [|move l] eqn:Hmoves;
    [reflexivity|].
  exfalso.
  pose proof (getValidMoves_empty (set_currentPlayer model player) move) as Hempty.
  rewrite Hmoves in Hempty. specialize (Hempty (or_introl eq_refl)).
  pose proof (emptySquaresOf_ext (set_currentPlayer model player) model eq_refl) as Hsame.
  pose proof (totalPieces_emptySquares model). lia.
Qed.

(** X19: after [n] legal moves from the seeded position the board holds [4 + n] pieces; hence a game has at most 60 moves, and after the 60th the game-over flag is set. *)
Theorem game_length n model :
  reachableIn n model ->
  totalPiecesOf model = 4 + Z.of_nat n /\ (n <= 60)%nat /\
  (n = 60%nat -> gameOver model = true).
Proof.
  intros Hreach. destruct (reachableIn_pieces n model Hreach) as [_ Hn].
  pose proof (totalPiecesOf_range model) as Hrange.
  split; [exact Hn|]. split; [lia|]. intros ->.
  apply (reachable_invariant model (reachableIn_reachable _ _ Hreach)).
  apply full_noLegalMove. lia.
Qed.

(** X19 after the opening move (3, 2). *)
Lemma game_length_witness :
  totalPiecesOf (snd (playMove 1%float start0 (mkSquare 3 2))) = 4 + Z.of_nat 1.
Proof.
  apply (game_length 1 (snd (playMove 1%float start0 (mkSquare 3 2)))).
  apply (reachableIn_play 0 1%float start0 (mkSquare 3 2) (reachableIn_start 0%float model0)).
  vm_compute. auto 10.
Defined.

(** X20: in every state, the game-over flag is set after [playMove] exactly when it was set before or neither player has a legal move on the new board; [playMove] never clears it. *)
Theorem playMove_gameOver GetTime model move :
  let after := snd (playMove GetTime model move) in
  gameOver after = true <-> gameOver model = true \/ noLegalMove after.
Proof.
  cbv zeta. rewrite playMove_unfold. cbn [snd].
  match goal with |- context [checkGameOver ?m] =>
    destruct (checkGameOver_spec m) as (_ & H & _)
  end.
  rewrite playMove_gameOver_before in H. exact H.
Qed.

(** ** The two versions of playMove *)

(** Boards of the right shape are equal when their cells are. *)
Lemma board_ext (b b' : Board) :
  wf_board b -> wf_board b' ->
  (forall square, isSquareValid square = true -> cellAt b square = cellAt b' square) ->
  b = b'.
Proof.
  intros [Hlen Hrows] [Hlen' Hrows'] Hcells.
  rewrite List.Forall_forall in Hrows, Hrows'.
  apply list_eq. intros i.
  destruct (decide (i < Z.to_nat BOARD_SIZE)%nat) as [Hi|Hi].
  2:{ rewrite !lookup_ge_None_2 by lia. reflexivity. }
  destruct (lookup_lt_is_Some_2 b i ltac:(lia)) as [row Hrow].
  destruct (lookup_lt_is_Some_2 b' i ltac:(lia)) as [row' Hrow'].
  rewrite Hrow, Hrow'. f_equal.
  assert (Hr : length row = Z.to_nat BOARD_SIZE).
  { apply Hrows, list_elem_of_In, (list_elem_of_lookup_2 _ i), Hrow. }
  assert (Hr' : length row' = Z.to_nat BOARD_SIZE).
  { apply Hrows', list_elem_of_In, (list_elem_of_lookup_2 _ i), Hrow'. }
  apply list_eq. intros j.
  destruct (decide (j < Z.to_nat BOARD_SIZE)%nat) as [Hj|Hj].
  2:{ rewrite !lookup_ge_None_2 by lia. reflexivity. }
  destruct (lookup_lt_is_Some_2 row j ltac:(lia)) as [p Hp].
  destruct (lookup_lt_is_Some_2 row' j ltac:(lia)) as [p' Hp'].
  assert (Hvalid : isSquareValid (mkSquare (Z.of_nat j) (Z.of_nat i)) = true).
  { apply isSquareValid_spec. cbn [x y]. unfold BOARD_SIZE in *. lia. }
  specialize (Hcells _ Hvalid). unfold cellAt in Hcells. rewrite Hvalid in Hcells.
  cbn [x y] in Hcells. rewrite !Nat2Z.id, Hrow, Hrow' in Hcells. cbn in Hcells.
  rewrite Hp, Hp' in Hcells. cbn in Hcells. rewrite Hp, Hp'. congruence.
Qed.

Lemma playMove_starter_unfold GetTime model move :
  playMove_starter GetTime model move =
  (true, checkGameOver (swapPlayer (updateTimer GetTime
     (setBoardPiece model move (pieceOf (currentPlayer model)))))).
Proof. reflexivity. Qed.

(** With nothing to capture the flipping loop leaves the model as it is. *)
Lemma flipAll_nothing model move :
  wf_board (board model) -> isSquareValid move = true ->
  (forall square, ~ captured model (currentPlayer model) move square) ->
  let placed := setBoardPiece model move (pieceOf (currentPlayer model)) in
  flipAll placed move (pieceOf (currentPlayer model)) (opponentPieceOf (currentPlayer model))
  = placed.
Proof.
  intros Hwf Hmove Hnone placed.
  set (flipped := flipAll placed move (pieceOf (currentPlayer model))
                    (opponentPieceOf (currentPlayer model))).
  assert (Hboard : board flipped = board placed).
  { apply board_ext.
    - apply flipAll_wf. unfold placed, setBoardPiece. cbn [board set_board]. apply setCell_wf, Hwf.
    - unfold placed, setBoardPiece. cbn [board set_board]. apply setCell_wf, Hwf.
    - intros square Hsquare.
      unfold flipped, placed. rewrite <- (playMove_board 0%float model move).
      change (getBoardPiece (snd (playMove 0%float model move)) square
              = getBoardPiece (setBoardPiece model move (pieceOf (currentPlayer model))) square).
      destruct (playMove_cells 0%float model move square Hwf Hmove) as [Hin Hout].
      destruct (decide (square = move)) as [->|Hne].
      + rewrite Hin by (left; reflexivity). symmetry.
        unfold getBoardPiece, setBoardPiece. cbn [board set_board].
        apply cellAt_setCell_same; assumption.
      + rewrite (Hout Hne (Hnone square)). symmetry.
        apply getBoardPiece_setBoardPiece_other, Hne. }
  destruct (flipAll_sameTurn placed move (pieceOf (currentPlayer model))
              (opponentPieceOf (currentPlayer model))) as (Hg & Hp & Ht & Hs).
  fold flipped in Hg, Hp, Ht, Hs. clearbody flipped.
  destruct flipped, placed. cbn in *. congruence.
Qed.

(** X21: on a board of the right shape and a square of the board, the final [playMove] and the [playMove] of the starter code return the same state when the move brackets no opponent piece; on every bracketed square the starter code leaves the opponent's piece where the final code puts the mover's. *)
Theorem playMove_starter_agrees GetTime model move :
  wf_board (board model) -> isSquareValid move = true ->
  ((forall square, ~ captured model (currentPlayer model) move square) ->
   playMove GetTime model move = playMove_starter GetTime model move) /\
  (forall square, captured model (currentPlayer model) move square ->
   getBoardPiece (snd (playMove_starter GetTime model move)) square
   = opponentPieceOf (currentPlayer model) /\
   getBoardPiece (snd (playMove GetTime model move)) square = pieceOf (currentPlayer model)).
Proof.
  intros Hwf Hmove. split.
  - intros Hnone. rewrite playMove_unfold, playMove_starter_unfold.
    rewrite (flipAll_nothing model move Hwf Hmove Hnone). reflexivity.
  - intros square Hcap. split.
    + rewrite playMove_starter_unfold. cbn [snd]. unfold getBoardPiece.
      rewrite checkGameOver_board.
      change (getBoardPiece (setBoardPiece model move (pieceOf (currentPlayer model))) square
              = opponentPieceOf (currentPlayer model)).
      rewrite getBoardPiece_setBoardPiece_other.
      * destruct Hcap as (d & n & i & _ & (Hrun & _) & Hi & ->). apply Hrun, Hi.
      * intros ->. exact (captured_not_move _ _ _ Hcap).
    + apply (playMove_cells GetTime model move square Hwf Hmove). right. exact Hcap.
Qed.

(** X21 at the initial position: after the opening move (3, 2) the square (3, 3) is white in the starter code and black in the final code. *)
Lemma playMove_starter_agrees_witness :
  getBoardPiece (snd (playMove_starter 1%float start0 (mkSquare 3 2))) (mkSquare 3 3)
  = PIECE_WHITE /\
  getBoardPiece (snd (playMove 1%float start0 (mkSquare 3 2))) (mkSquare 3 3) = PIECE_BLACK.
Proof.
  apply (playMove_starter_agrees 1%float start0 (mkSquare 3 2) (wf_board_start _ _) eq_refl).
  exists (0, 1), 1%nat, 1%nat. split; [vm_compute; tauto|].
  split; [|split; [lia|reflexivity]].
  split; [|split; reflexivity]. intros i Hi. assert (i = 1%nat) as -> by lia.
  split; reflexivity.
Defined.
